(** * Garbage collection of etcd backup snapshots

    A shallow embedding of [pkg/snapshot/snapshotter/garbagecollector.go]
    (package [snapshotter]) and the properties of its retention policies.

    The collector reads the snapshot list of a store, cuts it into snapshot
    streams (a full snapshot followed by the delta snapshots taken on top of
    it), deletes the delta snapshots of every stream but the latest and then
    decides, per policy, which full snapshots go. *)

From Stdlib Require Import ZArith List String Bool Lia Arith Permutation Sorted.
Import ListNotations.
Local Open Scope Z_scope.

(** ** Time, as package [time] has it

    An instant is the number of nanoseconds since the Unix epoch in UTC, a
    [Duration] is a signed 64-bit count of nanoseconds. *)

Module time.

Definition Time := Z.
Definition Duration := Z.

Definition Nanosecond : Duration := 1.
Definition Second : Duration := 1000000000 * Nanosecond.
Definition Minute : Duration := 60 * Second.
Definition Hour : Duration := 60 * Minute.

Definition minDuration : Duration := - 2 ^ 63.
Definition maxDuration : Duration := 2 ^ 63 - 1.

(** [t.Truncate(d)]: [t] rounded down to a multiple of [d] since the zero
    time.  The zero time and the Unix epoch are a whole number of days
    apart, so for [d] an hour or a day the multiples coincide with those
    counted from the epoch.  [t] is returned unchanged when [d <= 0]. *)
Definition Truncate (t : Time) (d : Duration) : Time :=
  if d <=? 0 then t else t - t mod d.

(** [t.Sub(u)]: the duration [t - u], saturated at the largest and the
    smallest [Duration]. *)
Definition Sub (t u : Time) : Duration :=
  Z.max minDuration (Z.min maxDuration (t - u)).

(** [t.Equal(u)] *)
Definition Equal (t u : Time) : bool := t =? u.

(** The calendar date [(t.Year(), t.Month(), t.Day())] of an instant in
    UTC, as the number of whole days since the epoch. *)
Definition civilDay (t : Time) : Z := t / (24 * Hour).

(** [time.Date(y, m, d, hour, 0, 0, 0, UTC)] where [(y, m, d)] is the date
    [day]; [Date] normalises a day or an hour out of range, so a date
    [now.Day() - k] is the day number less [k]. *)
Definition Date (day hour : Z) : Time := day * (24 * Hour) + hour * Hour.

(** [int(d.Hours() / 24)]: [Hours] is the floating-point number of hours,
    whole-hour durations are exact in it, its division by 24 is rounded to
    nearest and [int] truncates toward zero; on the saturated values the
    fraction of an hour cannot carry over a multiple of 24 either. *)
Definition HoursDiv24 (d : Duration) : Z := Z.quot (Z.quot d Hour) 24.

End time.

(** ** Snapshots, as package [snapstore] has them

    The package is imported by the collector; what the collector uses of it
    is set down here. *)

Module snapstore.

(** Modelled from the spec: the kind of a snapshot, one of the two values
    [SnapshotKindFull] and [SnapshotKindDelta] that the field [Kind] takes. *)
Inductive SnapshotKind := SnapshotKindFull | SnapshotKindDelta.

Definition SnapshotKind_eqb (a b : SnapshotKind) : bool :=
  match a, b with
  | SnapshotKindFull, SnapshotKindFull => true
  | SnapshotKindDelta, SnapshotKindDelta => true
  | _, _ => false
  end.

(** Modelled from the spec: the snapshot descriptor.  The collector reads
    [Kind], [CreatedOn], [SnapDir] and [SnapName]. *)
Record Snapshot := mkSnapshot {
  Kind : SnapshotKind;
  StartRevision : Z;
  LastRevision : Z;
  CreatedOn : time.Time;
  SnapDir : string;
  SnapName : string
}.

(** Modelled from the spec: [SnapList], the list of snapshot descriptors a
    store lists.  Its entries are the descriptors themselves: a listing with
    a nil entry, which the collector would dereference, is not among these
    lists. *)
Abbreviation SnapList := (list Snapshot).

(** A Go [error], by its message. *)
Definition Error := string.

(** Modelled from the spec: the store interface, [List] and [Delete], each
    run on the state of the store and giving the next state with the result;
    [None] is [nil]. *)
Class SnapStore (S : Type) := {
  List : S -> S * (SnapList + Error);
  Delete : S -> Snapshot -> S * option Error
}.

End snapstore.

Import snapstore.

Definition Snapshot_eq_dec (a b : Snapshot) : {a = b} + {a <> b}.
Proof.
  decide equality; try apply string_dec; try apply Z.eq_dec.
  decide equality.
Defined.

(** ** What a run of the collector does: store calls and log lines *)

Inductive Level := Info | Warn.

(** The arguments of a log line, left unformatted. *)
Inductive Arg :=
| ArgTime (t : time.Time)
| ArgPath (dir name : string)      (* path.Join(dir, name) *)
| ArgBool (b : bool)
| ArgErr (e : Error).

Inductive Event :=
| EvLog (lvl : Level) (format : string) (args : list Arg)
| EvList (err : option Error)
| EvDelete (snap : Snapshot) (err : option Error).

Definition Trace := list Event.

(** The snapshots handed to [store.Delete], in call order. *)
Fixpoint deleteCalls (tr : Trace) : list Snapshot :=
  match tr with
  | [] => []
  | EvDelete s _ :: tr' => s :: deleteCalls tr'
  | _ :: tr' => deleteCalls tr'
  end.

(** The warnings logged. *)
Fixpoint warnings (tr : Trace) : list Event :=
  match tr with
  | [] => []
  | EvLog Warn f a :: tr' => EvLog Warn f a :: warnings tr'
  | _ :: tr' => warnings tr'
  end.

(** Every [store.Delete] of the trace returned [nil]. *)
Definition deleteOk (e : Event) : Prop :=
  match e with
  | EvDelete _ (Some _) => False
  | _ => True
  end.

Definition allDeletesSucceed (tr : Trace) : Prop := Forall deleteOk tr.

(** ** The collector *)

(** The values the string variable [backupMode] takes. *)
Inductive BackupMode := ModeNone | ModeHour | ModeDay | ModeWeek | ModeMonth.

Definition BackupMode_eqb (a b : BackupMode) : bool :=
  match a, b with
  | ModeNone, ModeNone | ModeHour, ModeHour | ModeDay, ModeDay
  | ModeWeek, ModeWeek | ModeMonth, ModeMonth => true
  | _, _ => false
  end.

(** The variables the exponential policy carries from one stream to the
    next. *)
Record ExpState := mkExpState {
  deleteSnap : bool;
  backupMode : BackupMode;
  backupCount : Z
}.

Definition hourModeLimit : Z := 24.
Definition dayModeLimit : Z := 7.
Definition weekModeLimit : Z := 4.

Definition initExpState : ExpState := mkExpState true ModeNone (-1).

(** Modelled from the spec: the two policy identifiers, constants of the
    package that are declared outside the file. *)
Definition GarbageCollectionPolicyExponential : string := "Exponential".
Definition GarbageCollectionPolicyLimitBased : string := "LimitBased".

(** Go's [int]: 64 bits, two's complement. *)
Definition wrapInt (z : Z) : Z := (z + 2 ^ 63) mod 2 ^ 64 - 2 ^ 63.

(** The fields of the snapshotter that a pass reads. *)
Record Snapshotter := mkSnapshotter {
  garbageCollectionPolicy : string;
  maxBackups : Z
}.

(** What wakes the collector's [select]: the stop channel, or the timer, at
    which the clock reads [now] should the pass ask. *)
Inductive Signal := StopCh | TimeAfter (now : time.Time).

(** [snap.Kind == snapstore.SnapshotKindFull] *)
Definition isFull (s : Snapshot) : bool := SnapshotKind_eqb (Kind s) SnapshotKindFull.

(** The stream index list: [0], then every later index holding a full
    snapshot. *)
Fixpoint appendFullIndexes (rest : SnapList) (index : nat) (acc : list nat) : list nat :=
  match rest with
  | [] => acc
  | s :: rest' =>
      appendFullIndexes rest' (S index) (if isFull s then acc ++ [index] else acc)
  end.

Definition snapStreamIndexList (snapList : SnapList) : list nat :=
  appendFullIndexes (skipn 1 snapList) 1%nat [0%nat].

(** *** The mode switch of the exponential policy

    Each case gives the next state and the lines it logs. *)

Definition infoSwitch (mode : string) (snap : Snapshot) : Event :=
  EvLog Info ("GC: Switching to " ++ mode ++ " mode for snapshot %s") [ArgTime (CreatedOn snap)].

Definition hourAnchor (now : time.Time) (count : Z) : time.Time :=
  time.Date (time.civilDay now) count.

Definition dayAnchor (now : time.Time) (count : Z) : time.Time :=
  time.Date (time.civilDay now - 7 + count) 0.

Definition weekAnchor (now : time.Time) (count : Z) : time.Time :=
  time.Date (time.civilDay now - dayModeLimit - 7 * (weekModeLimit - count)) 0.

Definition caseMonth (st : ExpState) : ExpState * Trace :=
  (mkExpState true (backupMode st) (backupCount st), []).

(** [for backupCount >= 0 { ... }] of the week case; [n] counts the rounds
    left, [backupCount + 1] of them. *)
Fixpoint weekLoop (n : nat) (now : time.Time) (snap : Snapshot) (st : ExpState)
  : ExpState * Trace :=
  match n with
  | O => (st, [])
  | S n' =>
      let rounded := weekAnchor now (backupCount st) in
      let diff :=
        Z.quot (time.HoursDiv24 (time.Sub rounded (time.Truncate (CreatedOn snap) time.Hour))) 7 in
      if diff =? 0 then
        let count := backupCount st - 1 in
        if count =? -1
        then (mkExpState false ModeMonth count, [infoSwitch "Month" snap])
        else (mkExpState false (backupMode st) count, [])
      else if diff >? 0 then
        weekLoop n' now snap (mkExpState (deleteSnap st) (backupMode st) (backupCount st - 1))
      else (mkExpState true (backupMode st) (backupCount st), [])
  end.

Definition caseWeek (now : time.Time) (snap : Snapshot) (st : ExpState)
  : ExpState * Trace :=
  let '(st1, l1) := weekLoop (Z.to_nat (backupCount st + 1)) now snap st in
  if backupCount st1 >=? 0 then (st1, l1)
  else if BackupMode_eqb (backupMode st1) ModeMonth then (st1, l1)
  else
    let '(st2, l2) := caseMonth (mkExpState (deleteSnap st1) ModeMonth (backupCount st1)) in
    (st2, l1 ++ infoSwitch "Month" snap :: l2).

Fixpoint dayLoop (n : nat) (now : time.Time) (snap : Snapshot) (st : ExpState)
  : ExpState * Trace :=
  match n with
  | O => (st, [])
  | S n' =>
      let rounded := dayAnchor now (backupCount st) in
      let diff := time.Sub rounded (time.Truncate (CreatedOn snap) (time.Hour * 24)) in
      if diff =? 0 then
        let count := backupCount st - 1 in
        if count =? -1
        then (mkExpState false ModeWeek (weekModeLimit - 1), [infoSwitch "Week" snap])
        else (mkExpState false (backupMode st) count, [])
      else if diff >? 0 then
        dayLoop n' now snap (mkExpState (deleteSnap st) (backupMode st) (backupCount st - 1))
      else (mkExpState true (backupMode st) (backupCount st), [])
  end.

Definition caseDay (now : time.Time) (snap : Snapshot) (st : ExpState)
  : ExpState * Trace :=
  let '(st1, l1) := dayLoop (Z.to_nat (backupCount st + 1)) now snap st in
  if backupCount st1 >=? 0 then (st1, l1)
  else if BackupMode_eqb (backupMode st1) ModeWeek then (st1, l1)
  else
    let '(st2, l2) :=
      caseWeek now snap (mkExpState (deleteSnap st1) ModeWeek (weekModeLimit - 1)) in
    (st2, l1 ++ infoSwitch "Week" snap :: l2).

Fixpoint hourLoop (n : nat) (now : time.Time) (snap : Snapshot) (st : ExpState)
  : ExpState * Trace :=
  match n with
  | O => (st, [])
  | S n' =>
      let rounded := hourAnchor now (backupCount st) in
      let diff := time.Sub rounded (time.Truncate (CreatedOn snap) time.Hour) in
      if diff =? 0 then
        let count := backupCount st - 1 in
        if count =? -1
        then (mkExpState false ModeDay (dayModeLimit - 1), [infoSwitch "Day" snap])
        else (mkExpState false (backupMode st) count, [])
      else if diff >? 0 then
        hourLoop n' now snap (mkExpState (deleteSnap st) (backupMode st) (backupCount st - 1))
      else (mkExpState true (backupMode st) (backupCount st), [])
  end.

Definition caseHour (now : time.Time) (snap : Snapshot) (st : ExpState)
  : ExpState * Trace :=
  let '(st1, l1) := hourLoop (Z.to_nat (backupCount st + 1)) now snap st in
  if backupCount st1 >=? 0 then (st1, l1)
  else if BackupMode_eqb (backupMode st1) ModeDay then (st1, l1)
  else
    let '(st2, l2) :=
      caseDay now snap (mkExpState (deleteSnap st1) ModeDay (dayModeLimit - 1)) in
    (st2, l1 ++ infoSwitch "Day" snap :: l2).

Definition caseNone (now : time.Time) (snap : Snapshot) (st : ExpState)
  : ExpState * Trace :=
  if time.Equal (time.Truncate now time.Hour) (time.Truncate (CreatedOn snap) time.Hour)
  then (mkExpState false (backupMode st) (backupCount st), [])
  else
    let '(st2, l2) := caseHour now snap (mkExpState false ModeHour (hourModeLimit - 1)) in
    (st2, infoSwitch "Hour" snap :: l2).

(** [switch backupMode { ... }] *)
Definition switchBackupMode (now : time.Time) (snap : Snapshot) (st : ExpState)
  : ExpState * Trace :=
  match backupMode st with
  | ModeNone => caseNone now snap st
  | ModeHour => caseHour now snap st
  | ModeDay => caseDay now snap st
  | ModeWeek => caseWeek now snap st
  | ModeMonth => caseMonth st
  end.

(** *** The passes over the store

    A computation runs on the state of the store and gives its result, the
    next state and the trace of what it did; the result is [None] when the
    run panicked on an index out of range. *)

Section Collector.

Context {Store : Type} {store : SnapStore Store}.

Definition M (A : Type) : Type := Store -> option A * Store * Trace.

Definition ret {A} (a : A) : M A := fun s => (Some a, s, []).

Definition bind {A B} (m : M A) (k : A -> M B) : M B :=
  fun s =>
    match m s with
    | (Some a, s1, t1) =>
        match k a s1 with
        | (r, s2, t2) => (r, s2, t1 ++ t2)
        end
    | (None, s1, t1) => (None, s1, t1)
    end.

Definition panic {A} : M A := fun s => (None, s, []).

Definition tell (t : Trace) : M unit := fun s => (Some tt, s, t).

Definition logf (lvl : Level) (format : string) (args : list Arg) : M unit :=
  tell [EvLog lvl format args].

Definition storeList : M (SnapList + Error) :=
  fun s =>
    match List s with
    | (s', inl l) => (Some (inl l), s', [EvList None])
    | (s', inr e) => (Some (inr e), s', [EvList (Some e)])
    end.

Definition storeDelete (snap : Snapshot) : M (option Error) :=
  fun s =>
    match Delete s snap with
    | (s', r) => (Some r, s', [EvDelete snap r])
    end.

(** [l[i]] *)
Definition index {A} (l : list A) (i : nat) : M A :=
  match nth_error l i with
  | Some a => ret a
  | None => panic
  end.

(** [l[a:b]], on a list whose capacity is its length. *)
Definition slice {A} (l : list A) (a b : nat) : M (list A) :=
  if ((a <=? b) && (b <=? List.length l))%nat
  then ret (firstn (b - a) (skipn a l))
  else panic.

End Collector.

Declare Scope gc_scope.
Delimit Scope gc_scope with gc.
Notation "x <- m ;; k" := (bind m (fun x => k))
  (at level 61, m at next level, right associativity) : gc_scope.
Notation "m ;; k" := (bind m (fun _ => k))
  (at level 61, right associativity) : gc_scope.

Section Passes.

Context {Store : Type} {store : SnapStore Store}.
Local Open Scope gc_scope.

Definition snapPath (snap : Snapshot) : Arg := ArgPath (SnapDir snap) (SnapName snap).

(** [for i := len(snapStream) - 1; i > 0; i-- { ... }], entered with
    [i = len(snapStream) - 1]. *)
Fixpoint deltaLoop (i : nat) (snapStream : SnapList) : M (option Error) :=
  match i with
  | O => ret None
  | S i' =>
      snap <- index snapStream i ;;
      logf Info "GC: Deleting old delta snapshot: %s" [snapPath snap] ;;
      err <- storeDelete snap ;;
      match err with
      | Some e =>
          logf Warn "GC: Failed to delete snapshot %s: %v" [snapPath snap; ArgErr e] ;;
          ret (Some e)
      | None => deltaLoop i' snapStream
      end
  end.

Definition garbageCollectDeltaSnapshots (snapStream : SnapList) : M (option Error) :=
  deltaLoop (List.length snapStream - 1) snapStream.

(** One round of the exponential policy's loop, on stream
    [snapStreamIndex]. *)
Definition exponentialRound (now : time.Time) (snapList : SnapList)
    (indexList : list nat) (snapStreamIndex : nat) (st : ExpState) : M ExpState :=
  lo <- index indexList snapStreamIndex ;;
  snap <- index snapList lo ;;
  hi <- index indexList (snapStreamIndex + 1) ;;
  snapStream <- slice snapList lo hi ;;
  err <- garbageCollectDeltaSnapshots snapStream ;;
  match err with
  | Some _ => ret st
  | None =>
      let '(st', logs) := switchBackupMode now snap st in
      tell logs ;;
      (if deleteSnap st' then
         logf Info "GC: Deleting old full snapshot: %s %v"
           [ArgTime (CreatedOn snap); ArgBool (deleteSnap st')] ;;
         err <- storeDelete snap ;;
         match err with
         | Some e => logf Warn "GC: Failed to delete snapshot %s: %v" [snapPath snap; ArgErr e]
         | None => ret tt
         end
       else ret tt) ;;
      ret st'
  end.

(** [for snapStreamIndex := len(snapStreamIndexList) - 2; snapStreamIndex >= 0;
    snapStreamIndex--], with [n = snapStreamIndex + 1]. *)
Fixpoint exponentialLoop (n : nat) (now : time.Time) (snapList : SnapList)
    (indexList : list nat) (st : ExpState) : M ExpState :=
  match n with
  | O => ret st
  | S snapStreamIndex =>
      st' <- exponentialRound now snapList indexList snapStreamIndex st ;;
      exponentialLoop snapStreamIndex now snapList indexList st'
  end.

Definition gcExponential (now : time.Time) (snapList : SnapList) (indexList : list nat)
  : M ExpState :=
  exponentialLoop (List.length indexList - 1) now snapList indexList initExpState.

Definition limitRound (maxBackups : Z) (snapList : SnapList) (indexList : list nat)
    (snapStreamIndex : nat) : M unit :=
  lo <- index indexList snapStreamIndex ;;
  hi <- index indexList (snapStreamIndex + 1) ;;
  snapStream <- slice snapList lo hi ;;
  err <- garbageCollectDeltaSnapshots snapStream ;;
  match err with
  | Some _ => ret tt
  | None =>
      if Z.of_nat snapStreamIndex <? wrapInt (Z.of_nat (List.length indexList) - maxBackups) then
        snap <- index snapList lo ;;
        logf Info "GC: Deleting old full snapshot: %s" [snapPath snap] ;;
        err <- storeDelete snap ;;
        match err with
        | Some e => logf Warn "GC: Failed to delete snapshot %s: %v" [snapPath snap; ArgErr e]
        | None => ret tt
        end
      else ret tt
  end.

(** [for snapStreamIndex := 0; snapStreamIndex < len(snapStreamIndexList) - 1;
    snapStreamIndex++], with [n] rounds left. *)
Fixpoint limitLoop (n : nat) (maxBackups : Z) (snapList : SnapList)
    (indexList : list nat) (snapStreamIndex : nat) : M unit :=
  match n with
  | O => ret tt
  | S n' =>
      limitRound maxBackups snapList indexList snapStreamIndex ;;
      limitLoop n' maxBackups snapList indexList (S snapStreamIndex)
  end.

Definition gcLimitBased (maxBackups : Z) (snapList : SnapList) (indexList : list nat)
  : M unit :=
  limitLoop (List.length indexList - 1) maxBackups snapList indexList 0.

(** The policy switch on a listed [snapList]. *)
Definition collect (ssr : Snapshotter) (now : time.Time) (snapList : SnapList) : M unit :=
  let indexList := snapStreamIndexList snapList in
  if String.eqb (garbageCollectionPolicy ssr) GarbageCollectionPolicyExponential then
    gcExponential now snapList indexList ;; ret tt
  else if String.eqb (garbageCollectionPolicy ssr) GarbageCollectionPolicyLimitBased then
    gcLimitBased (maxBackups ssr) snapList indexList
  else ret tt.

(** One pass: the body of the timer case. *)
Definition gcPass (ssr : Snapshotter) (now : time.Time) : M unit :=
  logf Info "GC: Executing garbage collection..." [] ;;
  r <- storeList ;;
  match r with
  | inr err => logf Warn "GC: Failed to list snapshots: %v" [ArgErr err]
  | inl snapList => collect ssr now snapList
  end.

(** The collector, run on the signals its [select] receives. *)
Fixpoint GarbageCollector (ssr : Snapshotter) (signals : list Signal) : M unit :=
  match signals with
  | [] => ret tt
  | StopCh :: _ => logf Info "GC: Stop signal received. Closing garbage collector." []
  | TimeAfter now :: signals' =>
      gcPass ssr now ;; GarbageCollector ssr signals'
  end.

End Passes.

(** ** Streams and what a trace says about them *)

(** The results of the [store.Delete] calls, in call order. *)
Fixpoint deleteResults (tr : Trace) : list (Snapshot * option Error) :=
  match tr with
  | [] => []
  | EvDelete s r :: tr' => (s, r) :: deleteResults tr'
  | _ :: tr' => deleteResults tr'
  end.

Definition mem (snap : Snapshot) (l : list Snapshot) : bool :=
  if in_dec Snapshot_eq_dec snap l then true else false.

(** The state of the store after the given deletes, whatever they return. *)
Definition afterDeletes {Store : Type} {store : SnapStore Store}
    (s : Store) (snaps : list Snapshot) : Store :=
  fold_left (fun st snap => fst (Delete st snap)) snaps s.

Section Sweep.

Context {Store : Type} {store : SnapStore Store}.
Local Open Scope gc_scope.

(** The sweep of [garbageCollectDeltaSnapshots], as a recursion over the
    delta snapshots in the order the loop visits them. *)
Fixpoint sweepList (deltas : list Snapshot) : M (option Error) :=
  match deltas with
  | [] => ret None
  | snap :: rest =>
      logf Info "GC: Deleting old delta snapshot: %s" [snapPath snap] ;;
      err <- storeDelete snap ;;
      match err with
      | Some e =>
          logf Warn "GC: Failed to delete snapshot %s: %v" [snapPath snap; ArgErr e] ;;
          ret (Some e)
      | None => sweepList rest
      end
  end.

End Sweep.

(** The streams themselves.  [cutStreams rest] gives what is left of the
    current stream and the streams that follow it. *)
Fixpoint cutStreams (rest : SnapList) : SnapList * list SnapList :=
  match rest with
  | [] => ([], [])
  | s :: rest' =>
      let '(cur, later) := cutStreams rest' in
      if isFull s then ([], (s :: cur) :: later) else (s :: cur, later)
  end.

(** The snapshot list cut at the indices of [snapStreamIndexList]; the empty
    list is one empty stream, as its index list is [[0]]. *)
Definition snapStreams (snapList : SnapList) : list SnapList :=
  match snapList with
  | [] => [[]]
  | s :: rest => let '(cur, later) := cutStreams rest in (s :: cur) :: later
  end.

(** The index at which each of consecutive streams starts, the first at
    [k]. *)
Fixpoint offsets (k : nat) (streams : list SnapList) : list nat :=
  match streams with
  | [] => []
  | x :: xs => k :: offsets (k + List.length x) xs
  end.

(** The head of stream [i], and the heads of all streams, oldest first. *)
Definition streamHead (snapList : SnapList) (i : nat) : option Snapshot :=
  match nth_error (snapStreamIndexList snapList) i with
  | Some lo => nth_error snapList lo
  | None => None
  end.

Definition streamHeads (snapList : SnapList) : list Snapshot :=
  flat_map (fun lo => match nth_error snapList lo with Some h => [h] | None => [] end)
    (snapStreamIndexList snapList).

(** The delete calls of one round on a stream, with their results. *)
Definition Calls := list (Snapshot * option Error).

Definition succeeded (snaps : list Snapshot) : Calls := map (fun d => (d, None)) snaps.

(** The rounds of a policy loop over streams, as the delete calls they make.
    A round sweeps the delta snapshots of its stream, newest first.  When a
    delete of the sweep fails the round ends there and the loop's variables
    go through [onFail]; otherwise they go through [onOk], which also says
    whether the head of the stream is deleted. *)
Section Rounds.

Variable V : Type.
Variable onFail : V -> V.
Variable onOk : V -> Snapshot -> V * bool.

Inductive Round : V -> SnapList -> Calls -> V -> Prop :=
| RoundSweepFailed v h deltas ok d rest e :
    rev deltas = ok ++ d :: rest ->
    Round v (h :: deltas) (succeeded ok ++ [(d, Some e)]) (onFail v)
| RoundKeep v h deltas :
    snd (onOk v h) = false ->
    Round v (h :: deltas) (succeeded (rev deltas)) (fst (onOk v h))
| RoundDelete v h deltas r :
    snd (onOk v h) = true ->
    Round v (h :: deltas) (succeeded (rev deltas) ++ [(h, r)]) (fst (onOk v h)).

Inductive Rounds : V -> list SnapList -> list Calls -> V -> Prop :=
| RoundsDone v : Rounds v [] [] v
| RoundsStep v x c v1 streams calls v' :
    Round v x c v1 -> Rounds v1 streams calls v' ->
    Rounds v (x :: streams) (c :: calls) v'.

End Rounds.

(** The variables of the limit-based loop: the stream index; the head goes
    when the index is below [len(snapStreamIndexList) - maxBackups]. *)
Definition limitOnFail (i : nat) : nat := S i.

Definition limitOnOk (total : nat) (maxBackups : Z) (i : nat) (_ : Snapshot) : nat * bool :=
  (S i, Z.of_nat i <? wrapInt (Z.of_nat total - maxBackups)).

(** The variables of the exponential loop: its state, which a failed sweep
    leaves alone. *)
Definition expOnFail (st : ExpState) : ExpState := st.

Definition expOnOk (now : time.Time) (st : ExpState) (h : Snapshot) : ExpState * bool :=
  let st' := fst (switchBackupMode now h st) in (st', deleteSnap st').

(** ** A store in memory, to run the collector on

    The store holds a list of snapshots.  [List] fails when [listErr] is
    set; [Delete] fails on a snapshot listed in [failing] and on one the
    store does not hold, and otherwise removes it. *)

Module memstore.

Record T := mk {
  contents : SnapList;
  listErr : option Error;
  failing : list Snapshot
}.

Definition doList (s : T) : T * (SnapList + Error) :=
  match listErr s with
  | Some e => (s, inr e)
  | None => (s, inl (contents s))
  end.

Definition doDelete (s : T) (snap : Snapshot) : T * option Error :=
  if mem snap (failing s) then (s, Some "delete refused"%string)
  else if mem snap (contents s)
  then (mk (remove Snapshot_eq_dec snap (contents s)) (listErr s) (failing s), None)
  else (s, Some "no such snapshot"%string).

#[export] Instance store : SnapStore T := {| List := doList; Delete := doDelete |}.

Definition holding (l : SnapList) : T := mk l None [].

(** An instant, by day number, hour and minute. *)
Definition at_ (day hour minute : Z) : time.Time :=
  day * (24 * time.Hour) + hour * time.Hour + minute * time.Minute.

Definition full (t : time.Time) (name : string) : Snapshot :=
  mkSnapshot SnapshotKindFull 0 0 t "v1" name.

Definition delta (t : time.Time) (name : string) : Snapshot :=
  mkSnapshot SnapshotKindDelta 0 0 t "v1" name.

Definition exponential : Snapshotter := mkSnapshotter GarbageCollectionPolicyExponential 0.
Definition limitBased (k : Z) : Snapshotter := mkSnapshotter GarbageCollectionPolicyLimitBased k.

(** The names of the snapshots a run asked the store to delete. *)
Definition deletedNames (r : option unit * T * Trace) : list string :=
  map SnapName (deleteCalls (snd r)).

End memstore.
Import memstore.

(** ** Hours and buckets

    The whole hours since the epoch at an instant. *)
Definition hourOf (t : time.Time) : Z := t / time.Hour.

(** The order of the modes: the current hour, then hours, days, weeks and
    what is older. *)
Definition modeRank (m : BackupMode) : nat :=
  match m with
  | ModeNone => 0
  | ModeHour => 1
  | ModeDay => 2
  | ModeWeek => 3
  | ModeMonth => 4
  end.

(** The states the exponential loop can be in. *)
Definition wfState (st : ExpState) : Prop :=
  match backupMode st with
  | ModeNone => True
  | ModeHour => 0 <= backupCount st <= 23
  | ModeDay => 0 <= backupCount st <= 6
  | ModeWeek => 0 <= backupCount st <= 3
  | ModeMonth => True
  end.

(** The buckets a state still has to give: those left in its mode and all
    of the later modes. *)
Definition slots (st : ExpState) : Z :=
  match backupMode st with
  | ModeNone => 35
  | ModeHour => backupCount st + 12
  | ModeDay => backupCount st + 5
  | ModeWeek => backupCount st + 1
  | ModeMonth => 0
  end.

(** The latest hour at which the hour or the day mode of a state can still
    keep a snapshot. *)
Definition frontier (now : time.Time) (st : ExpState) : Z :=
  match backupMode st with
  | ModeNone => 24 * time.civilDay now + 23
  | ModeHour => 24 * time.civilDay now + backupCount st
  | ModeDay => 24 * (time.civilDay now - 7 + backupCount st) + 23
  | ModeWeek | ModeMonth => 24 * (time.civilDay now - 7) - 1
  end.

(** The first hour of the bucket of hour [x]: [x] itself from midnight of
    [now]'s date on, midnight of its date before. *)
Definition bucketStart (now : time.Time) (x : Z) : Z :=
  if 24 * time.civilDay now <=? x then x else 24 * (x / 24).

(** The heads the exponential walk keeps, walking [heads] from state
    [st]. *)
Fixpoint walkKept (now : time.Time) (st : ExpState) (heads : list Snapshot)
  : list Snapshot :=
  match heads with
  | [] => []
  | h :: rest =>
      let st' := fst (switchBackupMode now h st) in
      if deleteSnap st' then walkKept now st' rest else h :: walkKept now st' rest
  end.

(** The hour and the day buckets of [now]: a snapshot is in hour bucket [c]
    when its hour is the anchor the hour loop computes at count [c], and in
    day bucket [c] when its date is the anchor the day loop computes. *)
Definition inHourBucket (now : time.Time) (c : Z) (snap : Snapshot) : Prop :=
  time.Truncate (CreatedOn snap) time.Hour = hourAnchor now c.

Definition inDayBucket (now : time.Time) (c : Z) (snap : Snapshot) : Prop :=
  time.Truncate (CreatedOn snap) (time.Hour * 24) = dayAnchor now c.

(** The snapshot is of the hour of [now]. *)
Definition inCurrentHour (now : time.Time) (snap : Snapshot) : bool :=
  time.Equal (time.Truncate now time.Hour) (time.Truncate (CreatedOn snap) time.Hour).

(** What one mode switch on [snap] does to the measures of a state: it
    leaves a state the loop can be in, with no more slots and no later a
    frontier; a snapshot kept outside the hour of [now] takes a slot, and
    one kept in an hour or a day bucket is no later than the frontier and
    moves it before its bucket. *)
Definition stepOk (now : time.Time) (snap : Snapshot) (st st' : ExpState) : Prop :=
  wfState st' /\
  slots st' <= slots st /\
  frontier now st' <= frontier now st /\
  (deleteSnap st' = false -> hourOf now <> hourOf (CreatedOn snap) ->
   slots st' < slots st) /\
  (deleteSnap st' = false -> hourOf now <> hourOf (CreatedOn snap) ->
   24 * (time.civilDay now - 7) <= hourOf (CreatedOn snap) ->
   hourOf (CreatedOn snap) <= frontier now st /\
   frontier now st' < bucketStart now (hourOf (CreatedOn snap))).

(** The state of the walk after [heads]. *)
Definition walkState (now : time.Time) (st : ExpState) (heads : list Snapshot) : ExpState :=
  fold_left (fun st h => fst (switchBackupMode now h st)) heads st.

(** What the state of a walk down a list sorted by time knows of the hour
    [p] of the head it saw last: in the hour and the day mode the next
    anchor is just below that head's bucket, unless the mode was only
    entered; a later mode is entered only on a head older than the earlier
    one's buckets. *)
Definition walkInv (now : time.Time) (st : ExpState) (p : option Z) : Prop :=
  match p with
  | None => backupMode st = ModeNone
  | Some xp =>
      match backupMode st with
      | ModeNone => xp = hourOf now
      | ModeHour =>
          0 <= backupCount st <= 23 /\
          24 * time.civilDay now + backupCount st < xp /\
          (backupCount st = 23 \/ xp <= 24 * time.civilDay now + backupCount st + 1)
      | ModeDay =>
          0 <= backupCount st <= 6 /\
          xp <= 24 * time.civilDay now /\
          time.civilDay now - 7 + backupCount st < xp / 24 /\
          (backupCount st = 6 \/ xp / 24 <= time.civilDay now - 7 + backupCount st + 1)
      | ModeWeek =>
          0 <= backupCount st <= 3 /\
          xp / 24 <= time.civilDay now - 7 /\
          (xp / 24 = time.civilDay now - 7 -> backupCount st = 3)
      | ModeMonth => xp / 24 < time.civilDay now - 7
      end
  end.

(** What a step of that walk on [snap] gives, [p] being the hour of the head
    before it: the invariant again; a head in an hour bucket of [now]'s date
    or in a day bucket is kept when the head before it is not of its
    bucket, and deleted when it is, the hour of [now] apart. *)
Definition stepFacts (now : time.Time) (snap : Snapshot) (p : option Z) (st' : ExpState)
  : Prop :=
  walkInv now st' (Some (hourOf (CreatedOn snap))) /\
  (24 * (time.civilDay now - 7) <= hourOf (CreatedOn snap) <= 24 * time.civilDay now + 23 ->
   (forall xp, p = Some xp ->
      bucketStart now xp <> bucketStart now (hourOf (CreatedOn snap))) ->
   deleteSnap st' = false) /\
  (24 * (time.civilDay now - 7) <= hourOf (CreatedOn snap) ->
   hourOf now <> hourOf (CreatedOn snap) ->
   (exists xp, p = Some xp /\
      bucketStart now xp = bucketStart now (hourOf (CreatedOn snap))) ->
   deleteSnap st' = true).

(** The hour of the last of [heads], if any. *)
Definition lastHour (heads : list Snapshot) : option Z :=
  match rev heads with
  | [] => None
  | a :: _ => Some (hourOf (CreatedOn a))
  end.

(** Sorted by creation time, newest first, as the walk goes. *)
Definition newestFirst (heads : list Snapshot) : Prop :=
  StronglySorted (fun a b => CreatedOn b <= CreatedOn a) heads.

(** Sorted by creation time, oldest first, as the store lists. *)
Definition sortedByTime (l : SnapList) : Prop :=
  StronglySorted (fun a b => CreatedOn a <= CreatedOn b) l.

(** ** Checks that compute, and a listing to try the passes on *)

Fixpoint nodupb (l : list Snapshot) : bool :=
  match l with
  | [] => true
  | a :: l' => negb (mem a l') && nodupb l'
  end.

Definition deleteOkb (e : Event) : bool :=
  match e with
  | EvDelete _ (Some _) => false
  | _ => true
  end.

(** Three streams: [a] with two deltas, [b] with one, and the latest, [c],
    with one. *)
Definition demoList : SnapList :=
  [full (at_ 100 8 0) "a"; delta (at_ 100 8 10) "a1"; delta (at_ 100 8 20) "a2";
   full (at_ 100 9 0) "b"; delta (at_ 100 9 10) "b1";
   full (at_ 100 10 0) "c"; delta (at_ 100 10 10) "c1"].

(** A pass at 10:30 of day 100 over [demoList], in a store that refuses to
    delete the snapshots of [failing]. *)
Definition demoPass (ssr : Snapshotter) (failing : list Snapshot)
  : option unit * memstore.T * Trace :=
  gcPass ssr (at_ 100 10 30) (memstore.mk demoList None failing).

Fixpoint sortedb (l : list Snapshot) : bool :=
  match l with
  | [] => true
  | a :: rest => forallb (fun b => CreatedOn a <=? CreatedOn b) rest && sortedb rest
  end.

(** Four full snapshots of the morning of day 100, two of them in the hour
    from 9:00. *)
Definition hourList : SnapList :=
  [full (at_ 100 8 30) "a"; full (at_ 100 9 10) "b"; full (at_ 100 9 50) "c";
   full (at_ 100 10 0) "d"].

(** Four full snapshots of the morning of day 100, three of them in the
    hour from 9:00, the latest of the listing among these. *)
Definition lateList : SnapList :=
  [full (at_ 100 8 30) "a"; full (at_ 100 9 10) "b"; full (at_ 100 9 50) "c";
   full (at_ 100 9 55) "d"].

(** Two full snapshots of days 10 and 20, months before day 100, and one of
    day 100. *)
Definition monthList : SnapList :=
  [full (at_ 10 0 0) "a"; full (at_ 20 0 0) "b"; full (at_ 100 10 0) "d"].

(** Two full snapshots of the evening of day 99 and one of day 100. *)
Definition eveningList : SnapList :=
  [full (at_ 99 21 10) "a"; full (at_ 99 22 10) "b"; full (at_ 100 10 0) "d"].

(** Thirty-eight full snapshots of the hour from 10:00 of day 100, a second
    apart. *)
Definition crowdList : SnapList :=
  map (fun i => full (at_ 100 10 0 + Z.of_nat i * time.Second) "s") (seq 0 38).

(** Two full snapshots a day apart, 16 and 15 days before day 100, and one
    of day 100. *)
Definition weekList : SnapList :=
  [full (at_ 84 0 0) "a"; full (at_ 85 0 0) "b"; full (at_ 100 10 0) "d"].

(** Five full snapshots an hour apart. *)
Definition hourlyList : SnapList :=
  [full (at_ 100 5 30) "a"; full (at_ 100 6 30) "b"; full (at_ 100 7 30) "c";
   full (at_ 100 8 30) "d"; full (at_ 100 9 30) "e"].

(** A pass of the exponential policy at 10:30 of day 100 over [l], in a store
    that refuses nothing. *)
Definition morningPass (l : SnapList) : option unit * memstore.T * Trace :=
  gcPass exponential (at_ 100 10 30) (holding l).

(** ** More on streams

    A delta snapshot, and a stream as the cut at a full snapshot leaves it: a
    full snapshot and the delta snapshots up to the next full one. *)
Definition isDelta (d : Snapshot) : Prop := isFull d = false.

Definition headThenDeltas (x : SnapList) : Prop :=
  exists h ds, x = h :: ds /\ isFull h = true /\ Forall isDelta ds.

(** Streams as a cut leaves them: the first starts with any snapshot, all
    the others with a full one, and delta snapshots follow. *)
Definition streamsShape (streams : list SnapList) : Prop :=
  match streams with
  | [] => False
  | first :: rest =>
      (exists h ds, first = h :: ds /\ Forall isDelta ds) /\ Forall headThenDeltas rest
  end.

(** The streams left of [streams] when every delta snapshot is gone and,
    of the heads, those that [keep] does not hold. *)
Definition thin (keep : Snapshot -> bool) (streams : list SnapList) : list SnapList :=
  flat_map (fun x => match x with
                     | h :: _ => if keep h then [[h]] else []
                     | [] => []
                     end) streams.

(** [a] is [l] with some of its elements left out. *)
Inductive Subseq : list Snapshot -> list Snapshot -> Prop :=
| SubseqNil l : Subseq [] l
| SubseqSkip a b l : Subseq a l -> Subseq a (b :: l)
| SubseqTake b a l : Subseq a l -> Subseq (b :: a) (b :: l).

(** The order in which a loop over [streams] comes to their snapshots: in
    each stream the delta snapshots from the newest to the oldest, then the
    head. *)
Definition sweepOrder (streams : list SnapList) : list Snapshot :=
  flat_map (fun x => match x with
                     | h :: ds => rev ds ++ [h]
                     | [] => []
                     end) streams.

(** ** More on traces

    The line that announces the delete of [snap]: the collector has three,
    for a delta snapshot and for a head under either policy. *)
Definition announces (format : string) (args : list Arg) (snap : Snapshot) : Prop :=
  (format = "GC: Deleting old delta snapshot: %s"%string /\ args = [snapPath snap]) \/
  (format = "GC: Deleting old full snapshot: %s"%string /\ args = [snapPath snap]) \/
  (format = "GC: Deleting old full snapshot: %s %v"%string /\
   args = [ArgTime (CreatedOn snap); ArgBool true]).

(** The warning on a delete that failed, and on a listing that failed. *)
Definition warnDelete (snap : Snapshot) (e : Error) : Event :=
  EvLog Warn "GC: Failed to delete snapshot %s: %v" [snapPath snap; ArgErr e].

Definition warnList (e : Error) : Event :=
  EvLog Warn "GC: Failed to list snapshots: %v" [ArgErr e].

(** The names of the modes the exponential policy switches to. *)
Definition switchNames : list string := ["Hour"; "Day"; "Week"; "Month"]%string.

(** A trace made of deletes as the collector logs them: each call of
    [store.Delete] comes right after the line that announces it and, when
    it fails, right before the warning that names the snapshot and the
    error.  With [sw] set the lines of the mode switches may stand between
    them; nothing else may. *)
Inductive Logged (sw : bool) : Trace -> Prop :=
| LoggedNil : Logged sw []
| LoggedSwitch mode snap t :
    sw = true -> In mode switchNames -> Logged sw t ->
    Logged sw (infoSwitch mode snap :: t)
| LoggedDelete format args snap t :
    announces format args snap -> Logged sw t ->
    Logged sw (EvLog Info format args :: EvDelete snap None :: t)
| LoggedFailed format args snap e t :
    announces format args snap -> Logged sw t ->
    Logged sw (EvLog Info format args :: EvDelete snap (Some e) :: warnDelete snap e :: t).

(** The calls of the store that failed, and the calls of [store.List]. *)
Fixpoint failedCalls (tr : Trace) : nat :=
  match tr with
  | [] => 0
  | EvDelete _ (Some _) :: tr' => S (failedCalls tr')
  | EvList (Some _) :: tr' => S (failedCalls tr')
  | _ :: tr' => failedCalls tr'
  end.

Fixpoint listCalls (tr : Trace) : nat :=
  match tr with
  | [] => 0
  | EvList _ :: tr' => S (listCalls tr')
  | _ :: tr' => listCalls tr'
  end.

(** The mode a log line says the exponential policy switches to, and the
    modes a trace says so of, in order. *)
Definition switchedTo (e : Event) : option BackupMode :=
  match e with
  | EvLog Info format _ =>
      if String.eqb format "GC: Switching to Hour mode for snapshot %s" then Some ModeHour
      else if String.eqb format "GC: Switching to Day mode for snapshot %s" then Some ModeDay
      else if String.eqb format "GC: Switching to Week mode for snapshot %s" then Some ModeWeek
      else if String.eqb format "GC: Switching to Month mode for snapshot %s" then Some ModeMonth
      else None
  | _ => None
  end.

Definition switches (tr : Trace) : list BackupMode :=
  flat_map (fun e => match switchedTo e with Some m => [m] | None => [] end) tr.

(** The modes after [a] up to [b], in the order of the modes. *)
Definition modesFromTo (a b : BackupMode) : list BackupMode :=
  filter (fun m => (modeRank a <? modeRank m)%nat && (modeRank m <=? modeRank b)%nat)
    [ModeHour; ModeDay; ModeWeek; ModeMonth].

(** The store calls of a trace, made one after the other from a state of
    the store: each call gave the result the trace says, and the last one
    left the store in the state the run ends in. *)
Inductive Ran {Store : Type} {store : SnapStore Store} : Store -> Trace -> Store -> Prop :=
| RanNil s : Ran s [] s
| RanLog s lvl format args t s' :
    Ran s t s' -> Ran s (EvLog lvl format args :: t) s'
| RanList s s1 res t s' :
    List s = (s1, res) -> Ran s1 t s' ->
    Ran s (EvList (match res with inl _ => None | inr e => Some e end) :: t) s'
| RanDelete s s1 snap r t s' :
    Delete s snap = (s1, r) -> Ran s1 t s' ->
    Ran s (EvDelete snap r :: t) s'.

(** A computation whose trace tells its store calls in full. *)
Definition ran {Store : Type} {store : SnapStore Store} {A : Type} (m : M A) : Prop :=
  forall s, Ran s (snd (m s)) (snd (fst (m s))).

(** ** More on the walk of the exponential policy

    The buckets of the week mode a state still has to give. *)
Definition weekSlots (st : ExpState) : Z :=
  match backupMode st with
  | ModeNone | ModeHour | ModeDay => 4
  | ModeWeek => backupCount st + 1
  | ModeMonth => 0
  end.

(** What one mode switch on [snap] does to the week slots of a state: it
    gives none back, and a snapshot kept that is older than the seven day
    buckets takes one. *)
Definition weekStepOk (now : time.Time) (snap : Snapshot) (st st' : ExpState) : Prop :=
  0 <= weekSlots st' <= weekSlots st /\
  (deleteSnap st' = false ->
   hourOf (CreatedOn snap) < 24 * (time.civilDay now - 7) ->
   weekSlots st' < weekSlots st).

(** The snapshot is older than the day buckets of [now]. *)
Definition beforeDayBuckets (now : time.Time) (snap : Snapshot) : bool :=
  CreatedOn snap <? time.Date (time.civilDay now - 7) 0.

(** Two states of the exponential loop at the same place: in the same mode
    with the same count. *)
Definition samePlace (a b : ExpState) : Prop :=
  backupMode a = backupMode b /\ backupCount a = backupCount b.

(** A state the loop can be in after heads that a loop in its first mode
    would have kept all in the hour of [now] or not met at all: in the hour
    mode with the bucket below the hour of [now] still to give, or just
    through the hour mode when [now] is in the first hour of its date. *)
Definition pastCurrentHour (now : time.Time) (st : ExpState) : Prop :=
  (backupMode st = ModeHour /\
   hourOf now - 24 * time.civilDay now - 1 <= backupCount st) \/
  (backupMode st = ModeDay /\ backupCount st = 6 /\
   hourOf now = 24 * time.civilDay now).

(** A second walk, in state [st2] over the heads a first walk kept, beside
    the first, in state [st1] over all heads. *)
Definition besideWalk (now : time.Time) (st2 st1 : ExpState) : Prop :=
  samePlace st2 st1 \/ (backupMode st2 = ModeNone /\ pastCurrentHour now st1).

(** ** More listings, and the stores in memory that refuse nothing *)

(** A full snapshot of the first hour of the 42nd day before day 100, and
    one of day 100. *)
Definition oldList : SnapList :=
  [full (at_ 58 0 59) "a"; full (at_ 100 10 0) "d"].

(** Three full snapshots of day 100, the last two of the hour from 10:00. *)
Definition currentList : SnapList :=
  [full (at_ 100 9 0) "a"; full (at_ 100 10 5) "b"; full (at_ 100 10 10) "c"].

Definition lawful (s : memstore.T) : Prop := listErr s = None /\ failing s = [].

(** * Properties *)

(** ** Traces *)

Lemma deleteCalls_app (a b : Trace) : deleteCalls (a ++ b) = deleteCalls a ++ deleteCalls b.
Proof.
  induction a as [|e a IH]; simpl; [reflexivity|].
  destruct e; simpl; rewrite IH; reflexivity.
Qed.

Lemma deleteResults_app (a b : Trace) :
  deleteResults (a ++ b) = deleteResults a ++ deleteResults b.
Proof.
  induction a as [|e a IH]; simpl; [reflexivity|].
  destruct e; simpl; rewrite IH; reflexivity.
Qed.

Lemma deleteCalls_results (tr : Trace) : deleteCalls tr = map fst (deleteResults tr).
Proof.
  induction tr as [|e tr IH]; simpl; [reflexivity|].
  destruct e; simpl; rewrite ?IH; reflexivity.
Qed.

Lemma warnings_app (a b : Trace) : warnings (a ++ b) = warnings a ++ warnings b.
Proof.
  induction a as [|e a IH]; simpl; [reflexivity|].
  destruct e as [[] ? ?| |]; simpl; rewrite IH; reflexivity.
Qed.

Lemma allDeletesSucceed_app (a b : Trace) :
  allDeletesSucceed (a ++ b) <-> allDeletesSucceed a /\ allDeletesSucceed b.
Proof. unfold allDeletesSucceed. apply Forall_app. Qed.

Lemma In_deleteCalls (tr : Trace) (snap : Snapshot) :
  In snap (deleteCalls tr) <-> exists r, In (EvDelete snap r) tr.
Proof.
  induction tr as [|e tr IH]; simpl.
  - split; [tauto | intros [_ []]].
  - destruct e; simpl; rewrite IH; split.
    + intros [r H]; exists r; auto.
    + intros [r [H|H]]; [discriminate | exists r; exact H].
    + intros [r H]; exists r; auto.
    + intros [r [H|H]]; [discriminate | exists r; exact H].
    + intros [H|[r H]]; [subst; eexists; left; reflexivity | exists r; auto].
    + intros [r [H|H]]; [inversion H; auto | right; exists r; exact H].
Qed.

(** ** The monad *)

Section MonadFacts.

Context {Store : Type} {store : SnapStore Store}.

Lemma bind_ret {A B} (a : A) (k : A -> M B) (s : Store) : bind (ret a) k s = k a s.
Proof. unfold bind, ret. destruct (k a s) as [[r s2] t2]. reflexivity. Qed.

Lemma bind_ext {A B} (m : M A) (k k' : A -> M B) (s : Store) :
  (forall a s1, k a s1 = k' a s1) -> bind m k s = bind m k' s.
Proof.
  intros E. unfold bind. destruct (m s) as [[[a|] s1] t1]; [|reflexivity].
  rewrite E. reflexivity.
Qed.

Lemma bind_index {A B} (l : list A) (i : nat) (a : A) (k : A -> M B) (s : Store) :
  nth_error l i = Some a -> bind (index l i) k s = k a s.
Proof. intros E. unfold index. rewrite E. apply bind_ret. Qed.

Lemma bind_slice {A B} (l : list A) (a b : nat) (k : list A -> M B) (s : Store) :
  (a <= b)%nat -> (b <= List.length l)%nat ->
  bind (slice l a b) k s = k (firstn (b - a) (skipn a l)) s.
Proof.
  intros H1 H2. unfold slice.
  apply Nat.leb_le in H1. apply Nat.leb_le in H2. rewrite H1, H2. simpl.
  apply bind_ret.
Qed.

Lemma bind_tell {B} (t : Trace) (k : unit -> M B) (s : Store) :
  bind (tell t) k s = let '(r, s', t') := k tt s in (r, s', t ++ t').
Proof. reflexivity. Qed.

Lemma bind_run {A B} (m : M A) (k : A -> M B) (s : Store) r s' tr :
  bind m k s = (r, s', tr) ->
  (exists t1, m s = (None, s', t1) /\ r = None /\ tr = t1) \/
  (exists a s1 t1 t2, m s = (Some a, s1, t1) /\ k a s1 = (r, s', t2) /\ tr = t1 ++ t2).
Proof.
  unfold bind. destruct (m s) as [[[a|] s1] t1].
  - destruct (k a s1) as [[r2 s2] t2] eqn:E. intros H. inversion H; subst.
    right. exists a, s1, t1, t2. auto.
  - intros H. inversion H; subst. left. exists tr. auto.
Qed.

End MonadFacts.

(** ** The delta sweep *)

Section SweepFacts.

Context {Store : Type} {store : SnapStore Store}.

Lemma firstn_S_nth_error {A} (l : list A) (i : nat) (a : A) :
  nth_error l i = Some a -> firstn (S i) l = firstn i l ++ [a].
Proof.
  revert l; induction i as [|i IH]; intros [|x l] E; simpl in *; try discriminate.
  - inversion E; reflexivity.
  - f_equal. apply IH. exact E.
Qed.

Lemma deltaLoop_sweepList (i : nat) (snapStream : SnapList) (s : Store) :
  (i < List.length snapStream)%nat ->
  deltaLoop i snapStream s = sweepList (rev (firstn i (tl snapStream))) s.
Proof.
  revert s. induction i as [|i IH]; intros s Hi.
  - reflexivity.
  - destruct snapStream as [|h ds]; [simpl in Hi; lia|].
    simpl in Hi. assert (Hi' : (i < List.length ds)%nat) by lia.
    destruct (nth_error ds i) as [d|] eqn:E;
      [|apply nth_error_None in E; lia].
    cbn [tl]. rewrite (firstn_S_nth_error _ _ _ E), rev_app_distr.
    cbn [rev app deltaLoop sweepList].
    rewrite bind_index with (a := d) by exact E.
    apply bind_ext; intros _ s1. apply bind_ext; intros [e|] s2; [reflexivity|].
    cbn [tl] in IH. apply IH. simpl. lia.
Qed.

Lemma sweep_sweepList (snapStream : SnapList) (s : Store) :
  garbageCollectDeltaSnapshots snapStream s = sweepList (rev (tl snapStream)) s.
Proof.
  unfold garbageCollectDeltaSnapshots.
  destruct snapStream as [|h ds]; [reflexivity|].
  rewrite deltaLoop_sweepList by (simpl; lia).
  simpl. rewrite Nat.sub_0_r, firstn_all. reflexivity.
Qed.

(** What a sweep over [deltas] does: it deletes a prefix [done] of them,
    every delete but possibly the last succeeds, and it returns the error
    of the last one, if any. *)
Lemma sweepList_run (deltas : list Snapshot) (s : Store) :
  exists done rest err tr,
    sweepList deltas s = (Some err, afterDeletes s done, tr) /\
    deltas = done ++ rest /\
    match err with
    | None => rest = [] /\ deleteResults tr = map (fun d => (d, None)) done
    | Some e =>
        exists ok d, done = ok ++ [d] /\
          deleteResults tr = map (fun d => (d, None)) ok ++ [(d, Some e)]
    end.
Proof.
  revert s. induction deltas as [|d ds IH]; intros s.
  - exists [], [], None, []. simpl. auto.
  - cbn [sweepList]. unfold logf at 1. rewrite bind_tell.
    unfold bind at 1, storeDelete at 1.
    destruct (Delete s d) as [s1 [e|]] eqn:E.
    + exists [d], ds, (Some e). eexists. split; [|split].
      * cbv [bind logf tell ret afterDeletes fold_left]. rewrite E. reflexivity.
      * reflexivity.
      * exists [], d. split; reflexivity.
    + destruct (IH s1) as (done & rest & err & tr & Hrun & Hsplit & Hres).
      rewrite Hrun. exists (d :: done), rest, err. eexists. split; [|split].
      * cbv [afterDeletes fold_left]. rewrite E. reflexivity.
      * simpl. rewrite Hsplit. reflexivity.
      * destruct err as [e|].
        -- destruct Hres as (ok & d' & Hd & Hr). exists (d :: ok), d'.
           split; [rewrite Hd; reflexivity|]. simpl. rewrite Hr. reflexivity.
        -- destruct Hres as [Hr1 Hr2]. split; [exact Hr1|]. simpl. rewrite Hr2. reflexivity.
Qed.

End SweepFacts.

Section SweepClaims.

Context {Store : Type} {store : SnapStore Store}.

(** C6: the delta sweep of a snapshot stream deletes the delta snapshots from
    the newest to the oldest: the snapshots it hands to [store.Delete] are a
    prefix [done] of the reversed tail of the stream, so the head at index 0
    is never among them.  It stops at the first delete that fails and returns
    that error, every delete before it having succeeded; when none fails it
    returns [nil] after deleting all of them.  The store is left as those
    deletes left it: what was deleted before the failure stays deleted. *)
Theorem sweep_newest_first_until_first_failure (snapStream : SnapList) (s : Store) :
  exists done rest err tr,
    garbageCollectDeltaSnapshots snapStream s = (Some err, afterDeletes s done, tr) /\
    rev (tl snapStream) = done ++ rest /\
    deleteCalls tr = done /\
    match err with
    | None => rest = [] /\ deleteResults tr = map (fun d => (d, None)) done
    | Some e =>
        exists ok d, done = ok ++ [d] /\
          deleteResults tr = map (fun d => (d, None)) ok ++ [(d, Some e)]
    end.
Proof.
  destruct (sweepList_run (rev (tl snapStream)) s)
    as (done & rest & err & tr & Hrun & Hsplit & Hres).
  exists done, rest, err, tr. rewrite sweep_sweepList. repeat split; auto.
  rewrite deleteCalls_results. destruct err as [e|].
  - destruct Hres as (ok & d & -> & ->).
    rewrite !map_app, map_map. simpl. rewrite map_id. reflexivity.
  - destruct Hres as [_ ->]. rewrite map_map. simpl. apply map_id.
Qed.

End SweepClaims.

(** ** A pass whose listing fails, and a pass over an empty store *)

Section PassClaims.

Context {Store : Type} {store : SnapStore Store}.

(** C8: when [store.List] returns an error the pass logs that it starts,
    logs one warning with the error and ends: it calls [store.Delete] not
    once and neither partitions nor runs a policy, whichever is set. *)
Theorem list_failure_skips_pass (ssr : Snapshotter) (now : time.Time)
    (s s' : Store) (e : Error) :
  List s = (s', inr e) ->
  exists tr,
    gcPass ssr now s = (Some tt, s', tr) /\
    tr = [EvLog Info "GC: Executing garbage collection..." []; EvList (Some e);
          EvLog Warn "GC: Failed to list snapshots: %v" [ArgErr e]] /\
    deleteCalls tr = [] /\
    List.length (warnings tr) = 1%nat.
Proof.
  intros HL. eexists. split; [|split; [reflexivity|split; reflexivity]].
  cbv [gcPass bind logf tell storeList]. rewrite HL. reflexivity.
Qed.

(** C7, as the code has it: the stream index list of an empty snapshot list
    is [[0]], not empty, and a pass over an empty listing calls
    [store.Delete] not once, whichever policy is set. *)
Theorem empty_list_no_deletes (ssr : Snapshotter) (now : time.Time) (s s' : Store) :
  List s = (s', inl []) ->
  snapStreamIndexList [] = [0%nat] /\
  exists tr,
    gcPass ssr now s = (Some tt, s', tr) /\
    tr = [EvLog Info "GC: Executing garbage collection..." []; EvList None] /\
    deleteCalls tr = [].
Proof.
  intros HL. split; [reflexivity|]. eexists. split; [|split; reflexivity].
  cbv [gcPass bind logf tell storeList]. rewrite HL.
  cbv [collect]. cbn [snapStreamIndexList skipn appendFullIndexes].
  destruct (String.eqb _ GarbageCollectionPolicyExponential);
    [reflexivity|].
  destruct (String.eqb _ GarbageCollectionPolicyLimitBased); reflexivity.
Qed.

End PassClaims.

(** C7 as stated fails: the stream index list of the empty list is not
    empty. *)
Lemma empty_list_index_list_not_empty : snapStreamIndexList [] <> [].
Proof. discriminate. Qed.

Lemma delta_sweep_runs_newest_first :
  deletedNames
    (match garbageCollectDeltaSnapshots
             [full (at_ 100 8 0) "a"; delta (at_ 100 8 10) "a1"; delta (at_ 100 8 20) "a2"]
             (holding [full (at_ 100 8 0) "a"; delta (at_ 100 8 10) "a1";
                       delta (at_ 100 8 20) "a2"])
     with (_, s, tr) => (Some tt, s, tr) end)
  = ["a2"; "a1"]%string.
Proof. vm_compute. reflexivity. Qed.

Lemma list_failure_skips_pass_witness :
  exists tr,
    gcPass (limitBased 1) (at_ 100 10 30)
      (memstore.mk [full (at_ 100 8 0) "a"; full (at_ 100 9 0) "b"] (Some "timeout"%string) [])
    = (Some tt,
       memstore.mk [full (at_ 100 8 0) "a"; full (at_ 100 9 0) "b"] (Some "timeout"%string) [],
       tr) /\
    tr = [EvLog Info "GC: Executing garbage collection..." []; EvList (Some "timeout"%string);
          EvLog Warn "GC: Failed to list snapshots: %v" [ArgErr "timeout"%string]] /\
    deleteCalls tr = [] /\
    List.length (warnings tr) = 1%nat.
Proof.
  apply (list_failure_skips_pass (limitBased 1) (at_ 100 10 30)
           (memstore.mk [full (at_ 100 8 0) "a"; full (at_ 100 9 0) "b"]
              (Some "timeout"%string) [])).
  reflexivity.
Defined.

Lemma empty_list_no_deletes_witness :
  snapStreamIndexList [] = [0%nat] /\
  exists tr,
    gcPass exponential (at_ 100 10 30) (holding []) = (Some tt, holding [], tr) /\
    tr = [EvLog Info "GC: Executing garbage collection..." []; EvList None] /\
    deleteCalls tr = [].
Proof.
  apply (empty_list_no_deletes exponential (at_ 100 10 30) (holding [])).
  reflexivity.
Defined.

(** ** Streams *)

Lemma appendFullIndexes_offsets (rest : SnapList) (k : nat) (acc : list nat) :
  appendFullIndexes rest k acc
  = acc ++ offsets (k + List.length (fst (cutStreams rest))) (snd (cutStreams rest)).
Proof.
  revert k acc. induction rest as [|s rest IH]; intros k acc; simpl.
  - rewrite app_nil_r. reflexivity.
  - rewrite IH. destruct (cutStreams rest) as [cur later]. simpl.
    destruct (isFull s); simpl.
    + rewrite <- app_assoc. simpl. repeat f_equal; lia.
    + repeat f_equal; lia.
Qed.

Lemma snapStreamIndexList_offsets (snapList : SnapList) :
  snapStreamIndexList snapList = offsets 0 (snapStreams snapList).
Proof.
  destruct snapList as [|s rest]; [reflexivity|].
  unfold snapStreamIndexList, snapStreams. cbn [skipn].
  rewrite appendFullIndexes_offsets.
  destruct (cutStreams rest) as [cur later]. simpl. reflexivity.
Qed.

Lemma cutStreams_concat (rest : SnapList) :
  fst (cutStreams rest) ++ List.concat (snd (cutStreams rest)) = rest.
Proof.
  induction rest as [|s rest IH]; simpl; [reflexivity|].
  destruct (cutStreams rest) as [cur later]. simpl in *.
  destruct (isFull s); simpl; rewrite IH; reflexivity.
Qed.

Lemma cutStreams_nonempty (rest : SnapList) :
  Forall (fun x => x <> []) (snd (cutStreams rest)).
Proof.
  induction rest as [|s rest IH]; simpl; [constructor|].
  destruct (cutStreams rest) as [cur later]. simpl in *.
  destruct (isFull s); simpl; [constructor; [discriminate|exact IH] | exact IH].
Qed.

Lemma snapStreams_concat (snapList : SnapList) : List.concat (snapStreams snapList) = snapList.
Proof.
  destruct snapList as [|s rest]; [reflexivity|].
  unfold snapStreams. pose proof (cutStreams_concat rest) as H.
  destruct (cutStreams rest) as [cur later]. simpl in *. rewrite H. reflexivity.
Qed.

Lemma snapStreams_nonempty (snapList : SnapList) :
  snapList <> [] -> Forall (fun x => x <> []) (snapStreams snapList).
Proof.
  destruct snapList as [|s rest]; [congruence|]. intros _.
  unfold snapStreams. pose proof (cutStreams_nonempty rest) as H.
  destruct (cutStreams rest) as [cur later]. simpl in *.
  constructor; [discriminate|exact H].
Qed.

Lemma snapStreams_not_nil (snapList : SnapList) : snapStreams snapList <> [].
Proof.
  destruct snapList as [|s rest]; [discriminate|].
  unfold snapStreams. destruct (cutStreams rest); discriminate.
Qed.

Lemma offsets_length (k : nat) (streams : list SnapList) :
  List.length (offsets k streams) = List.length streams.
Proof. revert k; induction streams; intros k; simpl; auto. Qed.

Lemma offsets_app (k : nat) (pre post : list SnapList) :
  offsets k (pre ++ post) = offsets k pre ++ offsets (k + List.length (List.concat pre)) post.
Proof.
  revert k; induction pre as [|x pre IH]; intros k; simpl.
  - rewrite Nat.add_0_r. reflexivity.
  - rewrite IH, length_app. f_equal. f_equal. f_equal. lia.
Qed.

Lemma offsets_nth (k : nat) (pre post : list SnapList) (x : SnapList) :
  nth_error (offsets k (pre ++ x :: post)) (List.length pre)
  = Some (k + List.length (List.concat pre))%nat.
Proof.
  rewrite offsets_app, nth_error_app2 by (rewrite offsets_length; lia).
  rewrite offsets_length, Nat.sub_diag. reflexivity.
Qed.

Lemma offsets_nth_next (k : nat) (pre post : list SnapList) (x y : SnapList) :
  nth_error (offsets k (pre ++ x :: y :: post)) (List.length pre + 1)
  = Some (k + List.length (List.concat pre) + List.length x)%nat.
Proof.
  replace (pre ++ x :: y :: post) with ((pre ++ [x]) ++ y :: post)
    by (rewrite <- app_assoc; reflexivity).
  replace (List.length pre + 1)%nat with (List.length (pre ++ [x]))
    by (rewrite length_app; reflexivity).
  rewrite offsets_nth, concat_app, length_app. simpl. rewrite app_nil_r.
  f_equal. lia.
Qed.

Lemma concat_slice (pre post : list SnapList) (x : SnapList) :
  firstn (List.length x) (skipn (List.length (List.concat pre)) (List.concat (pre ++ x :: post))) = x.
Proof.
  rewrite concat_app. simpl.
  rewrite skipn_app, skipn_all, Nat.sub_diag. simpl.
  rewrite firstn_app, firstn_all, Nat.sub_diag. simpl. apply app_nil_r.
Qed.

Lemma concat_head (pre post : list SnapList) (h : Snapshot) (deltas : SnapList) :
  nth_error (List.concat (pre ++ (h :: deltas) :: post)) (List.length (List.concat pre)) = Some h.
Proof.
  rewrite concat_app, nth_error_app2, Nat.sub_diag by lia. reflexivity.
Qed.

(** ** The policy loops, round by round *)

Section LoopFacts.

Context {Store : Type} {store : SnapStore Store}.

Lemma sweep_run (h : Snapshot) (deltas : SnapList) (s : Store) :
  exists err s' tr,
    garbageCollectDeltaSnapshots (h :: deltas) s = (Some err, s', tr) /\
    match err with
    | None => deleteResults tr = succeeded (rev deltas)
    | Some e =>
        exists ok d rest, rev deltas = ok ++ d :: rest /\
          deleteResults tr = succeeded ok ++ [(d, Some e)]
    end.
Proof.
  destruct (sweepList_run (rev deltas) s) as (done & rest & err & tr & Hrun & Hsplit & Hres).
  exists err, (afterDeletes s done), tr. rewrite sweep_sweepList. split; [exact Hrun|].
  destruct err as [e|].
  - destruct Hres as (ok & d & -> & Hr). exists ok, d, rest.
    rewrite Hsplit, <- app_assoc. split; [reflexivity|exact Hr].
  - destruct Hres as [-> Hr]. rewrite app_nil_r in Hsplit. rewrite Hsplit. exact Hr.
Qed.

Lemma limitRound_run (maxBackups : Z) (pre post : list SnapList)
    (h : Snapshot) (deltas y : SnapList) (s : Store) :
  let streams := pre ++ (h :: deltas) :: y :: post in
  let v := limitOnOk (List.length (offsets 0 streams)) maxBackups (List.length pre) h in
  exists s' tr,
    limitRound maxBackups (List.concat streams) (offsets 0 streams) (List.length pre) s
    = (Some tt, s', tr) /\
    ((exists ok d rest e, rev deltas = ok ++ d :: rest /\
        deleteResults tr = succeeded ok ++ [(d, Some e)]) \/
     (snd v = false /\ deleteResults tr = succeeded (rev deltas)) \/
     (snd v = true /\ exists r, deleteResults tr = succeeded (rev deltas) ++ [(h, r)])).
Proof.
  intros streams v. unfold limitRound.
  rewrite bind_index with (a := (0 + List.length (List.concat pre))%nat)
    by apply offsets_nth.
  rewrite bind_index
    with (a := (0 + List.length (List.concat pre) + List.length (h :: deltas))%nat)
    by apply offsets_nth_next.
  rewrite bind_slice.
  2: lia.
  2: { unfold streams. rewrite concat_app, length_app. simpl. rewrite length_app. simpl. lia. }
  replace (0 + List.length (List.concat pre) + List.length (h :: deltas)
           - (0 + List.length (List.concat pre)))%nat
    with (List.length (h :: deltas)) by lia.
  cbn [Nat.add]. unfold streams at 1. rewrite concat_slice.
  destruct (sweep_run h deltas s) as (err & s1 & t1 & Hrun & Hres).
  unfold bind at 1. rewrite Hrun. destruct err as [e|].
  - cbv [ret]. eexists _, _. split; [reflexivity|]. left.
    destruct Hres as (ok & d & rest & H1 & H2). exists ok, d, rest, e.
    rewrite app_nil_r. auto.
  - unfold v, limitOnOk. cbn [snd].
    destruct (Z.of_nat (List.length pre) <? _) eqn:Hlt.
    + unfold streams. rewrite bind_index with (a := h) by apply concat_head.
      cbv [bind logf tell storeDelete ret].
      destruct (Delete s1 h) as [s2 [e|]].
      * eexists _, _. split; [reflexivity|]. right; right. split; [reflexivity|].
        exists (Some e). rewrite deleteResults_app, Hres. reflexivity.
      * eexists _, _. split; [reflexivity|]. right; right. split; [reflexivity|].
        exists None. rewrite deleteResults_app, Hres. reflexivity.
    + cbv [ret]. eexists _, _. split; [reflexivity|]. right; left.
      rewrite app_nil_r. auto.
Qed.

Lemma limitLoop_rounds (maxBackups : Z) (todo : list SnapList) :
  forall (pre : list SnapList) (last : SnapList) (s : Store),
    Forall (fun x => x <> []) todo ->
    let streams := pre ++ todo ++ [last] in
    exists s' tr calls,
      limitLoop (List.length todo) maxBackups (List.concat streams) (offsets 0 streams)
        (List.length pre) s = (Some tt, s', tr) /\
      deleteResults tr = List.concat calls /\
      Rounds nat limitOnFail (limitOnOk (List.length (offsets 0 streams)) maxBackups)
        (List.length pre) todo calls (List.length pre + List.length todo)%nat.
Proof.
  induction todo as [|x todo IH]; intros pre last s Hne streams.
  - exists s, [], []. split; [reflexivity|]. split; [reflexivity|].
    simpl. rewrite Nat.add_0_r. constructor.
  - inversion Hne as [|? ? Hx Hne']; subst.
    destruct x as [|h deltas]; [congruence|].
    unfold streams; clear streams.
    cbn [limitLoop List.length app].
    pose proof (IH (pre ++ [h :: deltas]) last) as IH'.
    rewrite <- app_assoc in IH'. cbn [app] in IH'.
    destruct (todo ++ [last]) as [|y post] eqn:Hy;
      [destruct todo; discriminate|].
    destruct (limitRound_run maxBackups pre post h deltas y s) as (s1 & t1 & Hrun & Hres).
    destruct (IH' s1 Hne') as (s2 & t2 & calls & Hrun2 & Hd2 & HR).
    rewrite length_app in Hrun2, HR. cbn [List.length] in Hrun2, HR.
    replace (List.length pre + 1)%nat with (S (List.length pre)) in Hrun2, HR by lia.
    exists s2, (t1 ++ t2), (deleteResults t1 :: calls).
    split; [unfold bind; rewrite Hrun, Hrun2; reflexivity|]. split; [rewrite deleteResults_app, Hd2; reflexivity|].
    replace (List.length pre + S (List.length todo))%nat
      with (S (List.length pre) + List.length todo)%nat by lia.
    eapply RoundsStep; [|exact HR].
    destruct Hres as [(ok & d & rest & e & H1 & ->)|[[Hv ->]|[Hv [r ->]]]].
    + apply (RoundSweepFailed nat limitOnFail _ _ h deltas ok d rest e H1).
    + apply (RoundKeep nat limitOnFail _ _ h deltas Hv).
    + apply (RoundDelete nat limitOnFail _ _ h deltas r Hv).
Qed.

End LoopFacts.

(** ** Rounds: what any policy loop calls *)

Lemma succeeded_fst (snaps : list Snapshot) : map fst (succeeded snaps) = snaps.
Proof. unfold succeeded. rewrite map_map. simpl. apply map_id. Qed.

Lemma In_succeeded (snaps : list Snapshot) (d : Snapshot) (r : option Error) :
  In (d, r) (succeeded snaps) <-> In d snaps /\ r = None.
Proof.
  unfold succeeded. rewrite in_map_iff. split.
  - intros (x & E & Hx). inversion E; subst. auto.
  - intros [H ->]. exists d. auto.
Qed.

Lemma app_eq_mid_left {A} (l1 l2 pre post : list A) (a : A) :
  l1 ++ l2 = pre ++ a :: post -> ~ In a l2 ->
  exists m, l1 = pre ++ a :: m /\ post = m ++ l2.
Proof.
  revert pre. induction l1 as [|x l1 IH]; intros pre E Hn; simpl in E.
  - exfalso. apply Hn. rewrite E. apply in_elt.
  - destruct pre as [|p pre]; simpl in E; inversion E; subst.
    + exists l1. auto.
    + destruct (IH pre H1 Hn) as (m & -> & ->). exists m. auto.
Qed.

Lemma app_eq_mid_right {A} (l1 l2 pre post : list A) (a : A) :
  l1 ++ l2 = pre ++ a :: post -> ~ In a l1 ->
  exists m, pre = l1 ++ m /\ l2 = m ++ a :: post.
Proof.
  revert pre. induction l1 as [|x l1 IH]; intros pre E Hn; simpl in E.
  - exists pre. auto.
  - destruct pre as [|p pre]; simpl in E; inversion E; subst.
    + exfalso. apply Hn. left. reflexivity.
    + destruct (IH pre H1) as (m & -> & ->); [intros H; apply Hn; right; exact H|].
      exists m. auto.
Qed.

Lemma NoDup_concat_cons (x : SnapList) (streams : list SnapList) :
  NoDup (List.concat (x :: streams)) ->
  NoDup x /\ NoDup (List.concat streams) /\
  (forall a, In a x -> ~ In a (List.concat streams)).
Proof.
  simpl. intros H. split; [|split].
  - eapply NoDup_app_remove_r; eauto.
  - eapply NoDup_app_remove_l; eauto.
  - intros a Ha Hb. revert H Ha Hb. generalize (List.concat streams) as l. clear.
    induction x as [|y x IH]; intros l H Ha Hb; [destruct Ha|].
    simpl in H. inversion H; subst. destruct Ha as [->|Ha].
    + apply H2. apply in_or_app. auto.
    + eapply IH; eauto.
Qed.

Section RoundsFacts.

Variable V : Type.
Variable onFail : V -> V.
Variable onOk : V -> Snapshot -> V * bool.

Lemma round_calls_incl v x c v' :
  Round V onFail onOk v x c v' ->
  forall snap, In snap (map fst c) -> In snap x.
Proof.
  intros [v0 h deltas ok d rest e E|v0 h deltas Hd|v0 h deltas r Hd] snap;
    rewrite ?map_app, ?in_app_iff, ?succeeded_fst; simpl.
  - intros [H|[<-|[]]]; right; apply in_rev; rewrite E.
    + apply in_or_app. auto.
    + apply in_elt.
  - intros H. right. apply in_rev. exact H.
  - intros [H|[<-|[]]]; [right; apply in_rev; exact H | left; reflexivity].
Qed.

Lemma round_calls_NoDup v x c v' :
  Round V onFail onOk v x c v' -> NoDup x -> NoDup (map fst c).
Proof.
  intros [v0 h deltas ok d rest e E|v0 h deltas Hd|v0 h deltas r Hd] Hx;
    inversion Hx as [|? ? Hh Hds]; subst; apply NoDup_rev in Hds;
    rewrite ?map_app, ?succeeded_fst; simpl.
  - rewrite E in Hds.
    replace (ok ++ d :: rest) with ((ok ++ [d]) ++ rest) in Hds
      by (rewrite <- app_assoc; reflexivity).
    eapply NoDup_app_remove_r; eauto.
  - exact Hds.
  - apply NoDup_app; [exact Hds | constructor; [intros []|constructor] |].
    intros a Ha [<-|[]]. apply Hh. apply in_rev. exact Ha.
Qed.

Lemma rounds_calls_incl v streams calls v' :
  Rounds V onFail onOk v streams calls v' ->
  forall snap, In snap (map fst (List.concat calls)) -> In snap (List.concat streams).
Proof.
  induction 1 as [v|v x c v1 streams calls v' HR _ IH]; intros snap; simpl; [tauto|].
  rewrite map_app, !in_app_iff. intros [H|H].
  - left. eapply round_calls_incl; eauto.
  - right. auto.
Qed.

Lemma rounds_calls_NoDup v streams calls v' :
  Rounds V onFail onOk v streams calls v' ->
  NoDup (List.concat streams) -> NoDup (map fst (List.concat calls)).
Proof.
  induction 1 as [v|v x c v1 streams calls v' HR HRs IH]; intros HN; [constructor|].
  destruct (NoDup_concat_cons _ _ HN) as (Hx & Hs & Hdis).
  simpl. rewrite map_app. apply NoDup_app.
  - eapply round_calls_NoDup; eauto.
  - auto.
  - intros a Ha Hb. apply (Hdis a).
    + eapply round_calls_incl; eauto.
    + eapply rounds_calls_incl; eauto.
Qed.

End RoundsFacts.

(** ** The exponential loop, round by round *)

Lemma weekLoop_logs n now snap st : deleteResults (snd (weekLoop n now snap st)) = [].
Proof.
  revert st. induction n as [|n IH]; intros st; simpl; [reflexivity|].
  destruct (_ =? 0); [destruct (_ =? -1); reflexivity|].
  destruct (_ >? 0); [apply IH|reflexivity].
Qed.

Lemma caseWeek_logs now snap st : deleteResults (snd (caseWeek now snap st)) = [].
Proof.
  unfold caseWeek.
  pose proof (weekLoop_logs (Z.to_nat (backupCount st + 1)) now snap st) as H.
  destruct (weekLoop _ now snap st) as [st1 l1]. simpl in H.
  destruct (_ >=? 0); [exact H|].
  destruct (BackupMode_eqb _ _); [exact H|].
  simpl. rewrite deleteResults_app, H. reflexivity.
Qed.

Lemma dayLoop_logs n now snap st : deleteResults (snd (dayLoop n now snap st)) = [].
Proof.
  revert st. induction n as [|n IH]; intros st; simpl; [reflexivity|].
  destruct (_ =? 0); [destruct (_ =? -1); reflexivity|].
  destruct (_ >? 0); [apply IH|reflexivity].
Qed.

Lemma caseDay_logs now snap st : deleteResults (snd (caseDay now snap st)) = [].
Proof.
  unfold caseDay.
  pose proof (dayLoop_logs (Z.to_nat (backupCount st + 1)) now snap st) as H.
  destruct (dayLoop _ now snap st) as [st1 l1]. simpl in H.
  destruct (_ >=? 0); [exact H|].
  destruct (BackupMode_eqb _ _); [exact H|].
  pose proof (caseWeek_logs now snap
                (mkExpState (deleteSnap st1) ModeWeek (weekModeLimit - 1))) as H2.
  destruct (caseWeek _ _ _) as [st2 l2]. simpl in *.
  rewrite deleteResults_app, H. simpl. exact H2.
Qed.

Lemma hourLoop_logs n now snap st : deleteResults (snd (hourLoop n now snap st)) = [].
Proof.
  revert st. induction n as [|n IH]; intros st; simpl; [reflexivity|].
  destruct (_ =? 0); [destruct (_ =? -1); reflexivity|].
  destruct (_ >? 0); [apply IH|reflexivity].
Qed.

Lemma caseHour_logs now snap st : deleteResults (snd (caseHour now snap st)) = [].
Proof.
  unfold caseHour.
  pose proof (hourLoop_logs (Z.to_nat (backupCount st + 1)) now snap st) as H.
  destruct (hourLoop _ now snap st) as [st1 l1]. simpl in H.
  destruct (_ >=? 0); [exact H|].
  destruct (BackupMode_eqb _ _); [exact H|].
  pose proof (caseDay_logs now snap
                (mkExpState (deleteSnap st1) ModeDay (dayModeLimit - 1))) as H2.
  destruct (caseDay _ _ _) as [st2 l2]. simpl in *.
  rewrite deleteResults_app, H. simpl. exact H2.
Qed.

Lemma switchBackupMode_logs now snap st :
  deleteResults (snd (switchBackupMode now snap st)) = [].
Proof.
  unfold switchBackupMode. destruct (backupMode st).
  - unfold caseNone. destruct (time.Equal _ _); [reflexivity|].
    pose proof (caseHour_logs now snap (mkExpState false ModeHour (hourModeLimit - 1))) as H.
    destruct (caseHour _ _ _) as [st2 l2]. simpl in *. exact H.
  - apply caseHour_logs.
  - apply caseDay_logs.
  - apply caseWeek_logs.
  - reflexivity.
Qed.

Section ExpLoopFacts.

Context {Store : Type} {store : SnapStore Store}.

Lemma exponentialRound_run (now : time.Time) (pre post : list SnapList)
    (h : Snapshot) (deltas y : SnapList) (st : ExpState) (s : Store) :
  exists st' s' tr,
    exponentialRound now (List.concat (pre ++ (h :: deltas) :: y :: post))
      (offsets 0 (pre ++ (h :: deltas) :: y :: post)) (List.length pre) st s
    = (Some st', s', tr) /\
    ((exists ok d rest e, rev deltas = ok ++ d :: rest /\
        deleteResults tr = succeeded ok ++ [(d, Some e)] /\ st' = expOnFail st) \/
     (snd (expOnOk now st h) = false /\ deleteResults tr = succeeded (rev deltas) /\
        st' = fst (expOnOk now st h)) \/
     (snd (expOnOk now st h) = true /\
        (exists r, deleteResults tr = succeeded (rev deltas) ++ [(h, r)]) /\
        st' = fst (expOnOk now st h))).
Proof.
  unfold exponentialRound.
  rewrite bind_index with (a := (0 + List.length (List.concat pre))%nat)
    by apply offsets_nth.
  cbn [Nat.add]. rewrite bind_index with (a := h) by apply concat_head.
  rewrite bind_index
    with (a := (0 + List.length (List.concat pre) + List.length (h :: deltas))%nat)
    by apply offsets_nth_next.
  rewrite bind_slice.
  2: lia.
  2: { rewrite concat_app, length_app. simpl. rewrite length_app. simpl. lia. }
  replace (0 + List.length (List.concat pre) + List.length (h :: deltas)
           - List.length (List.concat pre))%nat
    with (List.length (h :: deltas)) by lia.
  rewrite concat_slice.
  destruct (sweep_run h deltas s) as (err & s1 & t1 & Hrun & Hres).
  unfold bind at 1. rewrite Hrun. destruct err as [e|].
  - cbv [ret]. eexists _, _, _. split; [reflexivity|]. left.
    destruct Hres as (ok & d & rest & H1 & H2). exists ok, d, rest, e.
    rewrite app_nil_r. auto.
  - unfold expOnOk. cbn [fst snd].
    pose proof (switchBackupMode_logs now h st) as Hlogs.
    destruct (switchBackupMode now h st) as [st1 logs]. cbn [fst snd] in *.
    destruct (deleteSnap st1) eqn:Hdel.
    + cbv [bind logf tell storeDelete ret].
      destruct (Delete s1 h) as [s2 [e|]].
      * eexists _, _, _. split; [reflexivity|]. right; right. split; [reflexivity|].
        split; [|reflexivity]. exists (Some e).
        rewrite !deleteResults_app, Hres, Hlogs. reflexivity.
      * eexists _, _, _. split; [reflexivity|]. right; right. split; [reflexivity|].
        split; [|reflexivity]. exists None.
        rewrite !deleteResults_app, Hres, Hlogs. reflexivity.
    + cbv [bind tell ret]. eexists _, _, _. split; [reflexivity|]. right; left.
      split; [reflexivity|]. split; [|reflexivity].
      rewrite !deleteResults_app, Hres, Hlogs. simpl. apply app_nil_r.
Qed.

Lemma exponentialLoop_rounds (now : time.Time) (front : list SnapList) :
  forall (y : SnapList) (post : list SnapList) (st : ExpState) (s : Store),
    Forall (fun x => x <> []) front ->
    exists st' s' tr calls,
      exponentialLoop (List.length front) now (List.concat (front ++ y :: post))
        (offsets 0 (front ++ y :: post)) st s = (Some st', s', tr) /\
      deleteResults tr = List.concat calls /\
      Rounds ExpState expOnFail (expOnOk now) st (rev front) calls st'.
Proof.
  induction front as [|x front IH] using rev_ind; intros y post st s Hne.
  - exists st, s, [], []. split; [reflexivity|]. split; [reflexivity|]. constructor.
  - apply Forall_app in Hne. destruct Hne as [Hne Hx].
    inversion Hx as [|? ? Hx' _]; subst.
    destruct x as [|h deltas]; [congruence|].
    rewrite length_app, Nat.add_1_r, rev_app_distr, <- app_assoc.
    cbn [exponentialLoop app rev].
    destruct (exponentialRound_run now front post h deltas y st s)
      as (st1 & s1 & t1 & Hrun & Hres).
    destruct (IH (h :: deltas) (y :: post) st1 s1 Hne)
      as (st2 & s2 & t2 & calls & Hrun2 & Hd2 & HR).
    exists st2, s2, (t1 ++ t2), (deleteResults t1 :: calls).
    split; [unfold bind; rewrite Hrun, Hrun2; reflexivity|].
    split; [rewrite deleteResults_app, Hd2; reflexivity|].
    eapply RoundsStep; [|exact HR].
    destruct Hres as [(ok & d & rest & e & H1 & -> & ->)
                     |[(Hv & -> & ->)|(Hv & [r ->] & ->)]].
    + apply (RoundSweepFailed ExpState expOnFail _ _ h deltas ok d rest e H1).
    + apply (RoundKeep ExpState expOnFail _ _ h deltas Hv).
    + apply (RoundDelete ExpState expOnFail _ _ h deltas r Hv).
Qed.

End ExpLoopFacts.

(** ** A pass over a listed store *)

Lemma split_two {A} (l : list A) (i : nat) :
  (S i < List.length l)%nat ->
  exists pre x y post, l = pre ++ x :: y :: post /\ List.length pre = i.
Proof.
  intros Hi. destruct (nth_error l i) as [x|] eqn:E;
    [|apply nth_error_None in E; lia].
  destruct (nth_error_split _ _ E) as (pre & rest & -> & Hl).
  destruct rest as [|y post].
  - rewrite length_app in Hi. simpl in Hi. lia.
  - exists pre, x, y, post. auto.
Qed.

Lemma stream_at (snapList : SnapList) (i lo hi : nat) :
  nth_error (snapStreamIndexList snapList) i = Some lo ->
  nth_error (snapStreamIndexList snapList) (S i) = Some hi ->
  exists pre x y post,
    snapStreams snapList = pre ++ x :: y :: post /\ List.length pre = i /\
    lo = List.length (List.concat pre) /\
    firstn (hi - lo) (skipn lo snapList) = x.
Proof.
  rewrite snapStreamIndexList_offsets. intros Hlo Hhi.
  assert (Hi : (S i < List.length (snapStreams snapList))%nat).
  { rewrite <- (offsets_length 0). apply nth_error_Some. congruence. }
  destruct (split_two _ _ Hi) as (pre & x & y & post & E & Hl).
  exists pre, x, y, post. rewrite E in Hlo, Hhi. subst i.
  rewrite offsets_nth in Hlo. replace (S (List.length pre)) with (List.length pre + 1)%nat in Hhi by lia.
  rewrite offsets_nth_next in Hhi. inversion Hlo; inversion Hhi; subst.
  repeat split; auto.
  replace (List.length (List.concat pre) + List.length x
           - List.length (List.concat pre))%nat with (List.length x) by lia.
  rewrite <- (snapStreams_concat snapList) at 1. rewrite E. apply concat_slice.
Qed.

Lemma in_removelast_mid {A} (pre post : list A) (x y : A) :
  In x (removelast (pre ++ x :: y :: post)).
Proof.
  rewrite removelast_app by discriminate. apply in_or_app. right.
  simpl. left. reflexivity.
Qed.

Lemma in_removelast {A} (l : list A) (x : A) : In x (removelast l) -> In x l.
Proof.
  induction l as [|z l IH]; simpl; [tauto|].
  destruct l; [intros []|]. intros [->|Hx]; [left; reflexivity|right; apply IH; exact Hx].
Qed.

Lemma removelast_nonempty (snapList : SnapList) :
  Forall (fun x => x <> []) (removelast (snapStreams snapList)).
Proof.
  destruct snapList as [|a l]; [constructor|].
  pose proof (snapStreams_nonempty (a :: l)) as H.
  assert (Hn : a :: l <> []) by discriminate. specialize (H Hn).
  rewrite Forall_forall in *. intros x Hx. apply H. apply in_removelast. exact Hx.
Qed.

Lemma snapStreams_split_last (snapList : SnapList) :
  snapStreams snapList
  = removelast (snapStreams snapList) ++ [last (snapStreams snapList) []].
Proof. apply app_removelast_last. apply snapStreams_not_nil. Qed.

Section PassFacts.

Context {Store : Type} {store : SnapStore Store}.

Lemma gcPass_listed (ssr : Snapshotter) (now : time.Time) (s s1 : Store) (l : SnapList) :
  List s = (s1, inl l) ->
  gcPass ssr now s
  = (let '(r, s', t) := collect ssr now l s1 in
     (r, s', EvLog Info "GC: Executing garbage collection..." [] :: EvList None :: t)).
Proof.
  intros HL. cbv [gcPass bind logf tell storeList]. rewrite HL.
  destruct (collect ssr now l s1) as [[r s'] t]. reflexivity.
Qed.

Lemma limit_pass_rounds (ssr : Snapshotter) (now : time.Time) (s s1 : Store) (l : SnapList) :
  garbageCollectionPolicy ssr = GarbageCollectionPolicyLimitBased ->
  List s = (s1, inl l) ->
  exists s' tr calls v',
    gcPass ssr now s = (Some tt, s', tr) /\
    deleteResults tr = List.concat calls /\
    Rounds nat limitOnFail
      (limitOnOk (List.length (snapStreamIndexList l)) (maxBackups ssr))
      0%nat (removelast (snapStreams l)) calls v'.
Proof.
  intros Hp HL. rewrite (gcPass_listed _ _ _ _ _ HL).
  unfold collect. rewrite Hp. cbn [String.eqb GarbageCollectionPolicyLimitBased
    GarbageCollectionPolicyExponential Ascii.eqb Bool.eqb].
  unfold gcLimitBased. rewrite snapStreamIndexList_offsets, offsets_length.
  destruct (limitLoop_rounds (maxBackups ssr) (removelast (snapStreams l)) []
              (last (snapStreams l) []) s1 (removelast_nonempty l))
    as (s' & tr & calls & Hrun & Hd & HR).
  cbn [app List.length] in Hrun, HR. rewrite <- snapStreams_split_last in Hrun, HR.
  rewrite snapStreams_concat in Hrun.
  assert (Hlen : (List.length (snapStreams l) - 1
                  = List.length (removelast (snapStreams l)))%nat).
  { rewrite (snapStreams_split_last l) at 1. rewrite length_app. simpl. lia. }
  rewrite Hlen, Hrun. rewrite offsets_length in HR.
  exists s', (EvLog Info "GC: Executing garbage collection..." [] :: EvList None :: tr),
    calls. eexists. split; [reflexivity|]. split; [exact Hd|exact HR].
Qed.

Lemma exponential_pass_rounds (ssr : Snapshotter) (now : time.Time) (s s1 : Store)
    (l : SnapList) :
  garbageCollectionPolicy ssr = GarbageCollectionPolicyExponential ->
  List s = (s1, inl l) ->
  exists s' tr calls st',
    gcPass ssr now s = (Some tt, s', tr) /\
    deleteResults tr = List.concat calls /\
    Rounds ExpState expOnFail (expOnOk now) initExpState
      (rev (removelast (snapStreams l))) calls st'.
Proof.
  intros Hp HL. rewrite (gcPass_listed _ _ _ _ _ HL).
  unfold collect. rewrite Hp. cbn [String.eqb GarbageCollectionPolicyLimitBased
    GarbageCollectionPolicyExponential Ascii.eqb Bool.eqb].
  unfold gcExponential. rewrite snapStreamIndexList_offsets, offsets_length.
  destruct (exponentialLoop_rounds now (removelast (snapStreams l))
              (last (snapStreams l) []) [] initExpState s1 (removelast_nonempty l))
    as (st' & s' & tr & calls & Hrun & Hd & HR).
  rewrite <- snapStreams_split_last in Hrun. rewrite snapStreams_concat in Hrun.
  assert (Hlen : (List.length (snapStreams l) - 1
                  = List.length (removelast (snapStreams l)))%nat).
  { rewrite (snapStreams_split_last l) at 1. rewrite length_app. simpl. lia. }
  rewrite Hlen. unfold bind. rewrite Hrun. cbv [ret].
  exists s', (EvLog Info "GC: Executing garbage collection..." [] :: EvList None :: tr ++ []),
    calls, st'. split; [reflexivity|]. split; [|exact HR].
  simpl. rewrite app_nil_r. exact Hd.
Qed.

End PassFacts.

(** ** A head goes only after its deltas *)

Lemma rev_last_first {A} (l : list A) (x : A) :
  l <> [] -> exists rest, rev l = last l x :: rest.
Proof.
  intros Hl. destruct (exists_last Hl) as (l' & a & ->).
  rewrite rev_app_distr, last_last. simpl. eauto.
Qed.

Section RoundsOrder.

Variable V : Type.
Variable onFail : V -> V.
Variable onOk : V -> Snapshot -> V * bool.

Lemma round_head_after_deltas v h deltas c v' :
  Round V onFail onOk v (h :: deltas) c v' -> NoDup (h :: deltas) ->
  forall pre res post, c = pre ++ (h, res) :: post ->
  forall d, In d deltas -> In (d, None) pre.
Proof.
  intros HR Hx pre res post E d Hd.
  inversion Hx as [|? ? Hh Hds]; subst.
  assert (Hnot : forall l, (forall a, In a l -> In a (rev deltas)) ->
                           ~ In (h, res) (succeeded l)).
  { intros l Hl Hin. apply In_succeeded in Hin. destruct Hin as [Hin _].
    apply Hh. apply in_rev. auto. }
  inversion HR as [v0 h0 ds0 ok d0 rest e E0|v0 h0 ds0 Hdec|v0 h0 ds0 r Hdec]; subst;
    match goal with Ec : _ = pre ++ (h, res) :: post |- _ => rename Ec into Ec' end.
  - exfalso. assert (Hin : In (h, res) (succeeded ok ++ [(d0, Some e)]))
      by (rewrite Ec'; apply in_elt).
    apply in_app_or in Hin. destruct Hin as [Hin|[Hin|[]]].
    + revert Hin. apply Hnot. intros a Ha. rewrite E0. apply in_or_app. auto.
    + inversion Hin; subst. apply Hh. apply in_rev. rewrite E0. apply in_elt.
  - exfalso. assert (Hin : In (h, res) (succeeded (rev deltas)))
      by (rewrite Ec'; apply in_elt).
    revert Hin. apply Hnot. auto.
  - destruct (app_eq_mid_right _ _ _ _ _ Ec') as (m & -> & _).
    + apply Hnot. auto.
    + apply in_or_app. left. apply In_succeeded. split; [|reflexivity].
      apply -> in_rev. exact Hd.
Qed.

Lemma round_sweep_started v h deltas c v' :
  Round V onFail onOk v (h :: deltas) c v' -> deltas <> [] ->
  In (last deltas h) (map fst c).
Proof.
  intros HR Hne. destruct (rev_last_first deltas h Hne) as (tl' & Hrev).
  inversion HR as [v0 h0 ds0 ok d0 rest e E0|v0 h0 ds0 Hdec|v0 h0 ds0 r Hdec]; subst;
    rewrite ?map_app, ?succeeded_fst.
  - rewrite Hrev in E0. destruct ok as [|o ok]; simpl in E0; inversion E0; subst.
    + simpl. left. reflexivity.
    + simpl. left. reflexivity.
  - rewrite Hrev. left. reflexivity.
  - apply in_or_app. left. rewrite Hrev. left. reflexivity.
Qed.

Lemma rounds_head_after_deltas v streams calls v' :
  Rounds V onFail onOk v streams calls v' -> NoDup (List.concat streams) ->
  forall h deltas, In (h :: deltas) streams ->
  forall pre res post, List.concat calls = pre ++ (h, res) :: post ->
  forall d, In d deltas -> In (d, None) pre.
Proof.
  induction 1 as [v|v x c v1 streams calls v' HR HRs IH];
    intros HN h deltas Hin pre res post E d Hd; [destruct Hin|].
  destruct (NoDup_concat_cons _ _ HN) as (Hx & Hs & Hdis).
  simpl in E. destruct Hin as [->|Hin].
  - destruct (app_eq_mid_left _ _ _ _ _ E) as (m & Ec & _).
    + intros Hc. apply (Hdis h); [left; reflexivity|].
      eapply rounds_calls_incl; eauto. apply in_map_iff. exists (h, res). auto.
    + eapply round_head_after_deltas; eauto.
  - destruct (app_eq_mid_right _ _ _ _ _ E) as (m & -> & Ecs).
    + intros Hc. apply (Hdis h).
      * eapply round_calls_incl; eauto. apply in_map_iff. exists (h, res). auto.
      * apply in_concat. exists (h :: deltas). split; [exact Hin|left; reflexivity].
    + apply in_or_app. right. eapply IH; eauto.
Qed.

Lemma rounds_sweep_started v streams calls v' :
  Rounds V onFail onOk v streams calls v' ->
  forall h deltas, In (h :: deltas) streams -> deltas <> [] ->
  In (last deltas h) (map fst (List.concat calls)).
Proof.
  induction 1 as [v|v x c v1 streams calls v' HR HRs IH];
    intros h deltas Hin Hne; [destruct Hin|].
  simpl. rewrite map_app. apply in_or_app. destruct Hin as [->|Hin].
  - left. eapply round_sweep_started; eauto.
  - right. eapply IH; eauto.
Qed.

(** With no snapshot listed twice, a head with a delta whose delete failed
    is not deleted. *)
Lemma rounds_failed_sweep_keeps_head v streams calls v' :
  Rounds V onFail onOk v streams calls v' -> NoDup (List.concat streams) ->
  forall h deltas, In (h :: deltas) streams ->
  forall d e, In d deltas -> In (d, Some e) (List.concat calls) ->
  ~ In h (map fst (List.concat calls)).
Proof.
  intros HR HN h deltas Hin d e Hd He Hh.
  apply in_map_iff in Hh. destruct Hh as ([h' res] & Eh & Hh). simpl in Eh. subst h'.
  destruct (in_split _ _ Hh) as (pre & post & E).
  pose proof (rounds_head_after_deltas _ _ _ _ HR HN _ _ Hin _ _ _ E d Hd) as Hok.
  pose proof (rounds_calls_NoDup _ _ _ _ _ _ _ HR HN) as Hnd.
  rewrite E in He, Hnd.
  destruct (in_split _ _ Hok) as (p1 & p2 & ->).
  rewrite <- app_assoc in He, Hnd. simpl in He, Hnd.
  rewrite map_app in Hnd. simpl in Hnd. apply NoDup_remove_2 in Hnd.
  apply Hnd. apply in_app_or in He. apply in_or_app.
  destruct He as [He|[He|He]].
  - left. apply in_map_iff. exists (d, Some e). auto.
  - discriminate.
  - right. apply in_map_iff. exists (d, Some e). auto.
Qed.

End RoundsOrder.

(** ** The streams a pass works on *)

Lemma concat_rev_perm (streams : list SnapList) :
  Permutation (List.concat (rev streams)) (List.concat streams).
Proof.
  induction streams as [|x streams IH]; simpl; [constructor|].
  rewrite concat_app. simpl. rewrite app_nil_r.
  eapply Permutation_trans; [apply Permutation_app_comm|].
  apply Permutation_app_head. exact IH.
Qed.

Lemma NoDup_front (snapList : SnapList) :
  NoDup snapList -> NoDup (List.concat (removelast (snapStreams snapList))).
Proof.
  intros H. rewrite <- (snapStreams_concat snapList) in H.
  rewrite snapStreams_split_last, concat_app in H.
  eapply NoDup_app_remove_r; eauto.
Qed.

Lemma offsets_last (k : nat) (streams : list SnapList) :
  streams <> [] ->
  last (offsets k streams) 0%nat
  = (k + List.length (List.concat (removelast streams)))%nat.
Proof.
  intros Hne. rewrite (app_removelast_last [] Hne) at 1.
  rewrite offsets_app. simpl. apply last_last.
Qed.

Lemma front_firstn (snapList : SnapList) :
  List.concat (removelast (snapStreams snapList))
  = firstn (last (snapStreamIndexList snapList) 0%nat) snapList.
Proof.
  rewrite snapStreamIndexList_offsets, offsets_last by apply snapStreams_not_nil.
  pose proof (snapStreams_concat snapList) as E.
  rewrite snapStreams_split_last in E.
  revert E. generalize (removelast (snapStreams snapList)) as front.
  generalize (last (snapStreams snapList) []) as z.
  intros z front E. rewrite <- E, concat_app. simpl.
  rewrite firstn_app, firstn_all, Nat.sub_diag. simpl. rewrite app_nil_r. reflexivity.
Qed.

Section OrderClaims.

Context {Store : Type} {store : SnapStore Store}.

(** The rounds of a pass under either policy, over streams that hold every
    stream but the latest. *)
Lemma pass_rounds (ssr : Snapshotter) (now : time.Time) (s s1 : Store) (l : SnapList) :
  garbageCollectionPolicy ssr = GarbageCollectionPolicyExponential \/
  garbageCollectionPolicy ssr = GarbageCollectionPolicyLimitBased ->
  NoDup l ->
  List s = (s1, inl l) ->
  exists s' tr (V : Type) onFail onOk v streams calls v',
    gcPass ssr now s = (Some tt, s', tr) /\
    deleteResults tr = List.concat calls /\
    Rounds V onFail onOk v streams calls v' /\
    NoDup (List.concat streams) /\
    (forall x, In x (removelast (snapStreams l)) -> In x streams).
Proof.
  intros [Hp|Hp] HN HL.
  - destruct (exponential_pass_rounds ssr now s s1 l Hp HL)
      as (s' & tr & calls & st' & Hrun & Hd & HR).
    exists s', tr, ExpState, expOnFail, (expOnOk now), initExpState,
      (rev (removelast (snapStreams l))), calls, st'.
    repeat split; auto.
    + eapply Permutation_NoDup; [apply Permutation_sym, concat_rev_perm|].
      apply NoDup_front. exact HN.
    + intros x Hx. apply -> in_rev. exact Hx.
  - destruct (limit_pass_rounds ssr now s s1 l Hp HL)
      as (s' & tr & calls & v' & Hrun & Hd & HR).
    exists s', tr, nat, limitOnFail,
      (limitOnOk (List.length (snapStreamIndexList l)) (maxBackups ssr)), 0%nat,
      (removelast (snapStreams l)), calls, v'.
    repeat split; auto. apply NoDup_front. exact HN.
Qed.

(** C5: under either policy and in one pass over a listing that holds no
    snapshot twice, take a stream other than the latest, with head [h] and
    delta snapshots [deltas].  Wherever the pass calls [store.Delete] on [h],
    every delta of the stream has been deleted, with success, before that
    call.  When a delete of one of its deltas fails, the pass never calls
    [store.Delete] on [h].  And the pass goes on to every such stream
    whatever failed before: the sweep of its deltas is always begun, with
    the newest of them. *)
Theorem head_deleted_only_after_its_deltas (ssr : Snapshotter) (now : time.Time)
    (s s1 s' : Store) (snapList : SnapList) (r : option unit) (tr : Trace)
    (i lo hi : nat) (h : Snapshot) (deltas : SnapList) :
  garbageCollectionPolicy ssr = GarbageCollectionPolicyExponential \/
  garbageCollectionPolicy ssr = GarbageCollectionPolicyLimitBased ->
  NoDup snapList ->
  List s = (s1, inl snapList) ->
  gcPass ssr now s = (r, s', tr) ->
  nth_error (snapStreamIndexList snapList) i = Some lo ->
  nth_error (snapStreamIndexList snapList) (S i) = Some hi ->
  firstn (hi - lo) (skipn lo snapList) = h :: deltas ->
  (forall pre res post,
      deleteResults tr = pre ++ (h, res) :: post ->
      forall d, In d deltas -> In (d, None) pre) /\
  ((exists d e, In d deltas /\ In (d, Some e) (deleteResults tr)) ->
   ~ In h (deleteCalls tr)) /\
  (deltas <> [] -> In (last deltas h) (deleteCalls tr)).
Proof.
  intros Hp HN HL Hrun Hlo Hhi Hx.
  destruct (pass_rounds ssr now s s1 snapList Hp HN HL)
    as (s2 & tr2 & V & onFail & onOk & v & streams & calls & v' &
        Hrun2 & Hd & HR & HNs & Hin).
  rewrite Hrun2 in Hrun. inversion Hrun; subst r s' tr. clear Hrun.
  destruct (stream_at snapList i lo hi Hlo Hhi)
    as (pre & x & y & post & Ess & _ & _ & Ex).
  rewrite Hx in Ex. subst x.
  assert (Hs : In (h :: deltas) streams).
  { apply Hin. rewrite Ess. apply in_removelast_mid. }
  rewrite deleteCalls_results, Hd. split; [|split].
  - intros p res q E d Hdin.
    eapply rounds_head_after_deltas; eauto.
  - intros (d & e & Hdin & He).
    eapply rounds_failed_sweep_keeps_head; eauto.
  - intros Hne. eapply rounds_sweep_started; eauto.
Qed.

(** C9: whatever integer [maxBackups] is, a pass of the limit-based policy
    calls [store.Delete] only on snapshots listed before the start of the
    latest stream; so, in a listing that holds no snapshot twice, neither
    on the head of the latest stream nor on any of its deltas. *)
Theorem limit_based_spares_latest_stream (ssr : Snapshotter) (now : time.Time)
    (s s1 s' : Store) (snapList : SnapList) (r : option unit) (tr : Trace) :
  garbageCollectionPolicy ssr = GarbageCollectionPolicyLimitBased ->
  List s = (s1, inl snapList) ->
  gcPass ssr now s = (r, s', tr) ->
  (forall snap, In snap (deleteCalls tr) ->
     In snap (firstn (last (snapStreamIndexList snapList) 0%nat) snapList)) /\
  (NoDup snapList ->
   forall snap, In snap (skipn (last (snapStreamIndexList snapList) 0%nat) snapList) ->
     ~ In snap (deleteCalls tr)).
Proof.
  intros Hp HL Hrun.
  destruct (limit_pass_rounds ssr now s s1 snapList Hp HL)
    as (s2 & tr2 & calls & v' & Hrun2 & Hd & HR).
  rewrite Hrun2 in Hrun. inversion Hrun; subst r s' tr. clear Hrun.
  assert (Hincl : forall snap, In snap (deleteCalls tr2) ->
            In snap (firstn (last (snapStreamIndexList snapList) 0%nat) snapList)).
  { intros snap Hin. rewrite <- front_firstn.
    eapply rounds_calls_incl; eauto. rewrite <- Hd, <- deleteCalls_results. exact Hin. }
  split; [exact Hincl|].
  intros HN snap Hlate Hdel. apply Hincl in Hdel.
  rewrite <- (firstn_skipn (last (snapStreamIndexList snapList) 0%nat) snapList) in HN.
  revert HN Hdel Hlate. generalize (firstn (last (snapStreamIndexList snapList) 0%nat) snapList).
  generalize (skipn (last (snapStreamIndexList snapList) 0%nat) snapList).
  clear. intros late early HN H1 H2.
  induction early as [|a early IH]; [destruct H1|].
  simpl in HN. inversion HN; subst. destruct H1 as [->|H1].
  - apply H3. apply in_or_app. auto.
  - auto.
Qed.

End OrderClaims.

(** ** Stream heads *)

Lemma NoDup_app_disjoint {A} (l1 l2 : list A) (a : A) :
  NoDup (l1 ++ l2) -> In a l1 -> In a l2 -> False.
Proof.
  induction l1 as [|x l1 IH]; intros HN H1 H2; [destruct H1|].
  simpl in HN. inversion HN; subst. destruct H1 as [->|H1].
  - apply H3. apply in_or_app. auto.
  - auto.
Qed.

Lemma heads_incl (streams : list SnapList) (a : Snapshot) :
  In a (flat_map (firstn 1) streams) -> In a (List.concat streams).
Proof.
  induction streams as [|x streams IH]; simpl; [tauto|].
  rewrite !in_app_iff. intros [H|H]; [left|right; auto].
  destruct x; simpl in H; [destruct H|]. destruct H as [->|[]]. left. reflexivity.
Qed.

Lemma heads_not_deltas (streams : list SnapList) (h d : Snapshot) (deltas : SnapList) :
  NoDup (List.concat streams) -> In (h :: deltas) streams -> In d deltas ->
  ~ In d (flat_map (firstn 1) streams).
Proof.
  intros HN Hin Hd Hhead.
  destruct (in_split _ _ Hin) as (pre & post & ->).
  rewrite concat_app in HN. rewrite flat_map_app in Hhead. simpl in *.
  apply in_app_or in Hhead. destruct Hhead as [Hh|[->|Hh]].
  - apply (NoDup_app_disjoint _ _ d HN); [apply heads_incl; exact Hh|].
    right. apply in_or_app. auto.
  - apply NoDup_app_remove_l in HN. inversion HN; subst.
    apply H1. apply in_or_app. auto.
  - apply NoDup_app_remove_l in HN.
    change (h :: deltas ++ List.concat post) with ((h :: deltas) ++ List.concat post) in HN.
    apply (NoDup_app_disjoint _ _ d HN); [right; exact Hd|apply heads_incl; exact Hh].
Qed.

Lemma heads_of_offsets (streams : list SnapList) :
  forall (k : nat) (front : SnapList),
    List.length front = k -> Forall (fun x => x <> []) streams ->
    flat_map (fun lo => match nth_error (front ++ List.concat streams) lo with
                        | Some h => [h]
                        | None => []
                        end) (offsets k streams)
    = flat_map (firstn 1) streams.
Proof.
  induction streams as [|x streams IH]; intros k front Hk Hne; [reflexivity|].
  inversion Hne as [|? ? Hx Hne']; subst. destruct x as [|h deltas]; [congruence|].
  cbn [offsets flat_map List.concat firstn].
  rewrite nth_error_app2, Nat.sub_diag by lia. cbn [nth_error app].
  f_equal.
  etransitivity;
    [|apply (IH (List.length front + List.length (h :: deltas))%nat (front ++ h :: deltas));
      [rewrite length_app; simpl; lia|exact Hne']].
  rewrite <- app_assoc. reflexivity.
Qed.

Lemma streamHeads_streams (snapList : SnapList) :
  streamHeads snapList = flat_map (firstn 1) (snapStreams snapList).
Proof.
  destruct snapList as [|a l] eqn:E; [reflexivity|]. rewrite <- E.
  unfold streamHeads. rewrite snapStreamIndexList_offsets.
  assert (Hne : Forall (fun x => x <> []) (snapStreams snapList))
    by (apply snapStreams_nonempty; rewrite E; discriminate).
  pose proof (heads_of_offsets (snapStreams snapList) 0 [] eq_refl Hne) as H.
  cbn [app] in H. rewrite snapStreams_concat in H. exact H.
Qed.

Lemma heads_length (streams : list SnapList) :
  Forall (fun x => x <> []) streams ->
  List.length (flat_map (firstn 1) streams) = List.length streams.
Proof.
  induction 1 as [|x streams Hx _ IH]; [reflexivity|].
  destruct x as [|h deltas]; [congruence|].
  change (flat_map (firstn 1) ((h :: deltas) :: streams))
    with (h :: flat_map (firstn 1) streams).
  cbn [List.length]. rewrite IH. reflexivity.
Qed.


Lemma allDeletesSucceed_results (tr : Trace) :
  allDeletesSucceed tr <-> Forall (fun c => snd c = None) (deleteResults tr).
Proof.
  unfold allDeletesSucceed. induction tr as [|e tr IH]; simpl.
  - split; constructor.
  - destruct e as [| |snap [err|]]; simpl.
    + rewrite <- IH. split; [intros H; inversion H; auto|intros H; constructor; simpl; auto].
    + rewrite <- IH. split; [intros H; inversion H; auto|intros H; constructor; simpl; auto].
    + split; intros H; inversion H; subst; simpl in *; [tauto|discriminate].
    + split; intros H; inversion H; subst; constructor; simpl; auto; apply IH; auto.
Qed.

Lemma mem_In (snap : Snapshot) (l : list Snapshot) : mem snap l = true <-> In snap l.
Proof. unfold mem. destruct (in_dec _ _ _); split; auto; discriminate. Qed.

Lemma mem_not_In (snap : Snapshot) (l : list Snapshot) : mem snap l = false <-> ~ In snap l.
Proof. unfold mem. destruct (in_dec _ _ _); split; auto; try discriminate; tauto. Qed.

Lemma wrapInt_small (z : Z) : - 2 ^ 63 <= z < 2 ^ 63 -> wrapInt z = z.
Proof. intros H. unfold wrapInt. rewrite Z.mod_small; lia. Qed.

Lemma filter_none {A} (p : A -> bool) (l : list A) :
  (forall a, In a l -> p a = false) -> filter p l = [].
Proof.
  induction l as [|x l IH]; intros H; simpl; [reflexivity|].
  rewrite (H x) by (left; reflexivity). apply IH. intros a Ha. apply H. right. exact Ha.
Qed.

Lemma filter_all {A} (p : A -> bool) (l : list A) :
  (forall a, In a l -> p a = true) -> filter p l = l.
Proof.
  induction l as [|x l IH]; intros H; simpl; [reflexivity|].
  rewrite (H x) by (left; reflexivity). f_equal. apply IH. intros a Ha. apply H. right. exact Ha.
Qed.

(** ** The limit-based policy *)


Lemma filter_not_firstn (l : list Snapshot) (m : nat) :
  NoDup l -> filter (fun h => negb (mem h (firstn m l))) l = skipn m l.
Proof.
  intros HN. pose proof (firstn_skipn m l) as E. revert E.
  generalize (firstn m l) as a. generalize (skipn m l) as b.
  intros b a E. subst l. rewrite filter_app.
  rewrite filter_none, filter_all; [reflexivity| |].
  - intros x Hx. apply negb_true_iff, mem_not_In. intros Hf.
    eapply NoDup_app_disjoint; eauto.
  - intros x Hx. apply negb_false_iff, mem_In. exact Hx.
Qed.

Section LimitRounds.

Variable total : nat.
Variable maxBackups : Z.

Let T : Z := wrapInt (Z.of_nat total - maxBackups).

Lemma limit_round_next j x c v1 :
  Round nat limitOnFail (limitOnOk total maxBackups) j x c v1 -> v1 = S j.
Proof. intros [v0 h deltas ok d rest e E|v0 h deltas Hd|v0 h deltas r Hd]; reflexivity. Qed.



Lemma limit_rounds_deleted (p : Snapshot -> bool) j streams calls v' :
  Rounds nat limitOnFail (limitOnOk total maxBackups) j streams calls v' ->
  Forall (fun c => snd c = None) (List.concat calls) ->
  (forall h deltas, In (h :: deltas) streams ->
     p h = true /\ forall d, In d deltas -> p d = false) ->
  filter p (map fst (List.concat calls))
  = firstn (Z.to_nat (T - Z.of_nat j)) (flat_map (firstn 1) streams).
Proof.
  induction 1 as [v|v x c v1 streams calls v' HR HRs IH]; intros Hok Hp.
  - simpl. rewrite firstn_nil. reflexivity.
  - pose proof (limit_round_next _ _ _ _ HR) as ->.
    simpl in Hok. apply Forall_app in Hok. destruct Hok as [Hc Hcs].
    assert (Hp' : forall h deltas, In (h :: deltas) streams ->
                    p h = true /\ forall d, In d deltas -> p d = false)
      by (intros h ds Hin; apply Hp; right; exact Hin).
    specialize (IH Hcs Hp').
    simpl List.concat. rewrite map_app, filter_app, IH.
    inversion HR as [v0 h ds0 ok d rest e E|v0 h ds0 Hd|v0 h ds0 r Hd]; subst.
    + exfalso. apply Forall_app in Hc. destruct Hc as [_ Hc].
      inversion Hc; subst. discriminate.
    + destruct (Hp h ds0 (or_introl eq_refl)) as [Hh Hds].
      unfold limitOnOk in Hd. simpl in Hd. apply Z.ltb_ge in Hd.
      replace (Z.to_nat (T - Z.of_nat v)) with 0%nat by lia.
      replace (Z.to_nat (T - Z.of_nat (S v))) with 0%nat by lia.
      rewrite succeeded_fst, filter_none; [reflexivity|].
      intros a Ha. apply Hds. apply in_rev. exact Ha.
    + destruct (Hp h ds0 (or_introl eq_refl)) as [Hh Hds].
      unfold limitOnOk in Hd. simpl in Hd. apply Z.ltb_lt in Hd.
      replace (Z.to_nat (T - Z.of_nat v)) with (S (Z.to_nat (T - Z.of_nat (S v)))) by lia.
      change (flat_map (firstn 1) ((h :: ds0) :: streams))
        with (h :: flat_map (firstn 1) streams).
      rewrite map_app, succeeded_fst, filter_app, filter_none;
        [|intros a Ha; apply Hds; apply in_rev; exact Ha].
      simpl. rewrite Hh. reflexivity.
Qed.

End LimitRounds.


Section LimitClaims.

Context {Store : Type} {store : SnapStore Store}.


End LimitClaims.

(** ** The passes on a store in memory *)

Lemma nodupb_sound (l : list Snapshot) : nodupb l = true -> NoDup l.
Proof.
  induction l as [|a l IH]; simpl; [constructor|].
  intros H. apply andb_true_iff in H. destruct H as [H1 H2].
  constructor; [|auto]. apply negb_true_iff in H1. apply mem_not_In. exact H1.
Qed.

Lemma deleteOkb_sound (tr : Trace) : forallb deleteOkb tr = true -> allDeletesSucceed tr.
Proof.
  unfold allDeletesSucceed. induction tr as [|e tr IH]; simpl; [constructor|].
  intros H. apply andb_true_iff in H. destruct H as [H1 H2].
  constructor; [|auto]. destruct e as [| |snap [err|]]; simpl in *; auto. discriminate.
Qed.


Lemma head_deleted_only_after_its_deltas_witness :
  let tr := snd (demoPass (limitBased 1) [delta (at_ 100 8 10) "a1"]) in
  let h := full (at_ 100 8 0) "a" in
  let deltas := [delta (at_ 100 8 10) "a1"; delta (at_ 100 8 20) "a2"] in
  (forall pre res post,
      deleteResults tr = pre ++ (h, res) :: post ->
      forall d, In d deltas -> In (d, None) pre) /\
  ((exists d e, In d deltas /\ In (d, Some e) (deleteResults tr)) ->
   ~ In h (deleteCalls tr)) /\
  (deltas <> [] -> In (last deltas h) (deleteCalls tr)).
Proof.
  apply (head_deleted_only_after_its_deltas (limitBased 1) (at_ 100 10 30)
           (memstore.mk demoList None [delta (at_ 100 8 10) "a1"])
           (memstore.mk demoList None [delta (at_ 100 8 10) "a1"])
           (snd (fst (demoPass (limitBased 1) [delta (at_ 100 8 10) "a1"]))) demoList
           (fst (fst (demoPass (limitBased 1) [delta (at_ 100 8 10) "a1"])))
           (snd (demoPass (limitBased 1) [delta (at_ 100 8 10) "a1"]))
           0%nat 0%nat 3%nat).
  - right. reflexivity.
  - apply nodupb_sound. vm_compute. reflexivity.
  - reflexivity.
  - vm_compute. reflexivity.
  - reflexivity.
  - reflexivity.
  - reflexivity.
Defined.

Lemma limit_based_spares_latest_stream_witness :
  let tr := snd (demoPass (limitBased (-5)) []) in
  (forall snap, In snap (deleteCalls tr) -> In snap (firstn 5 demoList)) /\
  (forall snap, In snap (skipn 5 demoList) -> ~ In snap (deleteCalls tr)).
Proof.
  destruct (limit_based_spares_latest_stream (limitBased (-5)) (at_ 100 10 30)
              (memstore.mk demoList None []) (memstore.mk demoList None [])
              (snd (fst (demoPass (limitBased (-5)) []))) demoList
              (fst (fst (demoPass (limitBased (-5)) [])))
              (snd (demoPass (limitBased (-5)) [])))
    as [H1 H2].
  - reflexivity.
  - reflexivity.
  - vm_compute. reflexivity.
  - split; [exact H1|]. apply H2. apply nodupb_sound. vm_compute. reflexivity.
Defined.

(** ** Hours and days as numbers *)

Lemma Hour_pos : 0 < time.Hour.
Proof. reflexivity. Qed.

Lemma Truncate_hour (t : time.Time) : time.Truncate t time.Hour = time.Hour * hourOf t.
Proof.
  unfold time.Truncate, hourOf. pose proof Hour_pos as HP.
  destruct (time.Hour <=? 0) eqn:E; [apply Z.leb_le in E; lia|].
  pose proof (Z.div_mod t time.Hour). lia.
Qed.

Lemma Truncate_day (t : time.Time) :
  time.Truncate t (time.Hour * 24) = time.Hour * (24 * time.civilDay t).
Proof.
  unfold time.Truncate, time.civilDay. pose proof Hour_pos as HP.
  destruct (time.Hour * 24 <=? 0) eqn:E; [apply Z.leb_le in E; lia|].
  replace (time.Hour * 24) with (24 * time.Hour) by lia.
  pose proof (Z.div_mod t (24 * time.Hour)). lia.
Qed.

Lemma civilDay_hourOf (t : time.Time) : time.civilDay t = hourOf t / 24.
Proof.
  unfold time.civilDay, hourOf. pose proof Hour_pos as HP.
  rewrite Z.div_div by lia. f_equal; lia.
Qed.

Lemma hourAnchor_hours (now : time.Time) (c : Z) :
  hourAnchor now c = time.Hour * (24 * time.civilDay now + c).
Proof. unfold hourAnchor, time.Date. lia. Qed.

Lemma dayAnchor_hours (now : time.Time) (c : Z) :
  dayAnchor now c = time.Hour * (24 * (time.civilDay now - 7 + c)).
Proof. unfold dayAnchor, time.Date. lia. Qed.

Lemma weekAnchor_hours (now : time.Time) (c : Z) :
  weekAnchor now c = time.Hour * (24 * (time.civilDay now - 35 + 7 * c)).
Proof. unfold weekAnchor, time.Date, dayModeLimit, weekModeLimit. lia. Qed.

Lemma Sub_eqb (t u : time.Time) : (time.Sub t u =? 0) = (t =? u).
Proof.
  unfold time.Sub, time.minDuration, time.maxDuration.
  destruct (Z.eqb_spec t u) as [->|Hne].
  - rewrite Z.sub_diag. reflexivity.
  - apply Z.eqb_neq. lia.
Qed.

Lemma Sub_gtb (t u : time.Time) : (time.Sub t u >? 0) = (t >? u).
Proof.
  unfold time.Sub, time.minDuration, time.maxDuration.
  rewrite !Z.gtb_ltb. destruct (Z.ltb_spec u t).
  - apply Z.ltb_lt. lia.
  - apply Z.ltb_ge. lia.
Qed.

Lemma Hour_mul_eqb (a b : Z) : (time.Hour * a =? time.Hour * b) = (a =? b).
Proof.
  pose proof Hour_pos. destruct (Z.eqb_spec a b) as [->|Hne].
  - apply Z.eqb_refl.
  - apply Z.eqb_neq. nia.
Qed.

Lemma Hour_mul_gtb (a b : Z) : (time.Hour * a >? time.Hour * b) = (a >? b).
Proof.
  pose proof Hour_pos. rewrite !Z.gtb_ltb. destruct (Z.ltb_spec b a).
  - apply Z.ltb_lt. nia.
  - apply Z.ltb_ge. nia.
Qed.

(** The sign of the week case's [diff], by the whole hours [m] from the
    snapshot's hour to the anchor. *)
Lemma week_diff_sign (m : Z) :
  let diff := Z.quot (time.HoursDiv24 (time.Sub (time.Hour * m) 0)) 7 in
  (diff = 0 <-> -168 < m < 168) /\ (diff > 0 <-> 168 <= m) /\ (diff < 0 <-> m <= -168).
Proof.
  unfold time.HoursDiv24, time.Sub. rewrite Z.sub_0_r.
  assert (Hq : forall z, Z.quot (Z.quot z 24) 7 = Z.quot z 168).
  { intros z. rewrite Z.quot_quot by lia. reflexivity. }
  assert (Hs : forall z, (Z.quot z 168 = 0 <-> -168 < z < 168) /\
                         (Z.quot z 168 > 0 <-> 168 <= z) /\
                         (Z.quot z 168 < 0 <-> z <= -168)).
  { intros z. Z.to_euclidean_division_equations. lia. }
  cbv zeta. rewrite Hq.
  destruct (Z_le_gt_dec (time.Hour * m) time.maxDuration) as [Hle|Hgt].
  - destruct (Z_le_gt_dec time.minDuration (time.Hour * m)) as [Hge|Hlt].
    + rewrite Z.min_r, Z.max_r by lia.
      rewrite Z.mul_comm, Z.quot_mul by (pose proof Hour_pos; lia). apply Hs.
    + rewrite Z.min_r, Z.max_l by lia.
      assert (m <= -168).
      { unfold time.minDuration in Hlt. change time.Hour with 3600000000000 in Hlt. lia. }
      change (Z.quot (Z.quot time.minDuration time.Hour) 168) with (-15250). lia.
  - rewrite Z.min_l by lia. rewrite Z.max_r by (unfold time.minDuration, time.maxDuration; lia).
    assert (168 <= m).
    { unfold time.maxDuration in Hgt. change time.Hour with 3600000000000 in Hgt. lia. }
    change (Z.quot (Z.quot time.maxDuration time.Hour) 168) with 15250. lia.
Qed.

(** ** The mode only moves forward *)

Lemma weekLoop_mode n now snap st :
  backupMode (fst (weekLoop n now snap st)) = backupMode st \/
  backupMode (fst (weekLoop n now snap st)) = ModeMonth.
Proof.
  revert st. induction n as [|n IH]; intros st; simpl; [auto|].
  destruct (_ =? 0); [destruct (_ =? -1); simpl; auto|].
  destruct (_ >? 0); [|simpl; auto].
  destruct (IH (mkExpState (deleteSnap st) (backupMode st) (backupCount st - 1))); auto.
Qed.

Lemma dayLoop_mode n now snap st :
  backupMode (fst (dayLoop n now snap st)) = backupMode st \/
  backupMode (fst (dayLoop n now snap st)) = ModeWeek.
Proof.
  revert st. induction n as [|n IH]; intros st; simpl; [auto|].
  destruct (_ =? 0); [destruct (_ =? -1); simpl; auto|].
  destruct (_ >? 0); [|simpl; auto].
  destruct (IH (mkExpState (deleteSnap st) (backupMode st) (backupCount st - 1))); auto.
Qed.

Lemma hourLoop_mode n now snap st :
  backupMode (fst (hourLoop n now snap st)) = backupMode st \/
  backupMode (fst (hourLoop n now snap st)) = ModeDay.
Proof.
  revert st. induction n as [|n IH]; intros st; simpl; [auto|].
  destruct (_ =? 0); [destruct (_ =? -1); simpl; auto|].
  destruct (_ >? 0); [|simpl; auto].
  destruct (IH (mkExpState (deleteSnap st) (backupMode st) (backupCount st - 1))); auto.
Qed.

Lemma caseWeek_rank now snap st :
  backupMode st = ModeWeek ->
  (3 <= modeRank (backupMode (fst (caseWeek now snap st))))%nat.
Proof.
  intros Hm. unfold caseWeek.
  pose proof (weekLoop_mode (Z.to_nat (backupCount st + 1)) now snap st) as H.
  destruct (weekLoop _ now snap st) as [st1 l1]. simpl in H. rewrite Hm in H.
  destruct (_ >=? 0); [simpl; destruct H as [-> | ->]; simpl; lia|].
  destruct (BackupMode_eqb _ _); [simpl; destruct H as [-> | ->]; simpl; lia|].
  simpl. lia.
Qed.

Lemma caseDay_rank now snap st :
  backupMode st = ModeDay ->
  (2 <= modeRank (backupMode (fst (caseDay now snap st))))%nat.
Proof.
  intros Hm. unfold caseDay.
  pose proof (dayLoop_mode (Z.to_nat (backupCount st + 1)) now snap st) as H.
  destruct (dayLoop _ now snap st) as [st1 l1]. simpl in H. rewrite Hm in H.
  destruct (_ >=? 0); [simpl; destruct H as [-> | ->]; simpl; lia|].
  destruct (BackupMode_eqb _ _); [simpl; destruct H as [-> | ->]; simpl; lia|].
  pose proof (caseWeek_rank now snap
                (mkExpState (deleteSnap st1) ModeWeek (weekModeLimit - 1)) eq_refl) as H2.
  destruct (caseWeek _ _ _) as [st2 l2]. simpl in *. lia.
Qed.

Lemma caseHour_rank now snap st :
  backupMode st = ModeHour ->
  (1 <= modeRank (backupMode (fst (caseHour now snap st))))%nat.
Proof.
  intros Hm. unfold caseHour.
  pose proof (hourLoop_mode (Z.to_nat (backupCount st + 1)) now snap st) as H.
  destruct (hourLoop _ now snap st) as [st1 l1]. simpl in H. rewrite Hm in H.
  destruct (_ >=? 0); [simpl; destruct H as [-> | ->]; simpl; lia|].
  destruct (BackupMode_eqb _ _); [simpl; destruct H as [-> | ->]; simpl; lia|].
  pose proof (caseDay_rank now snap
                (mkExpState (deleteSnap st1) ModeDay (dayModeLimit - 1)) eq_refl) as H2.
  destruct (caseDay _ _ _) as [st2 l2]. simpl in *. lia.
Qed.

Lemma switchBackupMode_rank now snap st :
  (modeRank (backupMode st)
   <= modeRank (backupMode (fst (switchBackupMode now snap st))))%nat.
Proof.
  unfold switchBackupMode. destruct (backupMode st) eqn:Hm; simpl.
  - lia.
  - apply caseHour_rank. exact Hm.
  - apply caseDay_rank. exact Hm.
  - apply caseWeek_rank. exact Hm.
  - rewrite Hm. simpl. lia.
Qed.

Lemma switchBackupMode_month now snap st :
  backupMode st = ModeMonth ->
  fst (switchBackupMode now snap st) = mkExpState true ModeMonth (backupCount st).
Proof. intros Hm. unfold switchBackupMode. rewrite Hm. simpl. rewrite Hm. reflexivity. Qed.

Section ModeClaims.

Context {Store : Type} {store : SnapStore Store}.

Lemma index_run {A} (l : list A) (i : nat) (s s' : Store) (a : A) (t : Trace) :
  index l i s = (Some a, s', t) -> nth_error l i = Some a /\ s' = s /\ t = [].
Proof.
  unfold index. destruct (nth_error l i); cbv [ret panic]; intros H; inversion H; auto.
Qed.

Lemma slice_run {A} (l : list A) (a b : nat) (s s' : Store) (x : list A) (t : Trace) :
  slice l a b s = (Some x, s', t) ->
  x = firstn (b - a) (skipn a l) /\ s' = s /\ t = [].
Proof.
  unfold slice. destruct (_ && _); cbv [ret panic]; intros H; inversion H; auto.
Qed.

(** A round of the exponential loop that ends: it sweeps the stream from
    [lo] to [hi]; when the sweep fails the state stays, otherwise it goes
    through the mode switch on the head, which is handed to [store.Delete]
    when [deleteSnap] is set. *)
Lemma exponentialRound_inv (now : time.Time) (snapList : SnapList) (indexList : list nat)
    (i : nat) (st st' : ExpState) (s s' : Store) (tr : Trace) :
  exponentialRound now snapList indexList i st s = (Some st', s', tr) ->
  exists lo hi snap err s1 t1,
    nth_error indexList i = Some lo /\
    nth_error snapList lo = Some snap /\
    nth_error indexList (i + 1) = Some hi /\
    garbageCollectDeltaSnapshots (firstn (hi - lo) (skipn lo snapList)) s
    = (Some err, s1, t1) /\
    match err with
    | Some _ => st' = st /\ tr = t1
    | None =>
        st' = fst (switchBackupMode now snap st) /\
        (deleteSnap st' = true -> In snap (deleteCalls tr))
    end.
Proof.
  unfold exponentialRound. intros H.
  apply bind_run in H. destruct H as [(ta & _ & H & _)|(lo & sa & ta & ta' & H1 & H & ->)];
    [discriminate|].
  apply index_run in H1. destruct H1 as (Hlo & -> & ->).
  apply bind_run in H. destruct H as [(tb & _ & H & _)|(snap & sb & tb & tb' & H1 & H & ->)];
    [discriminate|].
  apply index_run in H1. destruct H1 as (Hsnap & -> & ->).
  apply bind_run in H. destruct H as [(tc & _ & H & _)|(hi & sc & tc & tc' & H1 & H & ->)];
    [discriminate|].
  apply index_run in H1. destruct H1 as (Hhi & -> & ->).
  apply bind_run in H. destruct H as [(td & _ & H & _)|(x & sd & td & td' & H1 & H & ->)];
    [discriminate|].
  apply slice_run in H1. destruct H1 as (-> & -> & ->).
  apply bind_run in H. destruct H as [(te & _ & H & _)|(err & s1 & t1 & t2 & H1 & H & ->)];
    [discriminate|].
  exists lo, hi, snap, err, s1, t1. repeat split; auto.
  destruct err as [e|].
  - cbv [ret] in H. inversion H; subst. simpl. rewrite app_nil_r. auto.
  - destruct (switchBackupMode now snap st) as [st1 logs] eqn:Esw. simpl.
    cbv [bind tell] in H.
    destruct (deleteSnap st1) eqn:Hdel.
    + cbv [logf tell storeDelete bind ret] in H.
      destruct (Delete s1 snap) as [s2 [e|]]; inversion H; subst; split; auto; intros _;
        rewrite !deleteCalls_app, !in_app_iff; simpl; intuition.
    + cbv [ret] in H. inversion H; subst. split; auto. rewrite Hdel. discriminate.
Qed.

End ModeClaims.

(** ** The mode switch, in hours and days *)

Section SwitchFacts.

Variable now : time.Time.
Variable snap : Snapshot.

Abbreviation D := (time.civilDay now).
Abbreviation x := (hourOf (CreatedOn snap)).
Abbreviation y := (time.civilDay (CreatedOn snap)).

Lemma hour_test_eqb c :
  (time.Sub (hourAnchor now c) (time.Truncate (CreatedOn snap) time.Hour) =? 0)
  = (24 * D + c =? x).
Proof. rewrite Sub_eqb, hourAnchor_hours, Truncate_hour. apply Hour_mul_eqb. Qed.

Lemma hour_test_gtb c :
  (time.Sub (hourAnchor now c) (time.Truncate (CreatedOn snap) time.Hour) >? 0)
  = (24 * D + c >? x).
Proof. rewrite Sub_gtb, hourAnchor_hours, Truncate_hour. apply Hour_mul_gtb. Qed.

Lemma day_test_eqb c :
  (time.Sub (dayAnchor now c) (time.Truncate (CreatedOn snap) (time.Hour * 24)) =? 0)
  = (D - 7 + c =? y).
Proof.
  rewrite Sub_eqb, dayAnchor_hours, Truncate_day, Hour_mul_eqb.
  destruct (Z.eqb_spec (D - 7 + c) y); [apply Z.eqb_eq|apply Z.eqb_neq]; lia.
Qed.

Lemma day_test_gtb c :
  (time.Sub (dayAnchor now c) (time.Truncate (CreatedOn snap) (time.Hour * 24)) >? 0)
  = (D - 7 + c >? y).
Proof.
  rewrite Sub_gtb, dayAnchor_hours, Truncate_day, Hour_mul_gtb.
  rewrite !Z.gtb_ltb.
  destruct (Z.ltb_spec y (D - 7 + c)); [apply Z.ltb_lt|apply Z.ltb_ge]; lia.
Qed.

Lemma week_test c :
  let diff := Z.quot (time.HoursDiv24
                        (time.Sub (weekAnchor now c)
                           (time.Truncate (CreatedOn snap) time.Hour))) 7 in
  let m := 24 * (D - 35 + 7 * c) - x in
  (diff = 0 <-> -168 < m < 168) /\ (diff > 0 <-> 168 <= m) /\ (diff < 0 <-> m <= -168).
Proof.
  cbv zeta. rewrite weekAnchor_hours, Truncate_hour.
  replace (time.Sub (time.Hour * (24 * (D - 35 + 7 * c))) (time.Hour * x))
    with (time.Sub (time.Hour * (24 * (D - 35 + 7 * c) - x)) 0)
    by (unfold time.Sub; f_equal; f_equal; lia).
  apply week_diff_sign.
Qed.

Lemma y_of_x : y = x / 24.
Proof. apply civilDay_hourOf. Qed.

(** The hour loop: down from [c] to the hour of the snapshot. *)
Lemma hourLoop_descend n c ds mode :
  n = Z.to_nat (c + 1) -> -1 <= c -> x <= 24 * D + c ->
  fst (hourLoop n now snap (mkExpState ds mode c))
  = if 24 * D <=? x
    then (if x =? 24 * D then mkExpState false ModeDay 6
          else mkExpState false mode (x - 24 * D - 1))
    else mkExpState ds mode (-1).
Proof.
  revert c. induction n as [|n IH]; intros c Hn Hc Hx.
  - assert (c = -1) by lia. subst c. cbn [hourLoop fst].
    destruct (Z.leb_spec (24 * D) x); [lia|reflexivity].
  - assert (0 <= c) by lia. cbn [hourLoop backupCount backupMode deleteSnap].
    rewrite hour_test_eqb, hour_test_gtb.
    destruct (Z.eqb_spec (24 * D + c) x) as [E|E].
    + destruct (Z.leb_spec (24 * D) x); [|lia].
      destruct (Z.eqb_spec (c - 1) (-1)); destruct (Z.eqb_spec x (24 * D)); try lia.
      * reflexivity.
      * cbn [fst]. f_equal. lia.
    + rewrite Z.gtb_ltb. destruct (Z.ltb_spec x (24 * D + c)); [|lia].
      apply IH; lia.
Qed.

Lemma hourLoop_newer c ds mode :
  0 <= c -> 24 * D + c < x ->
  fst (hourLoop (Z.to_nat (c + 1)) now snap (mkExpState ds mode c)) = mkExpState true mode c.
Proof.
  intros Hc Hx. replace (Z.to_nat (c + 1)) with (S (Z.to_nat c)) by lia.
  cbn [hourLoop backupCount backupMode deleteSnap].
  rewrite hour_test_eqb, hour_test_gtb.
  destruct (Z.eqb_spec (24 * D + c) x); [lia|].
  rewrite Z.gtb_ltb. destruct (Z.ltb_spec x (24 * D + c)); [lia|reflexivity].
Qed.

Lemma dayLoop_descend n c ds mode :
  n = Z.to_nat (c + 1) -> -1 <= c -> y <= D - 7 + c ->
  fst (dayLoop n now snap (mkExpState ds mode c))
  = if D - 7 <=? y
    then (if y =? D - 7 then mkExpState false ModeWeek 3
          else mkExpState false mode (y - (D - 7) - 1))
    else mkExpState ds mode (-1).
Proof.
  revert c. induction n as [|n IH]; intros c Hn Hc Hy.
  - assert (c = -1) by lia. subst c. cbn [dayLoop fst].
    destruct (Z.leb_spec (D - 7) y); [lia|reflexivity].
  - assert (0 <= c) by lia. cbn [dayLoop backupCount backupMode deleteSnap].
    rewrite day_test_eqb, day_test_gtb.
    destruct (Z.eqb_spec (D - 7 + c) y) as [E|E].
    + destruct (Z.leb_spec (D - 7) y); [|lia].
      destruct (Z.eqb_spec (c - 1) (-1)); destruct (Z.eqb_spec y (D - 7)); try lia.
      * reflexivity.
      * cbn [fst]. f_equal. lia.
    + rewrite Z.gtb_ltb. destruct (Z.ltb_spec y (D - 7 + c)); [|lia].
      apply IH; lia.
Qed.

Lemma dayLoop_newer c ds mode :
  0 <= c -> D - 7 + c < y ->
  fst (dayLoop (Z.to_nat (c + 1)) now snap (mkExpState ds mode c)) = mkExpState true mode c.
Proof.
  intros Hc Hy. replace (Z.to_nat (c + 1)) with (S (Z.to_nat c)) by lia.
  cbn [dayLoop backupCount backupMode deleteSnap].
  rewrite day_test_eqb, day_test_gtb.
  destruct (Z.eqb_spec (D - 7 + c) y); [lia|].
  rewrite Z.gtb_ltb. destruct (Z.ltb_spec y (D - 7 + c)); [lia|reflexivity].
Qed.


(** The week loop: a snapshot a week or more later than the anchor is
    deleted where the loop stands; otherwise the loop goes down to a match
    or runs out. *)
Lemma weekLoop_newer c ds mode :
  0 <= c -> 24 * (D - 35 + 7 * c) - x <= -168 ->
  fst (weekLoop (Z.to_nat (c + 1)) now snap (mkExpState ds mode c)) = mkExpState true mode c.
Proof.
  intros Hc Hm. replace (Z.to_nat (c + 1)) with (S (Z.to_nat c)) by lia.
  cbn [weekLoop backupCount backupMode deleteSnap].
  destruct (week_test c) as (H0 & Hp & Hn).
  destruct (Z.eqb_spec (Z.quot (time.HoursDiv24
              (time.Sub (weekAnchor now c) (time.Truncate (CreatedOn snap) time.Hour))) 7) 0)
    as [E|E]; [apply H0 in E; lia|].
  rewrite Z.gtb_ltb.
  destruct (Z.ltb_spec 0 (Z.quot (time.HoursDiv24
              (time.Sub (weekAnchor now c) (time.Truncate (CreatedOn snap) time.Hour))) 7))
    as [E2|E2]; [|reflexivity].
  assert (168 <= 24 * (D - 35 + 7 * c) - x) by (apply Hp; lia). lia.
Qed.

Lemma weekLoop_descend n c ds mode :
  n = Z.to_nat (c + 1) -> -1 <= c -> -168 < 24 * (D - 35 + 7 * c) - x ->
  fst (weekLoop n now snap (mkExpState ds mode c)) = mkExpState ds mode (-1) \/
  (exists c', 0 <= c' < c /\
     fst (weekLoop n now snap (mkExpState ds mode c)) = mkExpState false mode c') \/
  fst (weekLoop n now snap (mkExpState ds mode c)) = mkExpState false ModeMonth (-1).
Proof.
  revert c. induction n as [|n IH]; intros c Hn Hc Hm.
  - assert (c = -1) by lia. subst c. left. reflexivity.
  - assert (0 <= c) by lia. cbn [weekLoop backupCount backupMode deleteSnap].
    destruct (week_test c) as (H0 & Hp & Hneg).
    destruct (Z.eqb_spec (Z.quot (time.HoursDiv24
                (time.Sub (weekAnchor now c) (time.Truncate (CreatedOn snap) time.Hour))) 7) 0)
      as [E|E].
    + destruct (Z.eqb_spec (c - 1) (-1)) as [E1|E1].
      * right; right. cbn [fst]. f_equal. exact E1.
      * right; left. exists (c - 1). split; [lia|reflexivity].
    + rewrite Z.gtb_ltb.
      destruct (Z.ltb_spec 0 (Z.quot (time.HoursDiv24
                  (time.Sub (weekAnchor now c) (time.Truncate (CreatedOn snap) time.Hour))) 7))
        as [E2|E2].
      * assert (168 <= 24 * (D - 35 + 7 * c) - x) by (apply Hp; lia).
        destruct (IH (c - 1)) as [Ha|[(c' & Hc' & Hb)|Hb]]; try lia.
        -- left. exact Ha.
        -- right; left. exists c'. split; [lia|exact Hb].
        -- right; right. exact Hb.
      * exfalso. assert (24 * (D - 35 + 7 * c) - x <= -168) by (apply Hneg; lia). lia.
Qed.

Lemma caseWeek_newer c ds :
  0 <= c -> 24 * (D - 35 + 7 * c) - x <= -168 ->
  fst (caseWeek now snap (mkExpState ds ModeWeek c)) = mkExpState true ModeWeek c.
Proof.
  intros Hc Hm. unfold caseWeek. cbn [backupCount].
  pose proof (weekLoop_newer c ds ModeWeek Hc Hm) as H.
  destruct (weekLoop _ now snap _) as [st1 l1]. cbn [fst] in H. subst st1.
  cbn [backupCount]. destruct (Z.geb_spec c 0); [reflexivity|lia].
Qed.

Lemma caseWeek_descend c ds :
  0 <= c -> -168 < 24 * (D - 35 + 7 * c) - x ->
  (exists c', 0 <= c' < c /\
     fst (caseWeek now snap (mkExpState ds ModeWeek c)) = mkExpState false ModeWeek c') \/
  fst (caseWeek now snap (mkExpState ds ModeWeek c)) = mkExpState false ModeMonth (-1) \/
  fst (caseWeek now snap (mkExpState ds ModeWeek c)) = mkExpState true ModeMonth (-1).
Proof.
  intros Hc Hm. unfold caseWeek. cbn [backupCount].
  pose proof (weekLoop_descend (Z.to_nat (c + 1)) c ds ModeWeek eq_refl) as H.
  destruct (weekLoop _ now snap _) as [st1 l1]. cbn [fst] in H.
  destruct H as [->|[(c' & Hc' & ->)| ->]]; try lia; cbn [backupCount backupMode deleteSnap].
  - right; right. reflexivity.
  - left. exists c'. destruct (Z.geb_spec c' 0); [auto|lia].
  - right; left. reflexivity.
Qed.

Lemma caseDay_spec c ds :
  0 <= c ->
  fst (caseDay now snap (mkExpState ds ModeDay c))
  = if D - 7 + c <? y then mkExpState true ModeDay c
    else if D - 7 <=? y
         then (if y =? D - 7 then mkExpState false ModeWeek 3
               else mkExpState false ModeDay (y - (D - 7) - 1))
         else fst (caseWeek now snap (mkExpState ds ModeWeek 3)).
Proof.
  intros Hc. unfold caseDay. cbn [backupCount].
  destruct (Z.ltb_spec (D - 7 + c) y) as [Hy|Hy].
  - pose proof (dayLoop_newer c ds ModeDay Hc Hy) as H.
    destruct (dayLoop _ now snap _) as [st1 l1]. cbn [fst] in H. subst st1.
    cbn [backupCount]. destruct (Z.geb_spec c 0); [reflexivity|lia].
  - pose proof (dayLoop_descend (Z.to_nat (c + 1)) c ds ModeDay eq_refl) as H.
    destruct (dayLoop _ now snap _) as [st1 l1]. cbn [fst] in H.
    rewrite H by lia. clear H.
    destruct (Z.leb_spec (D - 7) y).
    + destruct (Z.eqb_spec y (D - 7)); cbn [backupCount].
      * reflexivity.
      * destruct (Z.geb_spec (y - (D - 7) - 1) 0); [reflexivity|lia].
    + cbn [backupCount backupMode deleteSnap BackupMode_eqb].
      change (weekModeLimit - 1) with 3.
      destruct (caseWeek now snap _) as [st2 l2]. reflexivity.
Qed.

Lemma caseHour_spec c ds :
  0 <= c ->
  fst (caseHour now snap (mkExpState ds ModeHour c))
  = if 24 * D + c <? x then mkExpState true ModeHour c
    else if 24 * D <=? x
         then (if x =? 24 * D then mkExpState false ModeDay 6
               else mkExpState false ModeHour (x - 24 * D - 1))
         else fst (caseDay now snap (mkExpState ds ModeDay 6)).
Proof.
  intros Hc. unfold caseHour. cbn [backupCount].
  destruct (Z.ltb_spec (24 * D + c) x) as [Hx|Hx].
  - pose proof (hourLoop_newer c ds ModeHour Hc Hx) as H.
    destruct (hourLoop _ now snap _) as [st1 l1]. cbn [fst] in H. subst st1.
    cbn [backupCount]. destruct (Z.geb_spec c 0); [reflexivity|lia].
  - pose proof (hourLoop_descend (Z.to_nat (c + 1)) c ds ModeHour eq_refl) as H.
    destruct (hourLoop _ now snap _) as [st1 l1]. cbn [fst] in H.
    rewrite H by lia. clear H.
    destruct (Z.leb_spec (24 * D) x).
    + destruct (Z.eqb_spec x (24 * D)); cbn [backupCount].
      * reflexivity.
      * destruct (Z.geb_spec (x - 24 * D - 1) 0); [reflexivity|lia].
    + cbn [backupCount backupMode deleteSnap BackupMode_eqb].
      change (dayModeLimit - 1) with 6.
      destruct (caseDay now snap _) as [st2 l2]. reflexivity.
Qed.

Lemma caseNone_spec st :
  fst (caseNone now snap st)
  = if hourOf now =? x then mkExpState false (backupMode st) (backupCount st)
    else fst (caseHour now snap (mkExpState false ModeHour 23)).
Proof.
  unfold caseNone, time.Equal. rewrite !Truncate_hour, Hour_mul_eqb.
  destruct (hourOf now =? x); [reflexivity|].
  change (hourModeLimit - 1) with 23.
  destruct (caseHour now snap _) as [st2 l2]. reflexivity.
Qed.

Lemma x_bounds : 24 * y <= x < 24 * y + 24.
Proof.
  rewrite y_of_x. pose proof (Z.div_mod x 24). pose proof (Z.mod_pos_bound x 24). lia.
Qed.

Ltac step_cases :=
  unfold stepOk, wfState, slots, frontier, bucketStart;
  cbn [backupMode backupCount deleteSnap];
  pose proof x_bounds;
  repeat match goal with
         | |- context [?a <=? ?b] => destruct (Z.leb_spec a b)
         | |- context [?a <? ?b] => destruct (Z.ltb_spec a b)
         | |- context [?a =? ?b] => destruct (Z.eqb_spec a b)
         end;
  cbn [backupMode backupCount deleteSnap];
  rewrite <- ?y_of_x;
  repeat split; intros; first [discriminate | lia].

Lemma caseWeek_step c ds :
  0 <= c <= 3 ->
  stepOk now snap (mkExpState ds ModeWeek c)
    (fst (caseWeek now snap (mkExpState ds ModeWeek c))).
Proof.
  intros Hc.
  destruct (Z_le_gt_dec (24 * (D - 35 + 7 * c) - x) (-168)) as [Hm|Hm].
  - rewrite caseWeek_newer by lia. step_cases.
  - destruct (caseWeek_descend c ds) as [(c' & Hc' & ->)|[-> | ->]]; try lia; step_cases.
Qed.

Lemma caseDay_step c ds :
  0 <= c <= 6 ->
  stepOk now snap (mkExpState ds ModeDay c)
    (fst (caseDay now snap (mkExpState ds ModeDay c))).
Proof.
  intros Hc. rewrite caseDay_spec by lia.
  destruct (Z.ltb_spec (D - 7 + c) y); [step_cases|].
  destruct (Z.leb_spec (D - 7) y); [destruct (Z.eqb_spec y (D - 7)); step_cases|].
  assert (HW : stepOk now snap (mkExpState ds ModeWeek 3)
                 (fst (caseWeek now snap (mkExpState ds ModeWeek 3))))
    by (apply caseWeek_step; lia).
  destruct (fst (caseWeek now snap (mkExpState ds ModeWeek 3))) as [d' m' c'].
  revert HW. unfold stepOk, wfState, slots, frontier, bucketStart.
  cbn [backupMode backupCount deleteSnap]. rewrite <- ?y_of_x. pose proof x_bounds as Hb.
  intros (W & S1 & F1 & B1 & C1).
  split; [exact W|]. split; [lia|]. split; [lia|]. split.
  - intros Hd Hx. specialize (B1 Hd Hx). lia.
  - intros Hd Hx He. lia.
Qed.

Lemma caseHour_step c ds :
  0 <= c <= 23 ->
  stepOk now snap (mkExpState ds ModeHour c)
    (fst (caseHour now snap (mkExpState ds ModeHour c))).
Proof.
  intros Hc. rewrite caseHour_spec by lia.
  destruct (Z.ltb_spec (24 * D + c) x); [step_cases|].
  destruct (Z.leb_spec (24 * D) x); [destruct (Z.eqb_spec x (24 * D)); step_cases|].
  assert (HD : stepOk now snap (mkExpState ds ModeDay 6)
                 (fst (caseDay now snap (mkExpState ds ModeDay 6))))
    by (apply caseDay_step; lia).
  destruct (fst (caseDay now snap (mkExpState ds ModeDay 6))) as [d' m' c'].
  revert HD. unfold stepOk, wfState, slots, frontier, bucketStart.
  cbn [backupMode backupCount deleteSnap]. rewrite <- ?y_of_x. pose proof x_bounds as Hb.
  destruct (Z.leb_spec (24 * D) x); [lia|].
  intros (W & S1 & F1 & B1 & C1).
  split; [exact W|]. split; [lia|]. split; [lia|]. split.
  - intros Hd Hx. specialize (B1 Hd Hx). lia.
  - intros Hd Hx He. specialize (C1 Hd Hx He). lia.
Qed.

Lemma switchBackupMode_step st :
  wfState st -> stepOk now snap st (fst (switchBackupMode now snap st)).
Proof.
  destruct st as [ds mode c]. unfold switchBackupMode, wfState.
  cbn [backupMode backupCount]. destruct mode; intros Hwf.
  - rewrite caseNone_spec. cbn [backupMode backupCount].
    destruct (Z.eqb_spec (hourOf now) x); [step_cases|].
    assert (HH : stepOk now snap (mkExpState false ModeHour 23)
                    (fst (caseHour now snap (mkExpState false ModeHour 23))))
      by (apply caseHour_step; lia).
    destruct (fst (caseHour now snap (mkExpState false ModeHour 23))) as [d' m' c'].
    revert HH. unfold stepOk, wfState, slots, frontier, bucketStart.
    cbn [backupMode backupCount deleteSnap]. rewrite <- ?y_of_x. pose proof x_bounds as Hb.
    intros (W & S1 & F1 & B1 & C1).
    split; [exact W|]. split; [lia|]. split; [lia|]. split.
    + intros Hd Hx. specialize (B1 Hd Hx). lia.
    + intros Hd Hx He. specialize (C1 Hd Hx He). lia.
  - apply caseHour_step. exact Hwf.
  - apply caseDay_step. exact Hwf.
  - apply caseWeek_step. exact Hwf.
  - cbn [caseMonth fst]. step_cases.
Qed.

End SwitchFacts.

(** ** The exponential walk *)

Lemma inCurrentHour_spec now snap :
  inCurrentHour now snap = (hourOf now =? hourOf (CreatedOn snap)).
Proof. unfold inCurrentHour, time.Equal. rewrite !Truncate_hour. apply Hour_mul_eqb. Qed.

Lemma inHourBucket_spec now c snap :
  inHourBucket now c snap <-> hourOf (CreatedOn snap) = 24 * time.civilDay now + c.
Proof.
  unfold inHourBucket. rewrite Truncate_hour, hourAnchor_hours.
  pose proof Hour_pos. split; intros E; [nia|rewrite E; reflexivity].
Qed.

Lemma inDayBucket_spec now c snap :
  inDayBucket now c snap <-> time.civilDay (CreatedOn snap) = time.civilDay now - 7 + c.
Proof.
  unfold inDayBucket. rewrite Truncate_day, dayAnchor_hours.
  pose proof Hour_pos. split; intros E; [nia|rewrite E; reflexivity].
Qed.

Lemma bucketStart_le now x : bucketStart now x <= x.
Proof.
  unfold bucketStart. destruct (Z.leb_spec (24 * time.civilDay now) x); [lia|].
  pose proof (Z.div_mod x 24). pose proof (Z.mod_pos_bound x 24). lia.
Qed.

Lemma wfState_init : wfState initExpState.
Proof. exact I. Qed.

Lemma walkKept_month now heads :
  forall st, backupMode st = ModeMonth -> walkKept now st heads = [].
Proof.
  induction heads as [|a heads IH]; intros st Hm; [reflexivity|].
  cbn [walkKept]. rewrite (switchBackupMode_month _ _ _ Hm). cbn [deleteSnap].
  apply IH. reflexivity.
Qed.

Lemma walkKept_incl now heads : forall st h, In h (walkKept now st heads) -> In h heads.
Proof.
  induction heads as [|a heads IH]; intros st h; simpl; [tauto|].
  destruct (deleteSnap _); simpl; intros H.
  - right. eapply IH; eauto.
  - destruct H as [->|H]; [left; reflexivity|right; eapply IH; eauto].
Qed.

Lemma walkKept_NoDup now heads : forall st, NoDup heads -> NoDup (walkKept now st heads).
Proof.
  induction heads as [|a heads IH]; intros st HN; simpl; [constructor|].
  inversion HN; subst. destruct (deleteSnap _); [auto|].
  constructor; [|auto]. intros H. apply walkKept_incl in H. auto.
Qed.

Lemma walkKept_count now heads :
  forall st, wfState st ->
    Z.of_nat (List.length (filter (fun h => negb (inCurrentHour now h))
                             (walkKept now st heads))) <= slots st.
Proof.
  induction heads as [|a heads IH]; intros st Hwf.
  - simpl. destruct st as [ds [] c]; unfold wfState, slots in *; simpl in *; lia.
  - cbn [walkKept].
    destruct (switchBackupMode_step now a st Hwf) as (W & S1 & _ & B1 & _).
    specialize (IH _ W).
    destruct (deleteSnap (fst (switchBackupMode now a st))) eqn:Hd; [lia|].
    cbn [filter]. rewrite inCurrentHour_spec.
    destruct (Z.eqb_spec (hourOf now) (hourOf (CreatedOn a))) as [E|E]; cbn [negb].
    + lia.
    + specialize (B1 eq_refl E). cbn [List.length]. lia.
Qed.

Lemma walkKept_frontier now heads :
  forall st, wfState st ->
  forall h, In h (walkKept now st heads) ->
    hourOf now <> hourOf (CreatedOn h) ->
    24 * (time.civilDay now - 7) <= hourOf (CreatedOn h) ->
    hourOf (CreatedOn h) <= frontier now st.
Proof.
  induction heads as [|a heads IH]; intros st Hwf h Hin Hx He; [destruct Hin|].
  cbn [walkKept] in Hin.
  destruct (switchBackupMode_step now a st Hwf) as (W & _ & F1 & _ & C1).
  destruct (deleteSnap (fst (switchBackupMode now a st))) eqn:Hd.
  - specialize (IH _ W h Hin Hx He). lia.
  - destruct Hin as [->|Hin].
    + apply C1; auto.
    + specialize (IH _ W h Hin Hx He). lia.
Qed.

Lemma walkKept_bucket now heads :
  forall st, wfState st ->
  forall h1 h2, In h1 (walkKept now st heads) -> In h2 (walkKept now st heads) ->
    hourOf now <> hourOf (CreatedOn h1) -> hourOf now <> hourOf (CreatedOn h2) ->
    24 * (time.civilDay now - 7) <= hourOf (CreatedOn h1) ->
    24 * (time.civilDay now - 7) <= hourOf (CreatedOn h2) ->
    bucketStart now (hourOf (CreatedOn h1)) = bucketStart now (hourOf (CreatedOn h2)) ->
    h1 = h2.
Proof.
  induction heads as [|a heads IH]; intros st Hwf h1 h2 H1 H2 Hx1 Hx2 He1 He2 Hb;
    [destruct H1|].
  cbn [walkKept] in H1, H2.
  destruct (switchBackupMode_step now a st Hwf) as (W & _ & _ & _ & C1).
  destruct (deleteSnap (fst (switchBackupMode now a st))) eqn:Hd.
  - eapply IH; eauto.
  - pose proof (bucketStart_le now (hourOf (CreatedOn h1))).
    pose proof (bucketStart_le now (hourOf (CreatedOn h2))).
    destruct H1 as [<-|H1]; destruct H2 as [<-|H2].
    + reflexivity.
    + exfalso. specialize (C1 eq_refl Hx1 He1).
      pose proof (walkKept_frontier now heads _ W h2 H2 Hx2 He2). lia.
    + exfalso. specialize (C1 eq_refl Hx2 He2).
      pose proof (walkKept_frontier now heads _ W h1 H1 Hx1 He1). lia.
    + eapply IH; eauto.
Qed.

(** When every delete succeeds, the heads the rounds hand to
    [store.Delete] are those the walk does not keep. *)
Lemma exponential_rounds_kept now st streams calls st' :
  Rounds ExpState expOnFail (expOnOk now) st streams calls st' ->
  Forall (fun c => snd c = None) (List.concat calls) ->
  NoDup (List.concat streams) ->
  forall h, In h (flat_map (firstn 1) streams) ->
    (In h (map fst (List.concat calls))
     <-> ~ In h (walkKept now st (flat_map (firstn 1) streams))).
Proof.
  induction 1 as [v|v x c v1 streams calls v' HR HRs IH]; intros Hok HN h Hh;
    [destruct Hh|].
  destruct (NoDup_concat_cons _ _ HN) as (Hx & Hs & Hdis).
  simpl in Hok. apply Forall_app in Hok. destruct Hok as [Hc Hcs].
  specialize (IH Hcs Hs).
  assert (Hrest : forall a, In a (map fst (List.concat calls)) -> In a (List.concat streams))
    by (eapply rounds_calls_incl; eauto).
  inversion HR as [v0 h0 ds0 ok d rest e E|v0 h0 ds0 Hd|v0 h0 ds0 r Hd]; subst.
  - exfalso. apply Forall_app in Hc. destruct Hc as [_ Hc]. inversion Hc; subst. discriminate.
  - change (flat_map (firstn 1) ((h0 :: ds0) :: streams))
      with (h0 :: flat_map (firstn 1) streams) in *.
    unfold expOnOk in Hd. cbn [snd fst] in Hd. unfold expOnOk in IH. cbn [fst] in IH.
    cbn [walkKept]. rewrite Hd. cbn [List.concat]. rewrite map_app, succeeded_fst.
    inversion Hx as [|? ? Hh0 Hds0]; subst.
    destruct Hh as [<-|Hh].
    + split; [|intros Hf; exfalso; apply Hf; left; reflexivity].
      intros Hin. exfalso. apply in_app_or in Hin. destruct Hin as [Hin|Hin].
      * apply Hh0. apply in_rev. exact Hin.
      * apply (Hdis h0); [left; reflexivity|auto].
    + assert (Hne : h0 <> h).
      { intros ->. apply (Hdis h); [left; reflexivity|apply heads_incl; exact Hh]. }
      rewrite in_app_iff, (IH h Hh). split.
      * intros [Hin|Hin]; [|intros [Hf|Hf]; [auto|auto]].
        exfalso. apply (Hdis h); [right; apply in_rev; exact Hin|apply heads_incl; exact Hh].
      * intros Hn. right. intros Hf. apply Hn. right. exact Hf.
  - change (flat_map (firstn 1) ((h0 :: ds0) :: streams))
      with (h0 :: flat_map (firstn 1) streams) in *.
    unfold expOnOk in Hd. cbn [snd fst] in Hd. unfold expOnOk in IH. cbn [fst] in IH.
    cbn [walkKept]. rewrite Hd. cbn [List.concat]. rewrite !map_app, succeeded_fst.
    inversion Hx as [|? ? Hh0 Hds0]; subst.
    destruct Hh as [<-|Hh].
    + split; [|intros _; apply in_or_app; left; apply in_or_app; right; left; reflexivity].
      intros _ Hf. apply walkKept_incl in Hf.
      apply (Hdis h0); [left; reflexivity|apply heads_incl; exact Hf].
    + rewrite !in_app_iff, (IH h Hh). split.
      * intros [[Hin|[Hin|[]]]|Hin]; [| |exact Hin].
        -- exfalso. apply (Hdis h); [right; apply in_rev; exact Hin|apply heads_incl; exact Hh].
        -- exfalso. apply (Hdis h); [left; exact Hin|apply heads_incl; exact Hh].
      * intros Hn. right. exact Hn.
Qed.

(** A subsequence keeps membership, the absence of repeats and the order. *)
Lemma Subseq_In (a l : list Snapshot) (x : Snapshot) : Subseq a l -> In x a -> In x l.
Proof.
  induction 1 as [l|a b l _ IH|b a l _ IH]; intros Hin.
  - destruct Hin.
  - right. auto.
  - destruct Hin as [->|Hin]; [left; reflexivity|right; auto].
Qed.

Lemma Subseq_NoDup (a l : list Snapshot) : Subseq a l -> NoDup l -> NoDup a.
Proof.
  induction 1 as [l|a b l _ IH|b a l Hs IH]; intros HN.
  - constructor.
  - inversion HN; subst. auto.
  - inversion HN as [|? ? Hb Hl]; subst. constructor; [|auto].
    intros Hin. apply Hb. eapply Subseq_In; eauto.
Qed.

Lemma Subseq_sorted (R : Snapshot -> Snapshot -> Prop) (a l : list Snapshot) :
  Subseq a l -> StronglySorted R l -> StronglySorted R a.
Proof.
  induction 1 as [l|a b l _ IH|b a l Hs IH]; intros HS.
  - constructor.
  - inversion HS; subst. auto.
  - inversion HS as [|? ? Hl Hb]; subst. constructor; [auto|].
    rewrite Forall_forall in *. intros x Hx. apply Hb. eapply Subseq_In; eauto.
Qed.

(** Whatever deletes fail, the rounds of the exponential loop are the walk
    over the heads of the streams whose sweep went through, [passed]: a
    head handed to [store.Delete] is one of them, and one the walk over
    them does not keep. *)
Lemma exponential_rounds_passed now st streams calls st' :
  Rounds ExpState expOnFail (expOnOk now) st streams calls st' ->
  NoDup (List.concat streams) ->
  exists passed,
    Subseq passed (flat_map (firstn 1) streams) /\
    st' = walkState now st passed /\
    forall h, In h (flat_map (firstn 1) streams) ->
      In h (map fst (List.concat calls)) ->
      In h passed /\ ~ In h (walkKept now st passed).
Proof.
  induction 1 as [v|v x c v1 streams calls v' HR HRs IH]; intros HN.
  - exists []. split; [constructor|]. split; [reflexivity|]. intros h [].
  - destruct (NoDup_concat_cons _ _ HN) as (Hx & Hs & Hdis).
    destruct (IH Hs) as (passed & Hsub & Hst & Hdel).
    assert (Hrest : forall a, In a (map fst (List.concat calls)) -> In a (List.concat streams))
      by (eapply rounds_calls_incl; eauto).
    inversion HR as [v0 h0 ds0 ok d rest e E|v0 h0 ds0 Hd|v0 h0 ds0 r Hd]; subst.
    + exists passed.
      change (flat_map (firstn 1) ((h0 :: ds0) :: streams))
        with (h0 :: flat_map (firstn 1) streams).
      split; [apply SubseqSkip; exact Hsub|]. split; [reflexivity|].
      intros h Hh Hin. cbn [List.concat] in Hin. rewrite map_app, in_app_iff in Hin.
      inversion Hx as [|? ? Hh0 Hds0]; subst.
      assert (Hds : forall a, In a (map fst (succeeded ok ++ [(d, Some e)])) -> In a ds0).
      { intros a Ha. rewrite map_app, succeeded_fst in Ha. apply in_rev. rewrite E.
        apply in_app_or in Ha. destruct Ha as [Ha|[<-|[]]];
          [apply in_or_app; left; exact Ha|apply in_elt]. }
      destruct Hin as [Hin|Hin].
      * exfalso. apply Hds in Hin. destruct Hh as [<-|Hh]; [auto|].
        apply (Hdis h); [right; exact Hin|apply heads_incl; exact Hh].
      * destruct Hh as [<-|Hh]; [|auto].
        exfalso. apply (Hdis h0); [left; reflexivity|auto].
    + exists (h0 :: passed).
      change (flat_map (firstn 1) ((h0 :: ds0) :: streams))
        with (h0 :: flat_map (firstn 1) streams).
      unfold expOnOk in Hd, Hdel. cbn [snd fst] in Hd, Hdel.
      split; [apply SubseqTake; exact Hsub|]. split; [reflexivity|].
      intros h Hh Hin. cbn [List.concat] in Hin. rewrite map_app, succeeded_fst, in_app_iff in Hin.
      inversion Hx as [|? ? Hh0 Hds0]; subst.
      cbn [walkKept]. rewrite Hd.
      destruct Hin as [Hin|Hin].
      * exfalso. apply in_rev in Hin. destruct Hh as [<-|Hh]; [auto|].
        apply (Hdis h); [right; exact Hin|apply heads_incl; exact Hh].
      * destruct Hh as [<-|Hh];
          [exfalso; apply (Hdis h0); [left; reflexivity|auto]|].
        destruct (Hdel h Hh Hin) as [Hp Hk]. split; [right; exact Hp|].
        intros [<-|Hf]; [|auto].
        apply (Hdis h0); [left; reflexivity|auto].
    + exists (h0 :: passed).
      change (flat_map (firstn 1) ((h0 :: ds0) :: streams))
        with (h0 :: flat_map (firstn 1) streams).
      unfold expOnOk in Hd, Hdel. cbn [snd fst] in Hd, Hdel.
      split; [apply SubseqTake; exact Hsub|]. split; [reflexivity|].
      intros h Hh Hin. cbn [List.concat] in Hin.
      rewrite !map_app, succeeded_fst, !in_app_iff in Hin.
      inversion Hx as [|? ? Hh0 Hds0]; subst.
      cbn [walkKept]. rewrite Hd.
      destruct Hh as [<-|Hh].
      * split; [left; reflexivity|]. intros Hf. apply walkKept_incl in Hf.
        apply (Hdis h0); [left; reflexivity|].
        apply heads_incl. eapply Subseq_In; eauto.
      * destruct Hin as [[Hin|[Hin|[]]]|Hin].
        -- exfalso. apply in_rev in Hin.
           apply (Hdis h); [right; exact Hin|apply heads_incl; exact Hh].
        -- exfalso. cbn [fst] in Hin. subst h.
           apply (Hdis h0); [left; reflexivity|apply heads_incl; exact Hh].
        -- destruct (Hdel h Hh Hin) as [Hp Hk]. split; [right; exact Hp|exact Hk].
Qed.

Lemma heads_rev (streams : list SnapList) :
  flat_map (firstn 1) (rev streams) = rev (flat_map (firstn 1) streams).
Proof.
  induction streams as [|x streams IH]; [reflexivity|].
  cbn [rev]. rewrite flat_map_app, IH.
  change (flat_map (firstn 1) (x :: streams))
    with (firstn 1 x ++ flat_map (firstn 1) streams).
  rewrite rev_app_distr. f_equal.
  destruct x as [|h ds]; reflexivity.
Qed.

Lemma front_heads (snapList : SnapList) :
  removelast (streamHeads snapList)
  = flat_map (firstn 1) (removelast (snapStreams snapList)).
Proof.
  destruct (list_eq_dec Snapshot_eq_dec snapList []) as [->|Hne]; [reflexivity|].
  rewrite streamHeads_streams.
  rewrite (snapStreams_split_last snapList) at 1.
  rewrite flat_map_app.
  pose proof (snapStreams_nonempty _ Hne) as Hall.
  rewrite Forall_forall in Hall.
  assert (Hlast : last (snapStreams snapList) [] <> []).
  { apply Hall. rewrite (snapStreams_split_last snapList) at 2.
    apply in_or_app. right. left. reflexivity. }
  destruct (last (snapStreams snapList) []) as [|z zs]; [congruence|].
  change (flat_map (firstn 1) [z :: zs]) with [z].
  apply removelast_last.
Qed.

Lemma front_heads_NoDup (snapList : SnapList) :
  NoDup snapList -> NoDup (removelast (streamHeads snapList)).
Proof.
  intros HN. rewrite front_heads.
  apply NoDup_front in HN. revert HN.
  generalize (removelast (snapStreams snapList)) as streams.
  induction streams as [|x0 streams IH]; intros HN; [constructor|].
  destruct (NoDup_concat_cons _ _ HN) as (Hx & Hs & Hdis).
  destruct x0 as [|h deltas]; [simpl; auto|].
  change (flat_map (firstn 1) ((h :: deltas) :: streams))
    with (h :: flat_map (firstn 1) streams).
  constructor; [|auto]. intros Hh. apply (Hdis h); [left; reflexivity|].
  apply heads_incl. exact Hh.
Qed.

Lemma hourOf_bounds (t : time.Time) :
  24 * time.civilDay t <= hourOf t < 24 * time.civilDay t + 24.
Proof.
  rewrite civilDay_hourOf.
  pose proof (Z.div_mod (hourOf t) 24). pose proof (Z.mod_pos_bound (hourOf t) 24). lia.
Qed.

Section ExponentialClaims.

Context {Store : Type} {store : SnapStore Store}.

(** In a pass of the exponential policy in which every delete succeeds, over
    a listing that holds no snapshot twice, the heads handed to
    [store.Delete] are the heads, but the latest, that the walk from the
    newest to the oldest does not keep. *)
Lemma exponential_pass_kept (ssr : Snapshotter) (now : time.Time)
    (s s1 s' : Store) (snapList : SnapList) (r : option unit) (tr : Trace) :
  garbageCollectionPolicy ssr = GarbageCollectionPolicyExponential ->
  NoDup snapList ->
  List s = (s1, inl snapList) ->
  gcPass ssr now s = (r, s', tr) ->
  allDeletesSucceed tr ->
  forall h, In h (removelast (streamHeads snapList)) ->
    (In h (deleteCalls tr)
     <-> ~ In h (walkKept now initExpState (rev (removelast (streamHeads snapList))))).
Proof.
  intros Hp HN HL Hrun Hok h Hh.
  destruct (exponential_pass_rounds ssr now s s1 snapList Hp HL)
    as (s2 & tr2 & calls & st' & Hrun2 & Hd & HR).
  rewrite Hrun2 in Hrun. inversion Hrun; subst r s' tr. clear Hrun.
  apply allDeletesSucceed_results in Hok. rewrite Hd in Hok.
  rewrite front_heads in *. rewrite <- heads_rev.
  rewrite deleteCalls_results, Hd.
  apply (exponential_rounds_kept now _ _ _ _ HR Hok).
  - eapply Permutation_NoDup; [apply Permutation_sym, concat_rev_perm|].
    apply NoDup_front. exact HN.
  - rewrite heads_rev. apply -> in_rev. exact Hh.
Qed.

(** Whatever deletes fail in a pass of the exponential policy over a listing
    that holds no snapshot twice: the heads, but the latest, whose streams
    were swept through are walked from the newest to the oldest, and a head
    handed to [store.Delete] is one of them that this walk does not keep. *)
Lemma exponential_pass_passed (ssr : Snapshotter) (now : time.Time)
    (s s1 s' : Store) (snapList : SnapList) (r : option unit) (tr : Trace) :
  garbageCollectionPolicy ssr = GarbageCollectionPolicyExponential ->
  NoDup snapList ->
  List s = (s1, inl snapList) ->
  gcPass ssr now s = (r, s', tr) ->
  exists passed,
    Subseq passed (rev (removelast (streamHeads snapList))) /\
    forall h, In h (removelast (streamHeads snapList)) -> In h (deleteCalls tr) ->
      In h passed /\ ~ In h (walkKept now initExpState passed).
Proof.
  intros Hp HN HL Hrun.
  destruct (exponential_pass_rounds ssr now s s1 snapList Hp HL)
    as (s2 & tr2 & calls & st' & Hrun2 & Hd & HR).
  rewrite Hrun2 in Hrun. inversion Hrun; subst r s' tr. clear Hrun.
  destruct (exponential_rounds_passed now _ _ _ _ HR) as (passed & Hsub & _ & Hdel).
  { eapply Permutation_NoDup; [apply Permutation_sym, concat_rev_perm|].
    apply NoDup_front. exact HN. }
  exists passed. rewrite front_heads, <- heads_rev. split; [exact Hsub|].
  intros h Hh Hin. apply Hdel.
  - rewrite heads_rev. apply -> in_rev. exact Hh.
  - rewrite <- Hd, <- deleteCalls_results. exact Hin.
Qed.

(** The head of the latest stream is not handed to [store.Delete] by a pass
    of the exponential policy over a listing that holds no snapshot twice. *)
Lemma exponential_pass_latest_head (ssr : Snapshotter) (now : time.Time)
    (s s1 s' : Store) (snapList : SnapList) (r : option unit) (tr : Trace)
    (front : list Snapshot) (latest : Snapshot) :
  garbageCollectionPolicy ssr = GarbageCollectionPolicyExponential ->
  NoDup snapList ->
  List s = (s1, inl snapList) ->
  gcPass ssr now s = (r, s', tr) ->
  streamHeads snapList = front ++ [latest] ->
  ~ In latest (deleteCalls tr).
Proof.
  intros Hp HN HL Hrun E Hdel.
  destruct (exponential_pass_rounds ssr now s s1 snapList Hp HL)
    as (s2 & tr2 & calls & st' & Hrun2 & Hd & HR).
  rewrite Hrun2 in Hrun. inversion Hrun; subst r s' tr. clear Hrun.
  assert (Hin : In latest (List.concat (removelast (snapStreams snapList)))).
  { eapply Permutation_in; [apply concat_rev_perm|].
    eapply rounds_calls_incl; eauto. rewrite <- Hd, <- deleteCalls_results. exact Hdel. }
  assert (Hne : snapList <> []).
  { intros ->. destruct front; discriminate E. }
  pose proof (snapStreams_nonempty _ Hne) as Hall.
  rewrite Forall_forall in Hall.
  assert (Hlast : last (snapStreams snapList) [] <> []).
  { apply Hall. rewrite (snapStreams_split_last snapList) at 2.
    apply in_or_app. right. left. reflexivity. }
  rewrite streamHeads_streams in E.
  rewrite (snapStreams_split_last snapList) in E at 1.
  rewrite flat_map_app in E.
  rewrite <- (snapStreams_concat snapList) in HN.
  rewrite (snapStreams_split_last snapList), concat_app in HN.
  destruct (last (snapStreams snapList) []) as [|z zs]; [congruence|].
  change (flat_map (firstn 1) [z :: zs]) with [z] in E.
  apply app_inj_tail in E. destruct E as [_ ->].
  apply (NoDup_app_disjoint _ _ latest HN Hin). left. reflexivity.
Qed.

(** C3, as the code has it: after a pass of the exponential policy in which
    every delete succeeds, over a listing that holds no snapshot twice, the
    heads left other than the latest and those of the hour of [now] are at
    most 35; of the heads left other than the latest, at most one is in an
    hour bucket of [now]'s date other than the hour of [now], and at most
    one in each day bucket.  The head of the latest stream is left besides,
    whatever bucket it is in. *)
Theorem exponential_survivors_bounded (ssr : Snapshotter) (now : time.Time)
    (s s1 s' : Store) (snapList : SnapList) (r : option unit) (tr : Trace) :
  garbageCollectionPolicy ssr = GarbageCollectionPolicyExponential ->
  NoDup snapList ->
  List s = (s1, inl snapList) ->
  gcPass ssr now s = (r, s', tr) ->
  allDeletesSucceed tr ->
  let survivors :=
    filter (fun h => negb (mem h (deleteCalls tr))) (removelast (streamHeads snapList)) in
  (List.length (filter (fun h => negb (inCurrentHour now h)) survivors) <= 35)%nat /\
  (forall c h1 h2,
      0 <= c <= 23 -> hourAnchor now c <> time.Truncate now time.Hour ->
      In h1 survivors -> In h2 survivors ->
      inHourBucket now c h1 -> inHourBucket now c h2 -> h1 = h2) /\
  (forall c h1 h2,
      0 <= c <= 6 ->
      In h1 survivors -> In h2 survivors ->
      inDayBucket now c h1 -> inDayBucket now c h2 -> h1 = h2) /\
  (forall front latest,
      streamHeads snapList = front ++ [latest] -> ~ In latest (deleteCalls tr)).
Proof.
  intros Hp HN HL Hrun Hok survivors.
  pose proof (exponential_pass_kept ssr now s s1 s' snapList r tr Hp HN HL Hrun Hok) as Hkept.
  set (front := removelast (streamHeads snapList)) in *.
  set (kept := walkKept now initExpState (rev front)) in *.
  assert (HNf : NoDup front).
  { unfold front. rewrite front_heads.
    apply NoDup_front in HN. revert HN.
    generalize (removelast (snapStreams snapList)) as streams.
    induction streams as [|x streams IH]; intros HN; [constructor|].
    destruct (NoDup_concat_cons _ _ HN) as (Hx & Hs & Hdis).
    destruct x as [|h deltas]; [simpl; auto|].
    change (flat_map (firstn 1) ((h :: deltas) :: streams))
      with (h :: flat_map (firstn 1) streams).
    constructor; [|auto]. intros Hh. apply (Hdis h); [left; reflexivity|].
    apply heads_incl. exact Hh. }
  assert (Hsame : forall h, In h survivors <-> In h kept).
  { intros h. unfold survivors. rewrite filter_In. split.
    - intros [Hin Hm]. apply negb_true_iff, mem_not_In in Hm.
      destruct (in_dec Snapshot_eq_dec h kept) as [Hk|Hk]; [exact Hk|].
      exfalso. apply Hm. apply (Hkept h Hin). exact Hk.
    - intros Hk. assert (Hin : In h front).
      { apply in_rev. eapply walkKept_incl. exact Hk. }
      split; [exact Hin|]. apply negb_true_iff, mem_not_In.
      intros Hdel. apply (Hkept h Hin) in Hdel. auto. }
  split; [|split; [|split]].
  - assert (Hperm : Permutation
              (filter (fun h => negb (inCurrentHour now h)) survivors)
              (filter (fun h => negb (inCurrentHour now h)) kept)).
    { apply NoDup_Permutation.
      - apply NoDup_filter. apply NoDup_filter. exact HNf.
      - apply NoDup_filter. apply walkKept_NoDup. apply NoDup_rev. exact HNf.
      - intros h. rewrite !filter_In, Hsame. tauto. }
    rewrite (Permutation_length Hperm).
    pose proof (walkKept_count now (rev front) initExpState wfState_init) as Hc.
    fold kept in Hc. unfold slots, initExpState in Hc. simpl in Hc. lia.
  - intros c h1 h2 Hc Hnc H1 H2 B1 B2.
    apply Hsame in H1. apply Hsame in H2.
    apply inHourBucket_spec in B1. apply inHourBucket_spec in B2.
    assert (Hx : hourOf now <> 24 * time.civilDay now + c).
    { intros E. apply Hnc. rewrite hourAnchor_hours, Truncate_hour, E. reflexivity. }
    apply (walkKept_bucket now (rev front) initExpState wfState_init h1 h2 H1 H2);
      rewrite ?B1, ?B2; auto; lia.
  - intros c h1 h2 Hc H1 H2 B1 B2.
    apply Hsame in H1. apply Hsame in H2.
    apply inDayBucket_spec in B1. apply inDayBucket_spec in B2.
    pose proof (x_bounds h1) as X1. pose proof (x_bounds h2) as X2.
    pose proof (hourOf_bounds now) as Xn.
    apply (walkKept_bucket now (rev front) initExpState wfState_init h1 h2 H1 H2);
      try lia.
    unfold bucketStart.
    destruct (Z.leb_spec (24 * time.civilDay now) (hourOf (CreatedOn h1))); [lia|].
    destruct (Z.leb_spec (24 * time.civilDay now) (hourOf (CreatedOn h2))); [lia|].
    rewrite <- !y_of_x. lia.
  - intros front0 latest E.
    exact (exponential_pass_latest_head ssr now s s1 s' snapList r tr front0 latest
             Hp HN HL Hrun E).
Qed.

End ExponentialClaims.

(** ** The walk down a sorted list *)

Section SortedStep.

Variable now : time.Time.
Variable snap : Snapshot.

Abbreviation D := (time.civilDay now).
Abbreviation x := (hourOf (CreatedOn snap)).
Abbreviation y := (time.civilDay (CreatedOn snap)).

Ltac div_bounds :=
  repeat match goal with
         | |- context [?a / 24] =>
             lazymatch goal with
             | _ : a = 24 * (a / 24) + a mod 24 |- _ => fail
             | _ => pose proof (Z.div_mod a 24 ltac:(lia));
                    pose proof (Z.mod_pos_bound a 24 ltac:(lia))
             end
         | _ : context [?a / 24] |- _ =>
             lazymatch goal with
             | _ : a = 24 * (a / 24) + a mod 24 |- _ => fail
             | _ => pose proof (Z.div_mod a 24 ltac:(lia));
                    pose proof (Z.mod_pos_bound a 24 ltac:(lia))
             end
         end.

Ltac facts_cases :=
  unfold stepFacts, walkInv;
  cbn [backupMode backupCount deleteSnap];
  pose proof (x_bounds snap); pose proof (hourOf_bounds now);
  repeat split; intros;
  repeat match goal with
         | H : exists _, _ |- _ => destruct H
         | H : _ /\ _ |- _ => destruct H
         | H : ?q = Some _ |- _ => is_var q; subst q
         | H : ?q = None |- _ => is_var q; subst q
         | H : forall xp, Some ?a = Some xp -> _ |- _ => specialize (H a eq_refl)
         | H : forall xp, None = Some xp -> _ |- _ => clear H
         | H : Some _ = Some _ |- _ => inversion H; clear H; subst
         | H : None = Some _ |- _ => discriminate H
         end;
  unfold bucketStart in *;
  rewrite <- ?(y_of_x snap) in *;
  repeat match goal with
         | H : context [?a <=? ?b] |- _ => destruct (Z.leb_spec a b)
         | |- context [?a <=? ?b] => destruct (Z.leb_spec a b)
         end;
  div_bounds;
  first [discriminate | congruence | lia].

Lemma caseWeek_facts c ds p :
  0 <= c <= 3 -> y <= D - 7 ->
  (y = D - 7 -> c = 3 /\ exists xp, p = Some xp /\ xp / 24 = D - 7) ->
  stepFacts now snap p (fst (caseWeek now snap (mkExpState ds ModeWeek c))).
Proof.
  intros Hc Hy Hp. pose proof (x_bounds snap) as Hb.
  assert (Hp' : y < D - 7 \/ (y = D - 7 /\ c = 3 /\ exists xp, p = Some xp /\ xp / 24 = D - 7)).
  { destruct (Z.eq_dec y (D - 7)) as [E|E]; [right; split; [exact E|apply Hp; exact E]|left; lia]. }
  clear Hp.
  destruct (Z_le_gt_dec (24 * (D - 35 + 7 * c) - x) (-168)) as [Hm|Hm].
  - rewrite caseWeek_newer by lia. destruct Hp' as [Hp|(Hp1 & Hp2 & xp & Hp3 & Hp4)]; facts_cases.
  - destruct (caseWeek_descend now snap c ds) as [(c' & Hc' & ->)|[-> | ->]]; try lia;
      destruct Hp' as [Hp|(Hp1 & Hp2 & xp & Hp3 & Hp4)]; facts_cases.
Qed.


Lemma caseDay_facts c ds p :
  0 <= c <= 6 ->
  (x < 24 * D /\ c = 6 /\ forall xp, p = Some xp -> 24 * D <= xp) \/
  (exists xp, p = Some xp /\ x <= xp /\ xp <= 24 * D /\
     D - 7 + c < xp / 24 /\ (c = 6 \/ xp / 24 <= D - 7 + c + 1)) ->
  stepFacts now snap p (fst (caseDay now snap (mkExpState ds ModeDay c))).
Proof.
  intros Hc Hp. pose proof (x_bounds snap) as Hb.
  rewrite caseDay_spec by lia.
  destruct (Z.ltb_spec (D - 7 + c) y) as [Hy|Hy].
  - destruct Hp as [(Hp1 & Hp2 & Hp3)|(xp & Hp1 & Hp2 & Hp3 & Hp4 & Hp5)]; facts_cases.
  - destruct (Z.leb_spec (D - 7) y) as [Hy2|Hy2].
    + destruct (Z.eqb_spec y (D - 7));
        destruct Hp as [(Hp1 & Hp2 & Hp3)|(xp & Hp1 & Hp2 & Hp3 & Hp4 & Hp5)]; facts_cases.
    + apply caseWeek_facts; lia.
Qed.

Lemma caseHour_facts c ds p :
  0 <= c <= 23 ->
  (c = 23 /\ hourOf now <> x /\ forall xp, p = Some xp -> xp = hourOf now /\ x <= xp) \/
  (exists xp, p = Some xp /\ x <= xp /\ 24 * D + c < xp /\
     (c = 23 \/ xp <= 24 * D + c + 1)) ->
  stepFacts now snap p (fst (caseHour now snap (mkExpState ds ModeHour c))).
Proof.
  intros Hc Hp. pose proof (x_bounds snap) as Hb. pose proof (hourOf_bounds now) as Hn.
  rewrite caseHour_spec by lia.
  destruct (Z.ltb_spec (24 * D + c) x) as [Hx|Hx].
  - destruct Hp as [(Hp1 & Hp2 & Hp3)|(xp & Hp1 & Hp2 & Hp3 & Hp4)];
      [destruct p as [xp|]; [destruct (Hp3 xp eq_refl)|]|]; facts_cases.
  - destruct (Z.leb_spec (24 * D) x) as [Hx2|Hx2].
    + destruct (Z.eqb_spec x (24 * D));
        (destruct Hp as [(Hp1 & Hp2 & Hp3)|(xp & Hp1 & Hp2 & Hp3 & Hp4)];
         [destruct p as [xp|]; [destruct (Hp3 xp eq_refl)|]|]); facts_cases.
    + apply caseDay_facts; [lia|]. left. split; [lia|]. split; [reflexivity|].
      intros xp E. destruct Hp as [(Hp1 & Hp2 & Hp3)|(xp' & Hp1 & Hp2 & Hp3 & Hp4)].
      * destruct (Hp3 xp E). lia.
      * rewrite Hp1 in E. inversion E; subst. lia.
Qed.

Lemma switchBackupMode_facts st p :
  walkInv now st p -> (forall xp, p = Some xp -> x <= xp) ->
  stepFacts now snap p (fst (switchBackupMode now snap st)).
Proof.
  destruct st as [ds mode c]. unfold switchBackupMode, walkInv.
  cbn [backupMode backupCount]. intros Hinv Hle.
  pose proof (x_bounds snap) as Hb. pose proof (hourOf_bounds now) as Hn.
  destruct p as [xp|].
  - specialize (Hle xp eq_refl).
    pose proof (Z.div_mod xp 24 ltac:(lia)). pose proof (Z.mod_pos_bound xp 24 ltac:(lia)).
    destruct mode.
    + rewrite caseNone_spec. cbn [backupMode backupCount].
      destruct (Z.eqb_spec (hourOf now) x).
      * subst xp. facts_cases.
      * apply caseHour_facts; [lia|]. left. split; [reflexivity|]. split; [assumption|].
        intros xp' E. inversion E; subst. lia.
    + apply caseHour_facts; [lia|]. right. exists xp. repeat split; try lia.
    + apply caseDay_facts; [lia|]. right. exists xp. repeat split; try lia.
    + apply caseWeek_facts; try lia.
      intros E. split; [lia|]. exists xp. split; [reflexivity|]. lia.
    + cbn [caseMonth fst]. facts_cases.
  - subst mode. rewrite caseNone_spec. cbn [backupMode backupCount].
    destruct (Z.eqb_spec (hourOf now) x).
    + facts_cases.
    + apply caseHour_facts; [lia|]. left. split; [reflexivity|]. split; [assumption|].
      intros xp' E. discriminate.
Qed.

End SortedStep.

Lemma StronglySorted_app_inv {A} (R : A -> A -> Prop) (a b : list A) :
  StronglySorted R (a ++ b) ->
  StronglySorted R a /\ StronglySorted R b /\ (forall u v, In u a -> In v b -> R u v).
Proof.
  induction a as [|z a IH]; simpl; intros H.
  - split; [constructor|]. split; [exact H|]. intros u v [].
  - inversion H as [|? ? Hs Hf]; subst. destruct (IH Hs) as (Ha & Hb & Hab).
    rewrite Forall_app in Hf. destruct Hf as [Hfa Hfb].
    split; [constructor; assumption|]. split; [exact Hb|].
    intros u v [<-|Hu] Hv.
    + rewrite Forall_forall in Hfb. auto.
    + auto.
Qed.

Lemma StronglySorted_rev {A} (R : A -> A -> Prop) (l : list A) :
  StronglySorted R l -> StronglySorted (fun a b => R b a) (rev l).
Proof.
  induction 1 as [|z l Hs IH Hf]; simpl; [constructor|].
  revert IH. generalize (rev_involutive l). generalize (rev l) as m. intros m Em IH.
  assert (Hall : Forall (fun u => R z u) m).
  { rewrite Forall_forall in *. intros u Hu. apply Hf. rewrite <- Em. apply -> in_rev. exact Hu. }
  clear Em Hf Hs. induction IH as [|w m Hs IHm Hf]; simpl.
  - constructor; constructor.
  - inversion Hall; subst. constructor; [auto|].
    apply Forall_app. split; [exact Hf|]. constructor; [assumption|constructor].
Qed.

Lemma sorted_heads (R : Snapshot -> Snapshot -> Prop) (streams : list SnapList) :
  StronglySorted R (List.concat streams) -> StronglySorted R (flat_map (firstn 1) streams).
Proof.
  induction streams as [|z streams IH]; intros H; [constructor|].
  simpl in H. destruct (StronglySorted_app_inv _ _ _ H) as (Hz & Hs & Hzs).
  destruct z as [|h deltas]; [simpl; auto|].
  change (flat_map (firstn 1) ((h :: deltas) :: streams))
    with (h :: flat_map (firstn 1) streams).
  constructor; [auto|]. rewrite Forall_forall. intros u Hu.
  apply Hzs; [left; reflexivity|apply heads_incl; exact Hu].
Qed.

Lemma hourOf_mono (t u : time.Time) : t <= u -> hourOf t <= hourOf u.
Proof. intros H. unfold hourOf. apply Z.div_le_mono; [apply Hour_pos|exact H]. Qed.

Lemma bucketStart_mono now a b : a <= b -> bucketStart now a <= bucketStart now b.
Proof.
  intros H. unfold bucketStart.
  destruct (Z.leb_spec (24 * time.civilDay now) a);
    destruct (Z.leb_spec (24 * time.civilDay now) b); try lia.
  - pose proof (Z.div_mod a 24 ltac:(lia)). pose proof (Z.mod_pos_bound a 24 ltac:(lia)). lia.
  - apply Z.mul_le_mono_nonneg_l; [lia|]. apply Z.div_le_mono; lia.
Qed.

Lemma walkState_snoc now st heads h :
  walkState now st (heads ++ [h]) = fst (switchBackupMode now h (walkState now st heads)).
Proof. unfold walkState. rewrite fold_left_app. reflexivity. Qed.

Lemma lastHour_snoc heads h : lastHour (heads ++ [h]) = Some (hourOf (CreatedOn h)).
Proof. unfold lastHour. rewrite rev_app_distr. reflexivity. Qed.

Lemma lastHour_in heads xp :
  lastHour heads = Some xp -> exists h, In h heads /\ hourOf (CreatedOn h) = xp.
Proof.
  unfold lastHour. destruct (rev heads) as [|a m] eqn:E; [discriminate|].
  intros H. inversion H; subst. exists a. split; [|reflexivity].
  apply in_rev. rewrite E. left. reflexivity.
Qed.

Lemma walk_facts now heads :
  newestFirst heads ->
  walkInv now (walkState now initExpState heads) (lastHour heads) /\
  forall h, newestFirst (heads ++ [h]) ->
    stepFacts now h (lastHour heads) (walkState now initExpState (heads ++ [h])).
Proof.
  induction heads as [|a heads IH] using rev_ind; intros Hs.
  - assert (Hinv : walkInv now (walkState now initExpState []) (lastHour [])) by reflexivity.
    split; [exact Hinv|]. intros h _. rewrite walkState_snoc.
    apply switchBackupMode_facts; [exact Hinv|]. intros xp E. discriminate.
  - destruct (StronglySorted_app_inv _ _ _ Hs) as (Hh & _ & _).
    destruct (IH Hh) as [_ Hstep]. specialize (Hstep a Hs).
    assert (Hinv : walkInv now (walkState now initExpState (heads ++ [a]))
                     (lastHour (heads ++ [a]))).
    { rewrite lastHour_snoc. apply Hstep. }
    split; [exact Hinv|]. intros h Hs2. rewrite walkState_snoc.
    apply switchBackupMode_facts; [exact Hinv|].
    rewrite lastHour_snoc. intros xp E. inversion E; subst.
    apply hourOf_mono.
    destruct (StronglySorted_app_inv _ _ _ Hs2) as (_ & _ & Hab).
    apply (Hab a h); [apply in_or_app; right; left; reflexivity|left; reflexivity].
Qed.

(** The decision on a head, walking a list sorted newest first: a head in an
    hour bucket of [now]'s date or in a day bucket is kept when no head
    before it is of its bucket, and deleted when one is, the hour of [now]
    apart. *)
Lemma walk_decision now pre h :
  newestFirst (pre ++ [h]) ->
  (24 * (time.civilDay now - 7) <= hourOf (CreatedOn h) <= 24 * time.civilDay now + 23 ->
   (forall h', In h' pre ->
      bucketStart now (hourOf (CreatedOn h')) <> bucketStart now (hourOf (CreatedOn h))) ->
   deleteSnap (walkState now initExpState (pre ++ [h])) = false) /\
  (24 * (time.civilDay now - 7) <= hourOf (CreatedOn h) ->
   hourOf now <> hourOf (CreatedOn h) ->
   (exists h', In h' pre /\
      bucketStart now (hourOf (CreatedOn h')) = bucketStart now (hourOf (CreatedOn h))) ->
   deleteSnap (walkState now initExpState (pre ++ [h])) = true).
Proof.
  intros Hs. destruct (StronglySorted_app_inv _ _ _ Hs) as (Hpre & _ & Hab).
  destruct (walk_facts now pre Hpre) as [_ Hstep].
  destruct (Hstep h Hs) as (_ & S1 & S2). split.
  - intros He Hno. apply S1; [exact He|].
    intros xp E. destruct (lastHour_in _ _ E) as (h' & Hin & <-). auto.
  - intros He Hc (h' & Hin & Hb). apply S2; [exact He|exact Hc|].
    destruct (lastHour pre) as [xp|] eqn:E.
    + exists xp. split; [reflexivity|].
      (* the last head lies between [h] and [h'] *)
      assert (Hlo : hourOf (CreatedOn h) <= xp).
      { destruct (lastHour_in _ _ E) as (a & Ha & <-). apply hourOf_mono.
        apply (Hab a h Ha). left. reflexivity. }
      assert (Hhi : xp <= hourOf (CreatedOn h')).
      { unfold lastHour in E. destruct (rev pre) as [|a m] eqn:Er; [discriminate|].
        inversion E; subst. apply hourOf_mono.
        assert (Epre : pre = rev m ++ [a]).
        { rewrite <- (rev_involutive pre), Er. reflexivity. }
        rewrite Epre in Hpre, Hin.
        destruct (StronglySorted_app_inv _ _ _ Hpre) as (_ & _ & Hma).
        apply in_app_or in Hin. destruct Hin as [Hin|[<-|[]]]; [|lia].
        apply (Hma h' a Hin). left. reflexivity. }
      pose proof (bucketStart_mono now _ _ Hlo). pose proof (bucketStart_mono now _ _ Hhi). lia.
    + exfalso. unfold lastHour in E. destruct (rev pre) as [|a m] eqn:Er; [|discriminate].
      assert (pre = []) by (rewrite <- (rev_involutive pre), Er; reflexivity).
      subst pre. destruct Hin.
Qed.

Lemma walkKept_app now a : forall st b,
  walkKept now st (a ++ b) = walkKept now st a ++ walkKept now (walkState now st a) b.
Proof.
  induction a as [|h a IH]; intros st b; [reflexivity|].
  cbn [app walkKept]. rewrite IH. unfold walkState. cbn [fold_left].
  destruct (deleteSnap _); reflexivity.
Qed.

Lemma walkKept_mid now pre h post :
  NoDup (pre ++ h :: post) ->
  (In h (walkKept now initExpState (pre ++ h :: post))
   <-> deleteSnap (walkState now initExpState (pre ++ [h])) = false).
Proof.
  intros HN. rewrite walkKept_app. cbn [walkKept]. rewrite walkState_snoc.
  assert (Hpre : ~ In h pre).
  { intros Hin. apply (NoDup_app_disjoint _ _ h HN Hin). left. reflexivity. }
  assert (Hpost : ~ In h post).
  { apply NoDup_app_remove_l in HN. inversion HN; auto. }
  rewrite in_app_iff.
  destruct (deleteSnap (fst (switchBackupMode now h (walkState now initExpState pre)))) eqn:Hd.
  - split; [|discriminate]. intros [Hin|Hin]; apply walkKept_incl in Hin; tauto.
  - split; [reflexivity|]. intros _. right. left. reflexivity.
Qed.

Lemma hour_bucket_same now c h h' :
  0 <= c -> inHourBucket now c h ->
  (bucketStart now (hourOf (CreatedOn h')) = bucketStart now (hourOf (CreatedOn h))
   <-> inHourBucket now c h').
Proof.
  intros Hc Hh. rewrite inHourBucket_spec in *. unfold bucketStart. rewrite Hh.
  pose proof (x_bounds h') as Hb. rewrite y_of_x in Hb.
  destruct (Z.leb_spec (24 * time.civilDay now) (24 * time.civilDay now + c)); [|lia].
  destruct (Z.leb_spec (24 * time.civilDay now) (hourOf (CreatedOn h'))); lia.
Qed.

Lemma day_bucket_same now c h h' :
  0 <= c <= 6 -> inDayBucket now c h ->
  (bucketStart now (hourOf (CreatedOn h')) = bucketStart now (hourOf (CreatedOn h))
   <-> inDayBucket now c h').
Proof.
  intros Hc Hh. rewrite inDayBucket_spec in *. unfold bucketStart.
  pose proof (x_bounds h') as Hb'. pose proof (x_bounds h) as Hb.
  rewrite <- !y_of_x.
  destruct (Z.leb_spec (24 * time.civilDay now) (hourOf (CreatedOn h))); [lia|].
  destruct (Z.leb_spec (24 * time.civilDay now) (hourOf (CreatedOn h'))); lia.
Qed.

Lemma later_index {A} (a b : list A) (h h' : A) :
  In h' b <-> exists j, (List.length a < j)%nat /\ nth_error (a ++ h :: b) j = Some h'.
Proof.
  split.
  - intros Hin. apply In_nth_error in Hin. destruct Hin as [k Hk].
    exists (List.length a + S k)%nat. split; [lia|].
    rewrite nth_error_app2 by lia.
    replace (List.length a + S k - List.length a)%nat with (S k) by lia. exact Hk.
  - intros (j & Hj & E). rewrite nth_error_app2 in E by lia.
    destruct (j - List.length a)%nat as [|k] eqn:Ek; [lia|]. simpl in E.
    eapply nth_error_In; eauto.
Qed.

Lemma exists_dec_in {A} (P : A -> Prop) (l : list A) :
  (forall a, P a \/ ~ P a) ->
  (exists a, In a l /\ P a) \/ ~ (exists a, In a l /\ P a).
Proof.
  intros Hdec. induction l as [|w l IHl]; [right; intros (a & [] & _)|].
  destruct (Hdec w) as [Hw|Hw]; [left; exists w; split; [left; reflexivity|exact Hw]|].
  destruct IHl as [(a & Hin & Ha)|Hn]; [left; exists a; split; [right; exact Hin|exact Ha]|].
  right. intros (a & [<-|Hin] & Ha); [auto|]. apply Hn. exists a. auto.
Qed.

Lemma exists_last_in {A} (P : A -> Prop) (l : list A) :
  (forall a, P a \/ ~ P a) ->
  (exists a, In a l /\ P a) ->
  exists pre h post, l = pre ++ h :: post /\ P h /\ forall a, In a post -> ~ P a.
Proof.
  intros Hdec. induction l as [|z l IH]; intros (a & Hin & Ha); [destruct Hin|].
  destruct (exists_dec_in P l Hdec) as [Hex|Hno].
  - destruct (IH Hex) as (pre & h & post & -> & Hh & Hpost).
    exists (z :: pre), h, post. auto.
  - destruct Hin as [<-|Hin]; [|exfalso; apply Hno; exists a; auto].
    exists [], z, l. split; [reflexivity|]. split; [exact Ha|].
    intros b Hb Hpb. apply Hno. exists b. auto.
Qed.

Section SortedClaims.

Context {Store : Type} {store : SnapStore Store}.

(** In a pass of the exponential policy in which every delete succeeds, over
    a listing sorted by time that holds no snapshot twice: a head, not the
    latest, is handed to [store.Delete] when the walk, having seen the heads
    newer than it, newest first, decides so. *)
Lemma exponential_pass_decision (ssr : Snapshotter) (now : time.Time)
    (s s1 s' : Store) (snapList : SnapList) (r : option unit) (tr : Trace)
    (older newer : list Snapshot) (h : Snapshot) :
  garbageCollectionPolicy ssr = GarbageCollectionPolicyExponential ->
  NoDup snapList ->
  sortedByTime snapList ->
  List s = (s1, inl snapList) ->
  gcPass ssr now s = (r, s', tr) ->
  allDeletesSucceed tr ->
  removelast (streamHeads snapList) = older ++ h :: newer ->
  newestFirst (rev newer ++ [h]) /\
  (In h (deleteCalls tr)
   <-> deleteSnap (walkState now initExpState (rev newer ++ [h])) = true).
Proof.
  intros Hp HN Hsorted HL Hrun Hok Efront.
  pose proof (exponential_pass_kept ssr now s s1 s' snapList r tr Hp HN HL Hrun Hok) as Hkept.
  assert (Hs : newestFirst (rev (removelast (streamHeads snapList)))).
  { unfold newestFirst. apply StronglySorted_rev.
    rewrite front_heads. apply sorted_heads.
    unfold sortedByTime in Hsorted.
    rewrite <- (snapStreams_concat snapList) in Hsorted.
    rewrite snapStreams_split_last, concat_app in Hsorted.
    apply StronglySorted_app_inv in Hsorted. tauto. }
  assert (HNf : NoDup (rev (removelast (streamHeads snapList)))).
  { apply NoDup_rev. rewrite front_heads.
    apply NoDup_front in HN. revert HN.
    generalize (removelast (snapStreams snapList)) as streams.
    induction streams as [|z streams IH]; intros HN; [constructor|].
    destruct (NoDup_concat_cons _ _ HN) as (Hz & Hss & Hdis).
    destruct z as [|a deltas]; [simpl; auto|].
    change (flat_map (firstn 1) ((a :: deltas) :: streams))
      with (a :: flat_map (firstn 1) streams).
    constructor; [|auto]. intros Ha. apply (Hdis a); [left; reflexivity|].
    apply heads_incl. exact Ha. }
  rewrite Efront in *. rewrite rev_app_distr in Hs, HNf, Hkept.
  cbn [rev] in Hs, HNf, Hkept. rewrite <- app_assoc in Hs, HNf, Hkept.
  cbn [app] in Hs, HNf, Hkept.
  split.
  - replace (rev newer ++ h :: rev older) with ((rev newer ++ [h]) ++ rev older) in Hs
      by (rewrite <- app_assoc; reflexivity).
    apply StronglySorted_app_inv in Hs. tauto.
  - rewrite (Hkept h) by (apply in_elt).
    rewrite (walkKept_mid now (rev newer) h (rev older) HNf).
    destruct (deleteSnap _); split; intros H; try reflexivity; try discriminate;
      exfalso; apply H; reflexivity.
Qed.

(** The heads, but the latest, of a listing sorted by time are sorted by
    time. *)
Lemma front_sorted (snapList : SnapList) :
  sortedByTime snapList -> sortedByTime (removelast (streamHeads snapList)).
Proof.
  unfold sortedByTime. intros Hsorted. rewrite front_heads. apply sorted_heads.
  rewrite <- (snapStreams_concat snapList) in Hsorted.
  rewrite snapStreams_split_last, concat_app in Hsorted.
  apply StronglySorted_app_inv in Hsorted. tauto.
Qed.

(** When a head of a bucket [P] goes if and only if a later head of the list
    is in the bucket, the last head of the bucket stays and every other head
    of the bucket goes. *)
Lemma last_of_bucket_stays (front : list Snapshot) (del P : Snapshot -> Prop) :
  (forall a, P a \/ ~ P a) ->
  (forall i h, nth_error front i = Some h -> P h ->
     (del h <-> exists j h', (i < j)%nat /\ nth_error front j = Some h' /\ P h')) ->
  (exists h, In h front /\ P h) ->
  exists older k newer,
    front = older ++ k :: newer /\ P k /\ ~ del k /\
    (forall h, In h newer -> ~ P h) /\
    (forall h, In h older -> P h -> del h).
Proof.
  intros Hdec Hiff Hex.
  destruct (exists_last_in P front Hdec Hex) as (older & k & newer & E & Hk & Hnone).
  exists older, k, newer. split; [exact E|]. split; [exact Hk|].
  assert (Hnth : nth_error front (List.length older) = Some k).
  { rewrite E. rewrite nth_error_app2 by lia. rewrite Nat.sub_diag. reflexivity. }
  split; [|split; [exact Hnone|]].
  - intros Hd. apply (Hiff _ _ Hnth Hk) in Hd. destruct Hd as (j & h' & Hj & Ej & Hp).
    apply (Hnone h'); [|exact Hp].
    apply (later_index older newer k h'). exists j. rewrite <- E. auto.
  - intros h Hin Hp. apply In_nth_error in Hin. destruct Hin as (i & Ei).
    assert (Hi : (i < List.length older)%nat) by (apply nth_error_Some; congruence).
    assert (Ei' : nth_error front i = Some h) by (rewrite E, nth_error_app1; assumption).
    apply (Hiff _ _ Ei' Hp). exists (List.length older), k. auto.
Qed.

(** C1, as the code has it: in a pass of the exponential policy in which
    every delete succeeds, over a listing sorted by time that holds no
    snapshot twice, take an hour bucket of [now]'s date other than the hour
    of [now], or a day bucket.  A head in it, not the latest of the listing,
    is handed to [store.Delete] if and only if a newer head, not the latest
    either, is in the same bucket.  So of the heads of a bucket, the latest
    of the listing apart, exactly one is kept, the newest, and every other
    is deleted.  The head of the latest stream is kept besides, whatever
    bucket it is in. *)
Theorem exponential_keeps_newest_of_bucket (ssr : Snapshotter) (now : time.Time)
    (s s1 s' : Store) (snapList : SnapList) (r : option unit) (tr : Trace) :
  garbageCollectionPolicy ssr = GarbageCollectionPolicyExponential ->
  NoDup snapList ->
  sortedByTime snapList ->
  List s = (s1, inl snapList) ->
  gcPass ssr now s = (r, s', tr) ->
  allDeletesSucceed tr ->
  (forall i h, nth_error (removelast (streamHeads snapList)) i = Some h ->
     (forall c, 0 <= c <= 23 -> hourAnchor now c <> time.Truncate now time.Hour ->
        inHourBucket now c h ->
        (In h (deleteCalls tr) <->
         exists j h', (i < j)%nat /\
           nth_error (removelast (streamHeads snapList)) j = Some h' /\
           inHourBucket now c h')) /\
     (forall c, 0 <= c <= 6 -> inDayBucket now c h ->
        (In h (deleteCalls tr) <->
         exists j h', (i < j)%nat /\
           nth_error (removelast (streamHeads snapList)) j = Some h' /\
           inDayBucket now c h'))) /\
  (forall c, 0 <= c <= 23 -> hourAnchor now c <> time.Truncate now time.Hour ->
     (exists h, In h (removelast (streamHeads snapList)) /\ inHourBucket now c h) ->
     exists k, In k (removelast (streamHeads snapList)) /\ inHourBucket now c k /\
       ~ In k (deleteCalls tr) /\
       forall h, In h (removelast (streamHeads snapList)) -> inHourBucket now c h ->
         h <> k -> CreatedOn h <= CreatedOn k /\ In h (deleteCalls tr)) /\
  (forall c, 0 <= c <= 6 ->
     (exists h, In h (removelast (streamHeads snapList)) /\ inDayBucket now c h) ->
     exists k, In k (removelast (streamHeads snapList)) /\ inDayBucket now c k /\
       ~ In k (deleteCalls tr) /\
       forall h, In h (removelast (streamHeads snapList)) -> inDayBucket now c h ->
         h <> k -> CreatedOn h <= CreatedOn k /\ In h (deleteCalls tr)) /\
  (forall front latest,
     streamHeads snapList = front ++ [latest] -> ~ In latest (deleteCalls tr)).
Proof.
  intros Hp HN Hsorted HL Hrun Hok.
  assert (Hhead : forall i h, nth_error (removelast (streamHeads snapList)) i = Some h ->
     (forall c, 0 <= c <= 23 -> hourAnchor now c <> time.Truncate now time.Hour ->
        inHourBucket now c h ->
        (In h (deleteCalls tr) <->
         exists j h', (i < j)%nat /\
           nth_error (removelast (streamHeads snapList)) j = Some h' /\
           inHourBucket now c h')) /\
     (forall c, 0 <= c <= 6 -> inDayBucket now c h ->
        (In h (deleteCalls tr) <->
         exists j h', (i < j)%nat /\
           nth_error (removelast (streamHeads snapList)) j = Some h' /\
           inDayBucket now c h'))).
  { intros i h Hi.
    destruct (nth_error_split _ _ Hi) as (older & newer & Efront & Hlen).
    destruct (exponential_pass_decision ssr now s s1 s' snapList r tr older newer h
                Hp HN Hsorted HL Hrun Hok Efront) as [Hs Hdel].
    destruct (walk_decision now (rev newer) h Hs) as [Hkeep Hdrop].
    pose proof (x_bounds h) as Hb. pose proof (hourOf_bounds now) as Hn.
    assert (Hlater : forall (P : Snapshot -> Prop),
               (exists h', In h' (rev newer) /\ P h') <->
               (exists j h', (i < j)%nat /\
                  nth_error (removelast (streamHeads snapList)) j = Some h' /\ P h')).
    { intros P. rewrite Efront. subst i. split.
      - intros (h' & Hin & HP). apply in_rev in Hin.
        apply (later_index older newer h h') in Hin. destruct Hin as (j & Hj & E).
        exists j, h'. auto.
      - intros (j & h' & Hj & E & HP). exists h'. split; [|exact HP].
        apply -> in_rev. apply (later_index older newer h h'). exists j. auto. }
    split.
    - intros c Hc Hnc Hin. rewrite Hdel, <- Hlater.
      assert (Hx : hourOf (CreatedOn h) = 24 * time.civilDay now + c)
        by (apply inHourBucket_spec; exact Hin).
      assert (Hcur : hourOf now <> hourOf (CreatedOn h)).
      { intros E. apply Hnc. rewrite hourAnchor_hours, Truncate_hour, E, Hx. reflexivity. }
      split.
      + intros Hd.
        destruct (exists_dec_in (fun a => inHourBucket now c a) (rev newer)) as [Hex|Hno];
          [intros a; rewrite inHourBucket_spec; lia|exact Hex|].
        exfalso. rewrite Hkeep in Hd; [discriminate|lia|].
        intros a Ha Hsame. apply Hno. exists a. split; [exact Ha|].
        apply (hour_bucket_same now c h a); [lia|exact Hin|exact Hsame].
      + intros (h' & Hin' & Hb'). apply Hdrop; [lia|exact Hcur|].
        exists h'. split; [exact Hin'|].
        apply (hour_bucket_same now c h h'); [lia|exact Hin|exact Hb'].
    - intros c Hc Hin. rewrite Hdel, <- Hlater.
      assert (Hy : time.civilDay (CreatedOn h) = time.civilDay now - 7 + c)
        by (apply inDayBucket_spec; exact Hin).
      split.
      + intros Hd.
        destruct (exists_dec_in (fun a => inDayBucket now c a) (rev newer)) as [Hex|Hno];
          [intros a; rewrite inDayBucket_spec; lia|exact Hex|].
        exfalso. rewrite Hkeep in Hd; [discriminate|lia|].
        intros a Ha Hsame. apply Hno. exists a. split; [exact Ha|].
        apply (day_bucket_same now c h a); [lia|exact Hin|exact Hsame].
      + intros (h' & Hin' & Hb'). apply Hdrop; [lia|lia|].
        exists h'. split; [exact Hin'|].
        apply (day_bucket_same now c h h'); [lia|exact Hin|exact Hb']. }
  assert (Hone : forall P : Snapshot -> Prop,
     (forall a, P a \/ ~ P a) ->
     (forall i h, nth_error (removelast (streamHeads snapList)) i = Some h -> P h ->
        (In h (deleteCalls tr) <->
         exists j h', (i < j)%nat /\
           nth_error (removelast (streamHeads snapList)) j = Some h' /\ P h')) ->
     (exists h, In h (removelast (streamHeads snapList)) /\ P h) ->
     exists k, In k (removelast (streamHeads snapList)) /\ P k /\
       ~ In k (deleteCalls tr) /\
       forall h, In h (removelast (streamHeads snapList)) -> P h ->
         h <> k -> CreatedOn h <= CreatedOn k /\ In h (deleteCalls tr)).
  { intros P Hdec Hiff Hex.
    destruct (last_of_bucket_stays _ (fun h => In h (deleteCalls tr)) P Hdec Hiff Hex)
      as (older & k & newer & E & Hk & Hkept & Hnone & Hgo).
    pose proof (front_sorted snapList Hsorted) as Hfs. unfold sortedByTime in Hfs.
    rewrite E in Hfs. apply StronglySorted_app_inv in Hfs.
    destruct Hfs as (_ & _ & Hle).
    exists k. split; [rewrite E; apply in_elt|]. split; [exact Hk|]. split; [exact Hkept|].
    intros h Hin Hh Hne. rewrite E in Hin. apply in_app_or in Hin.
    destruct Hin as [Hin|[->|Hin]].
    - split; [apply Hle; [exact Hin|left; reflexivity]|apply Hgo; assumption].
    - congruence.
    - exfalso. apply (Hnone h Hin Hh). }
  split; [exact Hhead|]. split; [|split].
  - intros c Hc Hnc Hex. apply Hone.
    + intros a. rewrite inHourBucket_spec. lia.
    + intros i h Hi Hh. destruct (Hhead i h Hi) as [H _]. apply H; assumption.
    + exact Hex.
  - intros c Hc Hex. apply Hone.
    + intros a. rewrite inDayBucket_spec. lia.
    + intros i h Hi Hh. destruct (Hhead i h Hi) as [_ H]. apply H; assumption.
    + exact Hex.
  - intros front0 latest E.
    exact (exponential_pass_latest_head ssr now s s1 s' snapList r tr front0 latest
             Hp HN HL Hrun E).
Qed.

(** C2, as the code has it: the hour buckets are the 24 hours of [now]'s
    date, not the 24 hours before [now].  In a pass of the exponential
    policy, whichever deletes fail, over a listing sorted by time that holds
    no snapshot twice, every such bucket that holds a head other than the
    latest of the listing keeps one: some head of the bucket is not handed
    to [store.Delete]. *)
Theorem exponential_keeps_one_per_hour_of_date (ssr : Snapshotter) (now : time.Time)
    (s s1 s' : Store) (snapList : SnapList) (r : option unit) (tr : Trace) (c : Z) :
  garbageCollectionPolicy ssr = GarbageCollectionPolicyExponential ->
  NoDup snapList ->
  sortedByTime snapList ->
  List s = (s1, inl snapList) ->
  gcPass ssr now s = (r, s', tr) ->
  0 <= c <= 23 ->
  (exists h, In h (removelast (streamHeads snapList)) /\ inHourBucket now c h) ->
  exists h, In h (removelast (streamHeads snapList)) /\ inHourBucket now c h /\
            ~ In h (deleteCalls tr).
Proof.
  intros Hp HN Hsorted HL Hrun Hc Hex.
  destruct (exponential_pass_passed ssr now s s1 s' snapList r tr Hp HN HL Hrun)
    as (passed & Hsub & Hdel).
  set (front := removelast (streamHeads snapList)) in *.
  assert (Hdecb : forall a, inHourBucket now c a \/ ~ inHourBucket now c a)
    by (intros a; rewrite inHourBucket_spec; lia).
  destruct (exists_dec_in (fun a => inHourBucket now c a /\ ~ In a passed) front)
    as [(h & Hin & Hb & Hnp)|Hall].
  { intros a. destruct (Hdecb a) as [Ha|Ha]; [|right; tauto].
    destruct (in_dec Snapshot_eq_dec a passed) as [Hi|Hi]; [right; tauto|left; tauto]. }
  - exists h. split; [exact Hin|]. split; [exact Hb|].
    intros Hd. apply Hnp. apply (Hdel h Hin Hd).
  - assert (Hexp : exists a, In a (rev passed) /\ inHourBucket now c a).
    { destruct Hex as (h0 & Hin0 & Hb0). exists h0. split; [|exact Hb0].
      apply -> in_rev.
      destruct (in_dec Snapshot_eq_dec h0 passed) as [Hi|Hi]; [exact Hi|].
      exfalso. apply Hall. exists h0. tauto. }
    destruct (exists_last_in (fun a => inHourBucket now c a) (rev passed) Hdecb Hexp)
      as (older & h & newer & Erev & Hh & Hnewer).
    assert (Epassed : passed = rev newer ++ h :: rev older).
    { rewrite <- (rev_involutive passed), Erev, rev_app_distr. cbn [rev].
      rewrite <- app_assoc. reflexivity. }
    assert (Hfront : In h front).
    { apply in_rev. eapply Subseq_In; [exact Hsub|]. rewrite Epassed. apply in_elt. }
    assert (HNp : NoDup passed).
    { eapply Subseq_NoDup; [exact Hsub|]. apply NoDup_rev.
      apply front_heads_NoDup. exact HN. }
    assert (Hsp : newestFirst passed).
    { unfold newestFirst. eapply Subseq_sorted; [exact Hsub|].
      apply StronglySorted_rev. exact (front_sorted snapList Hsorted). }
    exists h. split; [exact Hfront|]. split; [exact Hh|].
    intros Hd. destruct (Hdel h Hfront Hd) as [_ Hnk]. apply Hnk.
    rewrite Epassed in HNp, Hsp |- *.
    apply (walkKept_mid now (rev newer) h (rev older) HNp).
    assert (Hs : newestFirst (rev newer ++ [h])).
    { unfold newestFirst in *.
      replace (rev newer ++ h :: rev older) with ((rev newer ++ [h]) ++ rev older) in Hsp
        by (rewrite <- app_assoc; reflexivity).
      apply StronglySorted_app_inv in Hsp. tauto. }
    destruct (walk_decision now (rev newer) h Hs) as [Hkeep _].
    apply Hkeep.
    + apply inHourBucket_spec in Hh. lia.
    + intros a Ha Hsame. apply (Hnewer a); [apply in_rev; exact Ha|].
      apply (hour_bucket_same now c h a); [lia|exact Hh|exact Hsame].
Qed.

End SortedClaims.

(** ** Month mode *)

Section MonthClaims.

Context {Store : Type} {store : SnapStore Store}.

(** A sweep that returns an error has had a delete of a delta snapshot of
    its stream fail with it. *)
Lemma sweep_failed_delta (snapStream : SnapList) (s s1 : Store) (e : Error) (t1 : Trace) :
  garbageCollectDeltaSnapshots snapStream s = (Some (Some e), s1, t1) ->
  exists d, In d (tl snapStream) /\ In (d, Some e) (deleteResults t1).
Proof.
  rewrite sweep_sweepList. intros H.
  destruct (sweepList_run (rev (tl snapStream)) s)
    as (done & rest & err & tr & Hrun & Hsplit & Hres).
  rewrite Hrun in H. inversion H; subst err s1 t1. clear H.
  destruct Hres as (ok & d & -> & Hr). exists d. split.
  - apply in_rev. rewrite Hsplit. apply in_or_app. left. apply in_elt.
  - rewrite Hr. apply in_or_app. right. left. reflexivity.
Qed.

(** C10: in a round of the exponential loop the mode after the round is the
    mode before it or a later one in the order current hour, hour, day,
    week, month; so it is over any stretch of the loop.  A round entered in
    month mode leaves in month mode, and when the sweep of its stream
    returns no error the head of the stream is handed to [store.Delete].
    So the loop, from a state in month mode, hands the head of every stream
    it has left to [store.Delete], unless a delete of a delta snapshot of
    that stream failed.  In a pass in which every delete succeeds, over a
    listing that holds no snapshot twice: once the walk over the newer
    heads is in month mode, every older head but the latest is handed to
    [store.Delete]. *)
Theorem exponential_mode_moves_forward (now : time.Time) (snapList : SnapList)
    (indexList : list nat) :
  (forall i st s st' s' tr,
      exponentialRound now snapList indexList i st s = (Some st', s', tr) ->
      (modeRank (backupMode st) <= modeRank (backupMode st'))%nat /\
      (backupMode st = ModeMonth ->
       backupMode st' = ModeMonth /\
       forall lo hi snap s1 t1,
         nth_error indexList i = Some lo ->
         nth_error indexList (i + 1) = Some hi ->
         nth_error snapList lo = Some snap ->
         garbageCollectDeltaSnapshots (firstn (hi - lo) (skipn lo snapList)) s
         = (Some None, s1, t1) ->
         In snap (deleteCalls tr))) /\
  (forall n st s st' s' tr,
      exponentialLoop n now snapList indexList st s = (Some st', s', tr) ->
      (modeRank (backupMode st) <= modeRank (backupMode st'))%nat /\
      (backupMode st = ModeMonth -> backupMode st' = ModeMonth)) /\
  (forall n st s st' s' tr,
      exponentialLoop n now snapList indexList st s = (Some st', s', tr) ->
      backupMode st = ModeMonth ->
      forall i lo hi snap,
        (i < n)%nat ->
        nth_error indexList i = Some lo ->
        nth_error indexList (i + 1) = Some hi ->
        nth_error snapList lo = Some snap ->
        (forall d e, In d (tl (firstn (hi - lo) (skipn lo snapList))) ->
                     ~ In (d, Some e) (deleteResults tr)) ->
        In snap (deleteCalls tr)) /\
  (forall ssr s s1 s' r tr older newer,
      garbageCollectionPolicy ssr = GarbageCollectionPolicyExponential ->
      NoDup snapList ->
      List s = (s1, inl snapList) ->
      gcPass ssr now s = (r, s', tr) ->
      allDeletesSucceed tr ->
      removelast (streamHeads snapList) = older ++ newer ->
      backupMode (walkState now initExpState (rev newer)) = ModeMonth ->
      forall h, In h older -> In h (deleteCalls tr)).
Proof.
  assert (Hround : forall i st s st' s' tr,
      exponentialRound now snapList indexList i st s = (Some st', s', tr) ->
      (modeRank (backupMode st) <= modeRank (backupMode st'))%nat /\
      (backupMode st = ModeMonth ->
       backupMode st' = ModeMonth /\
       forall lo hi snap s1 t1,
         nth_error indexList i = Some lo ->
         nth_error indexList (i + 1) = Some hi ->
         nth_error snapList lo = Some snap ->
         garbageCollectDeltaSnapshots (firstn (hi - lo) (skipn lo snapList)) s
         = (Some None, s1, t1) ->
         In snap (deleteCalls tr))).
  { intros i st s st' s' tr H.
    destruct (exponentialRound_inv _ _ _ _ _ _ _ _ _ H)
      as (lo & hi & snap & err & s1 & t1 & Hlo & Hsnap & Hhi & Hsw & Hres).
    destruct err as [e|].
    - destruct Hres as [-> ->]. split; [lia|]. intros Hm. split; [exact Hm|].
      intros lo' hi' snap' s1' t1' Hlo' Hhi' Hsnap' Hsw'.
      rewrite Hlo in Hlo'. inversion Hlo'; subst lo'.
      rewrite Hhi in Hhi'. inversion Hhi'; subst hi'.
      rewrite Hsw in Hsw'. discriminate.
    - destruct Hres as [-> Hdel]. split; [apply switchBackupMode_rank|].
      intros Hm. rewrite (switchBackupMode_month _ _ _ Hm) in *. split; [reflexivity|].
      intros lo' hi' snap' s1' t1' Hlo' Hhi' Hsnap' Hsw'.
      rewrite Hlo in Hlo'. inversion Hlo'; subst lo'.
      rewrite Hsnap in Hsnap'. inversion Hsnap'; subst snap'.
      apply Hdel. reflexivity. }
  split; [exact Hround|]. split; [|split].
  - induction n as [|n IH]; intros st s st' s' tr H.
    + cbv [exponentialLoop ret] in H. inversion H; subst. split; [lia|auto].
    + cbn [exponentialLoop] in H. apply bind_run in H.
      destruct H as [(t0 & _ & H & _)|(st1 & s1 & t1 & t2 & H1 & H2 & ->)]; [discriminate|].
      destruct (Hround _ _ _ _ _ _ H1) as [Hr1 Hm1].
      destruct (IH _ _ _ _ _ H2) as [Hr2 Hm2].
      split; [lia|]. intros Hm. apply Hm2. apply Hm1. exact Hm.
  - induction n as [|n IH]; intros st s st' s' tr H Hm i lo hi snap Hi Hlo Hhi Hsnap Hok;
      [lia|].
    cbn [exponentialLoop] in H. apply bind_run in H.
    destruct H as [(t0 & _ & H & _)|(st1 & s1 & t1 & t2 & H1 & H2 & ->)]; [discriminate|].
    destruct (Hround _ _ _ _ _ _ H1) as [_ Hm1]. destruct (Hm1 Hm) as [Hm' _].
    rewrite deleteCalls_app, in_app_iff.
    destruct (Nat.eq_dec i n) as [->|Hne].
    + left.
      destruct (exponentialRound_inv _ _ _ _ _ _ _ _ _ H1)
        as (lo' & hi' & snap' & err & s2 & t0 & Hlo' & Hsnap' & Hhi' & Hsw & Hres).
      rewrite Hlo in Hlo'. inversion Hlo'; subst lo'.
      rewrite Hhi in Hhi'. inversion Hhi'; subst hi'.
      rewrite Hsnap in Hsnap'. inversion Hsnap'; subst snap'.
      destruct err as [e|].
      * exfalso. destruct Hres as [_ ->].
        destruct (sweep_failed_delta _ _ _ _ _ Hsw) as (d & Hd & Hf).
        apply (Hok d e Hd). rewrite deleteResults_app. apply in_or_app. left. exact Hf.
      * destruct Hres as [-> Hdel]. apply Hdel.
        rewrite (switchBackupMode_month _ _ _ Hm). reflexivity.
    + right. apply (IH _ _ _ _ _ H2 Hm' i lo hi snap); try assumption; [lia|].
      intros d e Hd Hf. apply (Hok d e Hd).
      rewrite deleteResults_app. apply in_or_app. right. exact Hf.
  - intros ssr s s1 s' r tr older newer Hp HN HL Hrun Hok Efront Hm h Hin.
    assert (Hfront : In h (removelast (streamHeads snapList)))
      by (rewrite Efront; apply in_or_app; left; exact Hin).
    apply (exponential_pass_kept ssr now s s1 s' snapList r tr Hp HN HL Hrun Hok h Hfront).
    rewrite Efront, rev_app_distr, walkKept_app, (walkKept_month now (rev older) _ Hm),
      app_nil_r.
    intros Hk. apply walkKept_incl, in_rev in Hk.
    pose proof (front_heads_NoDup snapList HN) as HNf. rewrite Efront in HNf.
    exact (NoDup_app_disjoint _ _ h HNf Hin Hk).
Qed.

End MonthClaims.


(** ** The exponential policy on a store in memory *)

Lemma sortedb_sound (l : list Snapshot) : sortedb l = true -> sortedByTime l.
Proof.
  unfold sortedByTime. induction l as [|a l IH]; simpl; [constructor|].
  intros H. apply andb_true_iff in H. destruct H as [H1 H2].
  constructor; [auto|]. rewrite forallb_forall in H1. rewrite Forall_forall.
  intros b Hb. apply Z.leb_le. auto.
Qed.

(** C1 as stated fails: of the two heads of the hour from 9:00 the pass
    deletes the earliest, of 9:10, and keeps the newest, of 9:50.  Nor is
    one head all that a bucket keeps when the latest of the listing is in
    it: in [lateList] the hour from 9:00 holds the latest head, of 9:55,
    and the pass keeps it and the head of 9:50. *)
Lemma earliest_of_bucket_is_deleted :
  let now := at_ 100 10 30 in
  let tr := snd (morningPass hourList) in
  let tr' := snd (morningPass lateList) in
  (allDeletesSucceed tr /\
   inHourBucket now 9 (full (at_ 100 9 10) "b") /\
   inHourBucket now 9 (full (at_ 100 9 50) "c") /\
   CreatedOn (full (at_ 100 9 10) "b") < CreatedOn (full (at_ 100 9 50) "c") /\
   In (full (at_ 100 9 10) "b") (deleteCalls tr) /\
   ~ In (full (at_ 100 9 50) "c") (deleteCalls tr)) /\
  (allDeletesSucceed tr' /\
   streamHeads lateList
   = [full (at_ 100 8 30) "a"; full (at_ 100 9 10) "b"; full (at_ 100 9 50) "c";
      full (at_ 100 9 55) "d"] /\
   inHourBucket now 9 (full (at_ 100 9 50) "c") /\
   inHourBucket now 9 (full (at_ 100 9 55) "d") /\
   ~ In (full (at_ 100 9 50) "c") (deleteCalls tr') /\
   ~ In (full (at_ 100 9 55) "d") (deleteCalls tr')).
Proof.
  cbv zeta. split.
  - assert (E : deleteCalls (snd (morningPass hourList)) = [full (at_ 100 9 10) "b"])
      by (vm_compute; reflexivity).
    rewrite E. split; [apply deleteOkb_sound; vm_compute; reflexivity|].
    split; [vm_compute; reflexivity|]. split; [vm_compute; reflexivity|].
    split; [vm_compute; reflexivity|]. split; [left; reflexivity|].
    intros [H|[]]. discriminate H.
  - assert (E : deleteCalls (snd (morningPass lateList)) = [full (at_ 100 9 10) "b"])
      by (vm_compute; reflexivity).
    rewrite E. split; [apply deleteOkb_sound; vm_compute; reflexivity|].
    split; [vm_compute; reflexivity|].
    split; [vm_compute; reflexivity|]. split; [vm_compute; reflexivity|].
    split; intros [H|[]]; discriminate H.
Qed.

(** C2 as stated fails: at 10:30 of day 100 the hour from 21:00 of day 99 is
    among the 24 most recent hours and holds one head other than the latest,
    and the pass deletes it. *)
Lemma hour_of_yesterday_not_kept :
  let now := at_ 100 10 30 in
  let tr := snd (morningPass eveningList) in
  let a := full (at_ 99 21 10) "a" in
  allDeletesSucceed tr /\
  now - CreatedOn a < 24 * time.Hour /\
  filter (fun h => time.Equal (time.Truncate (CreatedOn h) time.Hour)
                     (time.Truncate (CreatedOn a) time.Hour))
    (removelast (streamHeads eveningList)) = [a] /\
  In a (deleteCalls tr).
Proof.
  cbv zeta.
  assert (E : deleteCalls (snd (morningPass eveningList)) = [full (at_ 99 21 10) "a"])
    by (vm_compute; reflexivity).
  rewrite E. split; [apply deleteOkb_sound; vm_compute; reflexivity|].
  split; [vm_compute; reflexivity|]. split; [vm_compute; reflexivity|].
  left. reflexivity.
Qed.

(** C3 as stated fails: of thirty-eight heads of the hour of [now] the pass
    deletes none, and thirty-seven heads other than the latest are left.
    Nor is the head of the latest stream alone in its bucket: in [lateList]
    the hour from 9:00 holds it and the head of 9:50, and both are left. *)
Lemma current_hour_crowd_survives :
  let now := at_ 100 10 30 in
  let tr := snd (morningPass crowdList) in
  let tr' := snd (morningPass lateList) in
  (allDeletesSucceed tr /\
   (35 < List.length (filter (fun h => negb (mem h (deleteCalls tr)))
                        (removelast (streamHeads crowdList))))%nat) /\
  (allDeletesSucceed tr' /\
   streamHeads lateList
   = [full (at_ 100 8 30) "a"; full (at_ 100 9 10) "b"; full (at_ 100 9 50) "c";
      full (at_ 100 9 55) "d"] /\
   hourAnchor now 9 <> time.Truncate now time.Hour /\
   inHourBucket now 9 (full (at_ 100 9 50) "c") /\
   inHourBucket now 9 (full (at_ 100 9 55) "d") /\
   ~ In (full (at_ 100 9 50) "c") (deleteCalls tr') /\
   ~ In (full (at_ 100 9 55) "d") (deleteCalls tr')).
Proof.
  cbv zeta. split.
  - split; [apply deleteOkb_sound; vm_compute; reflexivity|].
    assert (E : List.length (filter (fun h => negb (mem h (deleteCalls (snd (morningPass crowdList)))))
                               (removelast (streamHeads crowdList))) = 37%nat)
      by (vm_compute; reflexivity).
    rewrite E. lia.
  - assert (E : deleteCalls (snd (morningPass lateList)) = [full (at_ 100 9 10) "b"])
      by (vm_compute; reflexivity).
    rewrite E. split; [apply deleteOkb_sound; vm_compute; reflexivity|].
    split; [vm_compute; reflexivity|]. split; [vm_compute; discriminate|].
    split; [vm_compute; reflexivity|]. split; [vm_compute; reflexivity|].
    split; intros [H|[]]; discriminate H.
Qed.

Lemma exponential_keeps_newest_of_bucket_witness :
  let now := at_ 100 10 30 in
  let tr := snd (morningPass hourList) in
  let front := removelast (streamHeads hourList) in
  (forall i h, nth_error front i = Some h ->
     (forall c, 0 <= c <= 23 -> hourAnchor now c <> time.Truncate now time.Hour ->
        inHourBucket now c h ->
        (In h (deleteCalls tr) <->
         exists j h', (i < j)%nat /\ nth_error front j = Some h' /\
           inHourBucket now c h')) /\
     (forall c, 0 <= c <= 6 -> inDayBucket now c h ->
        (In h (deleteCalls tr) <->
         exists j h', (i < j)%nat /\ nth_error front j = Some h' /\
           inDayBucket now c h'))) /\
  (forall c, 0 <= c <= 23 -> hourAnchor now c <> time.Truncate now time.Hour ->
     (exists h, In h front /\ inHourBucket now c h) ->
     exists k, In k front /\ inHourBucket now c k /\ ~ In k (deleteCalls tr) /\
       forall h, In h front -> inHourBucket now c h ->
         h <> k -> CreatedOn h <= CreatedOn k /\ In h (deleteCalls tr)) /\
  (forall c, 0 <= c <= 6 ->
     (exists h, In h front /\ inDayBucket now c h) ->
     exists k, In k front /\ inDayBucket now c k /\ ~ In k (deleteCalls tr) /\
       forall h, In h front -> inDayBucket now c h ->
         h <> k -> CreatedOn h <= CreatedOn k /\ In h (deleteCalls tr)) /\
  (forall front0 latest,
     streamHeads hourList = front0 ++ [latest] -> ~ In latest (deleteCalls tr)).
Proof.
  apply (exponential_keeps_newest_of_bucket exponential (at_ 100 10 30)
           (holding hourList) (holding hourList) (snd (fst (morningPass hourList)))
           hourList (fst (fst (morningPass hourList))) (snd (morningPass hourList))).
  - reflexivity.
  - apply nodupb_sound. vm_compute. reflexivity.
  - apply sortedb_sound. vm_compute. reflexivity.
  - reflexivity.
  - vm_compute. reflexivity.
  - apply deleteOkb_sound. vm_compute. reflexivity.
Defined.

Lemma exponential_keeps_one_per_hour_of_date_witness :
  let now := at_ 100 10 30 in
  let tr := snd (demoPass exponential [delta (at_ 100 8 10) "a1"]) in
  ~ allDeletesSucceed tr /\
  exists h, In h (removelast (streamHeads demoList)) /\ inHourBucket now 9 h /\
            ~ In h (deleteCalls tr).
Proof.
  cbv zeta. split.
  - intros H. apply Forall_forall with (x := EvDelete (delta (at_ 100 8 10) "a1")
                                                (Some "delete refused"%string)) in H.
    + exact H.
    + vm_compute. tauto.
  - apply (exponential_keeps_one_per_hour_of_date exponential (at_ 100 10 30)
             (memstore.mk demoList None [delta (at_ 100 8 10) "a1"])
             (memstore.mk demoList None [delta (at_ 100 8 10) "a1"])
             (snd (fst (demoPass exponential [delta (at_ 100 8 10) "a1"])))
             demoList (fst (fst (demoPass exponential [delta (at_ 100 8 10) "a1"])))
             (snd (demoPass exponential [delta (at_ 100 8 10) "a1"])) 9).
    + reflexivity.
    + apply nodupb_sound. vm_compute. reflexivity.
    + apply sortedb_sound. vm_compute. reflexivity.
    + reflexivity.
    + vm_compute. reflexivity.
    + lia.
    + exists (full (at_ 100 9 0) "b"). split; [right; left; reflexivity|].
      vm_compute. reflexivity.
Defined.

Lemma exponential_survivors_bounded_witness :
  let now := at_ 100 10 30 in
  let tr := snd (morningPass hourList) in
  let survivors :=
    filter (fun h => negb (mem h (deleteCalls tr))) (removelast (streamHeads hourList)) in
  (List.length (filter (fun h => negb (inCurrentHour now h)) survivors) <= 35)%nat /\
  (forall c h1 h2,
      0 <= c <= 23 -> hourAnchor now c <> time.Truncate now time.Hour ->
      In h1 survivors -> In h2 survivors ->
      inHourBucket now c h1 -> inHourBucket now c h2 -> h1 = h2) /\
  (forall c h1 h2,
      0 <= c <= 6 ->
      In h1 survivors -> In h2 survivors ->
      inDayBucket now c h1 -> inDayBucket now c h2 -> h1 = h2) /\
  (forall front latest,
      streamHeads hourList = front ++ [latest] -> ~ In latest (deleteCalls tr)).
Proof.
  apply (exponential_survivors_bounded exponential (at_ 100 10 30)
           (holding hourList) (holding hourList) (snd (fst (morningPass hourList)))
           hourList (fst (fst (morningPass hourList))) (snd (morningPass hourList))).
  - reflexivity.
  - apply nodupb_sound. vm_compute. reflexivity.
  - reflexivity.
  - vm_compute. reflexivity.
  - apply deleteOkb_sound. vm_compute. reflexivity.
Defined.

Lemma exponential_mode_moves_forward_witness :
  let now := at_ 100 10 30 in
  let indexList := snapStreamIndexList demoList in
  let month := mkExpState true ModeMonth (-1) in
  let round := exponentialRound now demoList indexList 0 month (holding demoList) in
  let loop := exponentialLoop 2 now demoList indexList month (holding demoList) in
  (backupMode (mkExpState true ModeMonth (-1)) = ModeMonth /\
   In (full (at_ 100 8 0) "a") (deleteCalls (snd round))) /\
  (modeRank (backupMode initExpState) <= modeRank ModeHour)%nat /\
  (In (full (at_ 100 8 0) "a") (deleteCalls (snd loop)) /\
   In (full (at_ 100 9 0) "b") (deleteCalls (snd loop))) /\
  In (full (at_ 10 0 0) "a") (deleteCalls (snd (morningPass monthList))).
Proof.
  cbv zeta.
  destruct (exponential_mode_moves_forward (at_ 100 10 30) demoList
              (snapStreamIndexList demoList)) as (Hround & Hloop & Hmonth & _).
  destruct (exponential_mode_moves_forward (at_ 100 10 30) monthList
              (snapStreamIndexList monthList)) as (_ & _ & _ & Hpass).
  split; [|split; [|split]].
  - destruct (Hround 0%nat (mkExpState true ModeMonth (-1)) (holding demoList)
                (mkExpState true ModeMonth (-1))
                (snd (fst (exponentialRound (at_ 100 10 30) demoList
                             (snapStreamIndexList demoList) 0
                             (mkExpState true ModeMonth (-1)) (holding demoList))))
                (snd (exponentialRound (at_ 100 10 30) demoList
                        (snapStreamIndexList demoList) 0
                        (mkExpState true ModeMonth (-1)) (holding demoList)))) as [_ Hm].
    + vm_compute. reflexivity.
    + destruct (Hm eq_refl) as [Hmode Hdel]. split; [exact Hmode|].
      apply (Hdel 0%nat 3%nat (full (at_ 100 8 0) "a")
               (snd (fst (garbageCollectDeltaSnapshots (firstn 3 demoList) (holding demoList))))
               (snd (garbageCollectDeltaSnapshots (firstn 3 demoList) (holding demoList))));
        vm_compute; reflexivity.
  - destruct (Hloop 2%nat initExpState (holding demoList)
                (mkExpState false ModeHour 7)
                (snd (fst (exponentialLoop 2 (at_ 100 10 30) demoList
                             (snapStreamIndexList demoList) initExpState (holding demoList))))
                (snd (exponentialLoop 2 (at_ 100 10 30) demoList
                        (snapStreamIndexList demoList) initExpState (holding demoList))))
      as [Hrank _].
    + vm_compute. reflexivity.
    + exact Hrank.
  - pose proof (Hmonth 2%nat (mkExpState true ModeMonth (-1)) (holding demoList)
                  (mkExpState true ModeMonth (-1))
                  (snd (fst (exponentialLoop 2 (at_ 100 10 30) demoList
                               (snapStreamIndexList demoList)
                               (mkExpState true ModeMonth (-1)) (holding demoList))))
                  (snd (exponentialLoop 2 (at_ 100 10 30) demoList
                          (snapStreamIndexList demoList)
                          (mkExpState true ModeMonth (-1)) (holding demoList))))
      as Hall.
    assert (Erun : exponentialLoop 2 (at_ 100 10 30) demoList
                     (snapStreamIndexList demoList)
                     (mkExpState true ModeMonth (-1)) (holding demoList)
                   = (Some (mkExpState true ModeMonth (-1)),
                      snd (fst (exponentialLoop 2 (at_ 100 10 30) demoList
                                  (snapStreamIndexList demoList)
                                  (mkExpState true ModeMonth (-1)) (holding demoList))),
                      snd (exponentialLoop 2 (at_ 100 10 30) demoList
                             (snapStreamIndexList demoList)
                             (mkExpState true ModeMonth (-1)) (holding demoList))))
      by (vm_compute; reflexivity).
    specialize (Hall Erun eq_refl).
    assert (Hok : forall (l : SnapList) d (e : Error),
               In d l ->
               ~ In (d, Some e)
                   (deleteResults
                      (snd (exponentialLoop 2 (at_ 100 10 30) demoList
                              (snapStreamIndexList demoList)
                              (mkExpState true ModeMonth (-1)) (holding demoList))))).
    { intros l d e _ Hin. vm_compute in Hin.
      repeat (destruct Hin as [Hin|Hin]; [discriminate Hin|]). exact Hin. }
    split.
    + apply (Hall 0%nat 0%nat 3%nat (full (at_ 100 8 0) "a"));
        [lia|reflexivity|reflexivity|reflexivity|apply Hok].
    + apply (Hall 1%nat 3%nat 5%nat (full (at_ 100 9 0) "b"));
        [lia|reflexivity|reflexivity|reflexivity|apply Hok].
  - apply (Hpass exponential (holding monthList) (holding monthList)
             (snd (fst (morningPass monthList))) (fst (fst (morningPass monthList)))
             (snd (morningPass monthList))
             [full (at_ 10 0 0) "a"] [full (at_ 20 0 0) "b"]).
    + reflexivity.
    + apply nodupb_sound. vm_compute. reflexivity.
    + reflexivity.
    + vm_compute. reflexivity.
    + apply deleteOkb_sound. vm_compute. reflexivity.
    + vm_compute. reflexivity.
    + vm_compute. reflexivity.
    + left. reflexivity.
Defined.

(** ** The collector on its signals, and the passes on small listings *)

Section CollectorFacts.

Context {Store : Type} {store : SnapStore Store}.

(** The stop signal ends the collector with one log line; no pass is run
    and the store is not called. *)
Lemma GarbageCollector_stop (ssr : Snapshotter) (signals : list Signal) (s : Store) :
  GarbageCollector ssr (StopCh :: signals) s
  = (Some tt, s, [EvLog Info "GC: Stop signal received. Closing garbage collector." []]).
Proof. reflexivity. Qed.

(** A timer signal runs one pass, and the collector goes on from the store
    the pass left. *)
Lemma GarbageCollector_tick (ssr : Snapshotter) (now : time.Time)
    (signals : list Signal) (s : Store) :
  GarbageCollector ssr (TimeAfter now :: signals) s
  = bind (gcPass ssr now) (fun _ => GarbageCollector ssr signals) s.
Proof. reflexivity. Qed.

End CollectorFacts.

(** Limit-based, three to keep of five streams: the two oldest heads go,
    the oldest first. *)
Lemma limit_based_keeps_three_of_five :
  deletedNames (gcPass (limitBased 3) (at_ 100 10 30) (holding hourlyList))
  = ["a"; "b"]%string.
Proof. vm_compute. reflexivity. Qed.

(** Limit-based, two to keep of three streams with deltas: the deltas of the
    two older streams go, the newest first in each, and the oldest head
    after its deltas. *)
Lemma limit_based_sweeps_then_deletes :
  deletedNames (demoPass (limitBased 2) []) = ["a2"; "a1"; "a"; "b1"]%string.
Proof. vm_compute. reflexivity. Qed.

(** Exponential at 10:30: of the heads of 8:30, 9:10 and 9:50 the one of
    9:10 goes, the head of 9:50 being the newer of its hour. *)
Lemma exponential_hour_buckets :
  deletedNames (morningPass hourList) = ["b"]%string.
Proof. vm_compute. reflexivity. Qed.

(** Exponential, the week case: the heads of 16 and of 15 days before [now]
    lie in one span of seven days below the seven daily buckets, a day
    apart, and the pass keeps both: the anchor of the first week bucket, 14
    days before [now], is less than 7 days from the one, and the anchor of
    the second, 21 days before, less than 7 days from the other. *)
Lemma week_span_keeps_two :
  deleteCalls (snd (morningPass weekList)) = [] /\
  map (fun h => time.civilDay (at_ 100 10 30) - time.civilDay (CreatedOn h))
    (removelast (streamHeads weekList)) = [16; 15].
Proof. split; vm_compute; reflexivity. Qed.

(** * More of what the code shows *)

(** ** The stream index list *)

Lemma StronglySorted_snoc (acc : list nat) (k : nat) :
  StronglySorted lt acc -> Forall (fun a => (a < k)%nat) acc ->
  StronglySorted lt (acc ++ [k]).
Proof.
  induction 1 as [|a acc Hs IH Ha]; intros Hk; simpl.
  - constructor; constructor.
  - inversion Hk; subst. constructor; [auto|].
    apply Forall_app. split; [exact Ha|]. constructor; [assumption|constructor].
Qed.

Lemma appendFullIndexes_sorted (rest : SnapList) :
  forall (k : nat) (acc : list nat),
    StronglySorted lt acc -> Forall (fun a => (a < k)%nat) acc ->
    StronglySorted lt (appendFullIndexes rest k acc).
Proof.
  induction rest as [|s rest IH]; intros k acc Hs Hk; simpl; [exact Hs|].
  apply IH.
  - destruct (isFull s); [apply StronglySorted_snoc; assumption|exact Hs].
  - destruct (isFull s).
    + apply Forall_app. split.
      * eapply Forall_impl; [|exact Hk]. simpl. intros; lia.
      * constructor; [lia|constructor].
    + eapply Forall_impl; [|exact Hk]. simpl. intros; lia.
Qed.

Lemma appendFullIndexes_In (rest : SnapList) :
  forall (k : nat) (acc : list nat) (i : nat),
    In i (appendFullIndexes rest k acc) <->
    In i acc \/
    ((k <= i)%nat /\ exists s, nth_error rest (i - k) = Some s /\ isFull s = true).
Proof.
  induction rest as [|s rest IH]; intros k acc i; simpl.
  - split; [auto|]. intros [H|(_ & s & E & _)]; [exact H|].
    destruct (i - k)%nat; discriminate.
  - rewrite IH. split.
    + intros [H|(Hk & s' & E & Hf)].
      * destruct (isFull s) eqn:Hs; [|auto].
        apply in_app_or in H. destruct H as [H|[<-|[]]]; [auto|].
        right. split; [lia|]. exists s. rewrite Nat.sub_diag. auto.
      * right. split; [lia|]. exists s'.
        replace (i - k)%nat with (S (i - S k)) by lia. auto.
    + intros [H|(Hk & s' & E & Hf)].
      * left. destruct (isFull s); [apply in_or_app|]; auto.
      * destruct (Nat.eq_dec i k) as [->|Hne].
        -- rewrite Nat.sub_diag in E. simpl in E. inversion E; subst s'.
           left. rewrite Hf. apply in_or_app. right. left. reflexivity.
        -- right. split; [lia|]. exists s'.
           replace (i - k)%nat with (S (i - S k)) in E by lia. auto.
Qed.

Lemma appendFullIndexes_app (rest : SnapList) :
  forall (k : nat) (acc : list nat),
    appendFullIndexes rest k acc = acc ++ appendFullIndexes rest k [].
Proof.
  induction rest as [|s rest IH]; intros k acc; simpl; [rewrite app_nil_r; reflexivity|].
  destruct (isFull s); [|apply IH].
  rewrite IH, (IH _ ([] ++ [k])), app_assoc. reflexivity.
Qed.

(** X1: the stream index list starts with 0, goes up strictly, and holds,
    besides 0, the indices of the listing at which a full snapshot stands,
    all of them and no other. *)
Theorem stream_index_list_characterised (snapList : SnapList) :
  hd_error (snapStreamIndexList snapList) = Some 0%nat /\
  StronglySorted lt (snapStreamIndexList snapList) /\
  forall i, In i (snapStreamIndexList snapList) <->
    i = 0%nat \/ ((0 < i)%nat /\ exists s, nth_error snapList i = Some s /\ isFull s = true).
Proof.
  unfold snapStreamIndexList. split; [|split].
  - rewrite appendFullIndexes_app. reflexivity.
  - apply appendFullIndexes_sorted.
    + constructor; constructor.
    + constructor; [lia|constructor].
  - intros i. rewrite appendFullIndexes_In. simpl. split.
    + intros [[<-|[]]|(Hk & s & E & Hf)]; [auto|].
      right. split; [lia|]. exists s. split; [|exact Hf].
      destruct snapList as [|a l]; [destruct (i - 1)%nat; discriminate|].
      simpl in E. destruct i as [|i]; [lia|]. simpl in *.
      rewrite Nat.sub_0_r in E. exact E.
    + intros [->|(Hk & s & E & Hf)]; [auto|].
      right. split; [lia|]. exists s. split; [|exact Hf].
      destruct snapList as [|a l]; [destruct i; discriminate|].
      destruct i as [|i]; [lia|]. simpl in *. rewrite Nat.sub_0_r. exact E.
Qed.

(** ** The streams between two indices *)

Lemma cutStreams_shape (rest : SnapList) :
  Forall isDelta (fst (cutStreams rest)) /\
  Forall headThenDeltas (snd (cutStreams rest)).
Proof.
  induction rest as [|s rest IH]; simpl; [split; constructor|].
  destruct (cutStreams rest) as [cur later]. simpl in *. destruct IH as [Hc Hl].
  destruct (isFull s) eqn:Hs; simpl.
  - split; [constructor|]. constructor; [|exact Hl]. exists s, cur. auto.
  - split; [constructor; assumption|exact Hl].
Qed.

Lemma snapStreams_shape (s : Snapshot) (rest : SnapList) :
  exists cur later,
    snapStreams (s :: rest) = (s :: cur) :: later /\
    Forall isDelta cur /\ Forall headThenDeltas later.
Proof.
  unfold snapStreams. pose proof (cutStreams_shape rest) as H.
  destruct (cutStreams rest) as [cur later]. simpl in H. destruct H.
  exists cur, later. auto.
Qed.

Lemma stream_between (snapList : SnapList) (i lo hi : nat) :
  nth_error (snapStreamIndexList snapList) i = Some lo ->
  nth_error (snapStreamIndexList snapList) (S i) = Some hi ->
  exists pre x y post,
    snapStreams snapList = pre ++ x :: y :: post /\ List.length pre = i /\
    lo = List.length (List.concat pre) /\ hi = (lo + List.length x)%nat.
Proof.
  rewrite snapStreamIndexList_offsets. intros Hlo Hhi.
  assert (Hi : (S i < List.length (snapStreams snapList))%nat).
  { rewrite <- (offsets_length 0). apply nth_error_Some. congruence. }
  destruct (split_two _ _ Hi) as (pre & x & y & post & E & Hl).
  exists pre, x, y, post. rewrite E in Hlo, Hhi. subst i.
  rewrite offsets_nth in Hlo.
  replace (S (List.length pre)) with (List.length pre + 1)%nat in Hhi by lia.
  rewrite offsets_nth_next in Hhi. inversion Hlo; inversion Hhi; subst.
  repeat split; auto.
Qed.

(** X2: between two consecutive entries [lo] and [hi] of the stream index
    list lies one stream: the entries are in range, [lo] below [hi]; the
    slice [snapList[lo:hi]] that the policies hand to the sweep starts with
    the snapshot at [lo], and all that follows it in the slice are delta
    snapshots.  The head is a full snapshot but possibly in the first
    stream, which starts at index 0 whatever stands there. *)
Theorem stream_is_head_then_deltas (snapList : SnapList) (i lo hi : nat) :
  nth_error (snapStreamIndexList snapList) i = Some lo ->
  nth_error (snapStreamIndexList snapList) (S i) = Some hi ->
  (lo < hi <= List.length snapList)%nat /\
  exists h deltas,
    firstn (hi - lo) (skipn lo snapList) = h :: deltas /\
    nth_error snapList lo = Some h /\
    Forall (fun d => isFull d = false) deltas /\
    ((0 < i)%nat -> isFull h = true).
Proof.
  intros Hlo Hhi.
  destruct (stream_between snapList i lo hi Hlo Hhi)
    as (pre & x & y & post & E & Hl & Elo & Ehi).
  destruct snapList as [|s rest].
  { simpl in E. destruct pre as [|? [|? ?]]; discriminate. }
  destruct (snapStreams_shape s rest) as (cur & later & Es & Hcur & Hlater).
  assert (Hx : exists h ds, x = h :: ds /\ Forall isDelta ds /\ ((0 < i)%nat -> isFull h = true)).
  { rewrite Es in E. destruct pre as [|p pre]; simpl in E; injection E as E1 E2.
    - subst x. exists s, cur. repeat split; auto. subst i. simpl. lia.
    - rewrite E2 in Hlater. apply Forall_app in Hlater. destruct Hlater as [_ Hl'].
      inversion Hl' as [|? ? (h & ds & Ex & Hf & Hds) _]; subst.
      exists h, ds. auto. }
  destruct Hx as (h & ds & -> & Hds & Hfull).
  pose proof (snapStreams_concat (s :: rest)) as Ec. rewrite E in Ec.
  assert (Hslice : firstn (hi - lo) (skipn lo (s :: rest)) = h :: ds).
  { rewrite <- Ec, Ehi, Elo.
    replace (List.length (List.concat pre) + List.length (h :: ds)
             - List.length (List.concat pre))%nat
      with (List.length (h :: ds)) by lia.
    apply concat_slice. }
  split.
  - split; [simpl in Ehi; lia|].
    rewrite <- Ec, Ehi, Elo, concat_app, length_app. simpl. rewrite length_app. simpl. lia.
  - exists h, ds. repeat split; auto.
    rewrite <- Ec, Elo. apply concat_head.
Qed.

Lemma stream_is_head_then_deltas_witness :
  (3 < 5 <= List.length demoList)%nat /\
  exists h deltas,
    firstn (5 - 3) (skipn 3 demoList) = h :: deltas /\
    nth_error demoList 3 = Some h /\
    Forall (fun d => isFull d = false) deltas /\
    ((0 < 1)%nat -> isFull h = true).
Proof.
  apply (stream_is_head_then_deltas demoList 1%nat 3%nat 5%nat); reflexivity.
Defined.

(** ** No index out of range *)

Section TotalFacts.

Context {Store : Type} {store : SnapStore Store}.

Lemma gcPass_returns (ssr : Snapshotter) (now : time.Time) (s : Store) :
  exists s' tr, gcPass ssr now s = (Some tt, s', tr).
Proof.
  destruct (List s) as [s1 [l|e]] eqn:HL.
  - destruct (String.eqb (garbageCollectionPolicy ssr) GarbageCollectionPolicyExponential)
      eqn:He.
    + apply String.eqb_eq in He.
      destruct (exponential_pass_rounds ssr now s s1 l He HL) as (s' & tr & _ & _ & H & _).
      eauto.
    + destruct (String.eqb (garbageCollectionPolicy ssr) GarbageCollectionPolicyLimitBased)
        eqn:Hl.
      * apply String.eqb_eq in Hl.
        destruct (limit_pass_rounds ssr now s s1 l Hl HL) as (s' & tr & _ & _ & H & _).
        eauto.
      * rewrite (gcPass_listed _ _ _ _ _ HL). unfold collect. rewrite He, Hl.
        cbv [ret]. eauto.
  - cbv [gcPass bind logf tell storeList ret]. rewrite HL. eauto.
Qed.

(** X3: over listings without nil entries, which are the lists of this
    development, no index or slice expression of the collector goes out of
    range.  Whatever such a listing is (empty, one that starts with a delta
    snapshot, one in any order), whatever the policy and [maxBackups] are
    and whichever deletes fail, every pass runs to its end, and so does the
    collector on any signals.  The dereference of a nil entry, the other way
    the code can panic, is not covered. *)
Theorem collector_never_panics (ssr : Snapshotter) (signals : list Signal) (s : Store) :
  (forall now s0, exists s' tr, gcPass ssr now s0 = (Some tt, s', tr)) /\
  exists s' tr, GarbageCollector ssr signals s = (Some tt, s', tr).
Proof.
  split; [intros now s0; apply gcPass_returns|].
  revert s. induction signals as [|[|now] signals IH]; intros s.
  - cbv [GarbageCollector ret]. eauto.
  - cbv [GarbageCollector logf tell]. eauto.
  - cbn [GarbageCollector]. unfold bind.
    destruct (gcPass_returns ssr now s) as (s1 & t1 & ->).
    destruct (IH s1) as (s2 & t2 & ->). eauto.
Qed.

End TotalFacts.

(** ** What a pass never deletes, and what it always does *)

Lemma rounds_sweeps_all (V : Type) (onFail : V -> V) (onOk : V -> Snapshot -> V * bool)
    v streams calls v' :
  Rounds V onFail onOk v streams calls v' ->
  Forall (fun c => snd c = None) (List.concat calls) ->
  forall h deltas, In (h :: deltas) streams ->
  forall d, In d deltas -> In d (map fst (List.concat calls)).
Proof.
  induction 1 as [v|v x c v1 streams calls v' HR HRs IH]; intros Hok h deltas Hin d Hd;
    [destruct Hin|].
  simpl in Hok. apply Forall_app in Hok. destruct Hok as [Hc Hcs].
  simpl. rewrite map_app. apply in_or_app. destruct Hin as [->|Hin].
  - left. inversion HR as [v0 h0 ds0 ok d0 rest e E|v0 h0 ds0 Hdec|v0 h0 ds0 r Hdec]; subst.
    + exfalso. apply Forall_app in Hc. destruct Hc as [_ Hc]. inversion Hc; subst. discriminate.
    + rewrite succeeded_fst. apply -> in_rev. exact Hd.
    + rewrite map_app, succeeded_fst. apply in_or_app. left. apply -> in_rev. exact Hd.
  - right. eapply IH; eauto.
Qed.

Section DeleteFacts.

Context {Store : Type} {store : SnapStore Store}.

(** X5: in a pass under either policy in which every delete succeeds, every
    snapshot that stands after the head in a stream other than the latest
    is handed to [store.Delete]: of the delta snapshots only those of the
    latest stream are left, whatever [maxBackups] is and whichever heads
    the policy keeps. *)
Theorem successful_pass_sweeps_every_old_stream (ssr : Snapshotter) (now : time.Time)
    (s s1 s' : Store) (snapList : SnapList) (r : option unit) (tr : Trace)
    (i lo hi j : nat) (d : Snapshot) :
  garbageCollectionPolicy ssr = GarbageCollectionPolicyExponential \/
  garbageCollectionPolicy ssr = GarbageCollectionPolicyLimitBased ->
  List s = (s1, inl snapList) ->
  gcPass ssr now s = (r, s', tr) ->
  allDeletesSucceed tr ->
  nth_error (snapStreamIndexList snapList) i = Some lo ->
  nth_error (snapStreamIndexList snapList) (S i) = Some hi ->
  (lo < j < hi)%nat ->
  nth_error snapList j = Some d ->
  In d (deleteCalls tr).
Proof.
  intros Hp HL Hrun Hok Hlo Hhi Hj Hd.
  destruct (stream_at snapList i lo hi Hlo Hhi) as (pre & x & y & post & Ess & _ & _ & Ex).
  assert (Hx : exists h deltas, x = h :: deltas /\ In d deltas).
  { assert (E : nth_error x (j - lo) = Some d).
    { rewrite <- Ex, nth_error_firstn.
      destruct (Nat.ltb_spec (j - lo) (hi - lo)); [|lia].
      rewrite nth_error_skipn. replace (lo + (j - lo))%nat with j by lia. exact Hd. }
    destruct x as [|h deltas]; [destruct (j - lo)%nat; discriminate|].
    exists h, deltas. split; [reflexivity|].
    destruct (j - lo)%nat as [|k] eqn:Ek; [lia|]. simpl in E.
    eapply nth_error_In; eauto. }
  destruct Hx as (h & deltas & -> & Hin).
  assert (Hfront : In (h :: deltas) (removelast (snapStreams snapList)))
    by (rewrite Ess; apply in_removelast_mid).
  apply allDeletesSucceed_results in Hok.
  rewrite deleteCalls_results.
  destruct Hp as [Hp|Hp].
  - destruct (exponential_pass_rounds ssr now s s1 snapList Hp HL)
      as (s2 & tr2 & calls & st' & Hrun2 & Hres & HR).
    rewrite Hrun2 in Hrun. inversion Hrun; subst r s' tr. rewrite Hres in *.
    eapply rounds_sweeps_all; eauto. apply -> in_rev. exact Hfront.
  - destruct (limit_pass_rounds ssr now s s1 snapList Hp HL)
      as (s2 & tr2 & calls & v' & Hrun2 & Hres & HR).
    rewrite Hrun2 in Hrun. inversion Hrun; subst r s' tr. rewrite Hres in *.
    eapply rounds_sweeps_all; eauto.
Qed.

(** X6: a pass of the exponential policy calls [store.Delete] only on
    snapshots listed before the start of the latest stream; so, in a
    listing that holds no snapshot twice, neither on the head of the latest
    stream nor on any of its deltas, however old they are. *)
Theorem exponential_spares_latest_stream (ssr : Snapshotter) (now : time.Time)
    (s s1 s' : Store) (snapList : SnapList) (r : option unit) (tr : Trace) :
  garbageCollectionPolicy ssr = GarbageCollectionPolicyExponential ->
  List s = (s1, inl snapList) ->
  gcPass ssr now s = (r, s', tr) ->
  (forall snap, In snap (deleteCalls tr) ->
     In snap (firstn (last (snapStreamIndexList snapList) 0%nat) snapList)) /\
  (NoDup snapList ->
   forall snap, In snap (skipn (last (snapStreamIndexList snapList) 0%nat) snapList) ->
     ~ In snap (deleteCalls tr)).
Proof.
  intros Hp HL Hrun.
  destruct (exponential_pass_rounds ssr now s s1 snapList Hp HL)
    as (s2 & tr2 & calls & st' & Hrun2 & Hd & HR).
  rewrite Hrun2 in Hrun. inversion Hrun; subst r s' tr. clear Hrun.
  assert (Hincl : forall snap, In snap (deleteCalls tr2) ->
            In snap (firstn (last (snapStreamIndexList snapList) 0%nat) snapList)).
  { intros snap Hin. rewrite <- front_firstn.
    eapply Permutation_in; [apply concat_rev_perm|].
    eapply rounds_calls_incl; eauto. rewrite <- Hd, <- deleteCalls_results. exact Hin. }
  split; [exact Hincl|].
  intros HN snap Hlate Hdel. apply Hincl in Hdel.
  rewrite <- (firstn_skipn (last (snapStreamIndexList snapList) 0%nat) snapList) in HN.
  eapply NoDup_app_disjoint; eauto.
Qed.

(** X7: in a pass under either policy over a listing that holds no snapshot
    twice, no snapshot is handed to [store.Delete] twice, whether the first
    delete of it failed or not, and every snapshot handed to it is of the
    listing. *)
Theorem pass_deletes_at_most_once (ssr : Snapshotter) (now : time.Time)
    (s s1 s' : Store) (snapList : SnapList) (r : option unit) (tr : Trace) :
  garbageCollectionPolicy ssr = GarbageCollectionPolicyExponential \/
  garbageCollectionPolicy ssr = GarbageCollectionPolicyLimitBased ->
  NoDup snapList ->
  List s = (s1, inl snapList) ->
  gcPass ssr now s = (r, s', tr) ->
  NoDup (deleteCalls tr) /\ incl (deleteCalls tr) snapList.
Proof.
  intros Hp HN HL Hrun.
  destruct (pass_rounds ssr now s s1 snapList Hp HN HL)
    as (s2 & tr2 & V & onFail & onOk & v & streams & calls & v' &
        Hrun2 & Hd & HR & HNs & Hin).
  rewrite Hrun2 in Hrun. inversion Hrun; subst r s' tr. clear Hrun.
  rewrite deleteCalls_results, Hd. split.
  - eapply rounds_calls_NoDup; eauto.
  - clear HNs Hin.
    destruct Hp as [Hp|Hp].
    + destruct (exponential_pass_rounds ssr now s s1 snapList Hp HL)
        as (s3 & tr3 & calls3 & st3 & Hrun3 & Hd3 & HR3).
      rewrite Hrun2 in Hrun3. inversion Hrun3; subst s3 tr3.
      intros a Ha. rewrite <- Hd, Hd3 in Ha.
      apply (rounds_calls_incl _ _ _ _ _ _ _ HR3) in Ha.
      apply (Permutation_in _ (concat_rev_perm _)) in Ha.
      rewrite <- (snapStreams_concat snapList), snapStreams_split_last, concat_app.
      apply in_or_app. left. exact Ha.
    + destruct (limit_pass_rounds ssr now s s1 snapList Hp HL)
        as (s3 & tr3 & calls3 & st3 & Hrun3 & Hd3 & HR3).
      rewrite Hrun2 in Hrun3. inversion Hrun3; subst s3 tr3.
      intros a Ha. rewrite <- Hd, Hd3 in Ha.
      apply (rounds_calls_incl _ _ _ _ _ _ _ HR3) in Ha.
      rewrite <- (snapStreams_concat snapList), snapStreams_split_last, concat_app.
      apply in_or_app. left. exact Ha.
Qed.

End DeleteFacts.

(** ** The limit-based policy with a limit of one or less *)

Lemma appendFullIndexes_length (rest : SnapList) :
  forall (k : nat) (acc : list nat),
    (List.length (appendFullIndexes rest k acc) <= List.length acc + List.length rest)%nat.
Proof.
  induction rest as [|s rest IH]; intros k acc; simpl; [lia|].
  specialize (IH (S k) (if isFull s then acc ++ [k] else acc)).
  destruct (isFull s); [rewrite length_app in IH; simpl in IH|]; lia.
Qed.

Lemma snapStreamIndexList_length (snapList : SnapList) :
  (List.length (snapStreamIndexList snapList) <= 1 + List.length snapList)%nat.
Proof.
  unfold snapStreamIndexList.
  pose proof (appendFullIndexes_length (skipn 1 snapList) 1 [0%nat]) as H.
  rewrite length_skipn in H. cbn [List.length] in H. lia.
Qed.

Section LimitOne.

Context {Store : Type} {store : SnapStore Store}.

Lemma bind_cong {A B} (m m' : M A) (k k' : A -> M B) (s : Store) :
  m s = m' s -> (forall a s1, k a s1 = k' a s1) -> bind m k s = bind m' k' s.
Proof.
  intros Em Ek. unfold bind. rewrite Em. destruct (m' s) as [[[a|] s1] t1]; [|reflexivity].
  rewrite Ek. reflexivity.
Qed.

Lemma limitRound_one (m : Z) (snapList : SnapList) (indexList : list nat) (i : nat)
    (s : Store) :
  m <= 1 ->
  Z.of_nat (List.length indexList) - m < 2 ^ 63 ->
  limitRound m snapList indexList i s = limitRound 1 snapList indexList i s.
Proof.
  intros Hm Hlen. unfold limitRound.
  apply bind_ext. intros lo sa.
  unfold index at 1 3. destruct (nth_error indexList (i + 1)) as [hi|] eqn:Ehi;
    [|reflexivity].
  rewrite !bind_ret.
  apply bind_ext. intros snapStream sb.
  apply bind_ext. intros [e|] sc; [reflexivity|].
  assert (Hi : (i + 1 < List.length indexList)%nat)
    by (apply nth_error_Some; congruence).
  rewrite !wrapInt_small by lia.
  destruct (Z.ltb_spec (Z.of_nat i) (Z.of_nat (List.length indexList) - m)); [|lia].
  destruct (Z.ltb_spec (Z.of_nat i) (Z.of_nat (List.length indexList) - 1)); [|lia].
  reflexivity.
Qed.

Lemma limitLoop_one (m : Z) (snapList : SnapList) (indexList : list nat) (n : nat) :
  m <= 1 ->
  Z.of_nat (List.length indexList) - m < 2 ^ 63 ->
  forall (i : nat) (s : Store),
    limitLoop n m snapList indexList i s = limitLoop n 1 snapList indexList i s.
Proof.
  intros Hm Hlen. induction n as [|n IH]; intros i s; [reflexivity|].
  cbn [limitLoop]. apply bind_cong; [apply limitRound_one; assumption|].
  intros _ s1. apply IH.
Qed.

(** X8: a limit of one or less, zero and the negative numbers with it,
    works as a limit of one, as long as the subtraction
    [len(snapStreamIndexList) - maxBackups] does not overflow the integer:
    the pass of the limit-based policy then runs as it does with
    [maxBackups = 1], call for call and line for line.  So the latest stream
    is kept whole even at a limit of zero. *)
Theorem limit_of_one_or_less (ssr : Snapshotter) (now : time.Time)
    (s s1 : Store) (snapList : SnapList) :
  garbageCollectionPolicy ssr = GarbageCollectionPolicyLimitBased ->
  List s = (s1, inl snapList) ->
  maxBackups ssr <= 1 ->
  Z.of_nat (List.length (snapStreamIndexList snapList)) - maxBackups ssr < 2 ^ 63 ->
  gcPass ssr now s
  = gcPass (mkSnapshotter GarbageCollectionPolicyLimitBased 1) now s.
Proof.
  intros Hp HL Hm Hlen.
  rewrite !(gcPass_listed _ _ _ _ _ HL). unfold collect. rewrite Hp.
  cbn [garbageCollectionPolicy maxBackups String.eqb GarbageCollectionPolicyLimitBased
       GarbageCollectionPolicyExponential Ascii.eqb Bool.eqb].
  unfold gcLimitBased. rewrite limitLoop_one; [reflexivity|exact Hm|exact Hlen].
Qed.

End LimitOne.

Lemma limit_of_one_or_less_witness :
  gcPass (limitBased 0) (at_ 100 10 30) (holding demoList)
  = gcPass (mkSnapshotter GarbageCollectionPolicyLimitBased 1) (at_ 100 10 30)
      (holding demoList) /\
  deletedNames (gcPass (limitBased 0) (at_ 100 10 30) (holding demoList))
  = ["a2"; "a1"; "a"; "b1"; "b"]%string.
Proof.
  split.
  - apply (limit_of_one_or_less (limitBased 0) (at_ 100 10 30)
             (holding demoList) (holding demoList) demoList).
    + reflexivity.
    + reflexivity.
    + simpl. lia.
    + vm_compute. reflexivity.
  - vm_compute. reflexivity.
Defined.

(** ** The lines of a trace *)

Lemma Logged_app (sw : bool) (a b : Trace) : Logged sw a -> Logged sw b -> Logged sw (a ++ b).
Proof.
  induction 1 as [|mode snap t Hsw Hm _ IH|f args snap t Ha _ IH|f args snap e t Ha _ IH];
    intros Hb; simpl; [exact Hb| | |].
  - apply LoggedSwitch; auto.
  - apply LoggedDelete; auto.
  - apply LoggedFailed; auto.
Qed.

Lemma Logged_weaken (a : Trace) : Logged false a -> Logged true a.
Proof.
  induction 1 as [|mode snap t Hsw Hm _ IH|f args snap t Ha _ IH|f args snap e t Ha _ IH].
  - constructor.
  - discriminate.
  - apply LoggedDelete; auto.
  - apply LoggedFailed; auto.
Qed.

Lemma Logged_warnings (sw : bool) (a : Trace) :
  Logged sw a -> List.length (warnings a) = failedCalls a.
Proof.
  induction 1 as [|mode snap t Hsw Hm _ IH|f args snap t Ha _ IH|f args snap e t Ha _ IH];
    simpl; auto.
Qed.

Lemma Logged_listCalls (sw : bool) (a : Trace) : Logged sw a -> listCalls a = 0%nat.
Proof.
  induction 1 as [|mode snap t Hsw Hm _ IH|f args snap t Ha _ IH|f args snap e t Ha _ IH];
    simpl; auto.
Qed.

Lemma switches_app (a b : Trace) : switches (a ++ b) = switches a ++ switches b.
Proof. unfold switches. apply flat_map_app. Qed.

Lemma Logged_switches (a : Trace) : Logged false a -> switches a = [].
Proof.
  induction 1 as [|mode snap t Hsw Hm _ IH|f args snap t Ha _ IH|f args snap e t Ha _ IH].
  - reflexivity.
  - discriminate.
  - destruct Ha as [[-> _]|[[-> _]|[-> _]]]; exact IH.
  - destruct Ha as [[-> _]|[[-> _]|[-> _]]]; exact IH.
Qed.

Section TraceFacts.

Context {Store : Type} {store : SnapStore Store}.

Lemma sweepList_logged (deltas : list Snapshot) :
  forall s : Store, Logged false (snd (sweepList deltas s)).
Proof.
  induction deltas as [|d ds IH]; intros s; [constructor|].
  cbn [sweepList]. unfold logf at 1. rewrite bind_tell.
  unfold bind at 1, storeDelete at 1.
  destruct (Delete s d) as [s1 [e|]] eqn:E.
  - cbv [bind logf tell ret snd app].
    apply (LoggedFailed false _ _ d e []); [left; auto|constructor].
  - specialize (IH s1). destruct (sweepList ds s1) as [[r s2] t2]. cbn [snd app] in *.
    apply (LoggedDelete false _ _ d t2); [left; auto|exact IH].
Qed.

End TraceFacts.

(** ** The lines of the mode switch *)

Lemma hourLoop_log n now snap st :
  (snd (hourLoop n now snap st) = [] /\
   backupMode (fst (hourLoop n now snap st)) = backupMode st) \/
  (snd (hourLoop n now snap st) = [infoSwitch "Day" snap] /\
   backupMode (fst (hourLoop n now snap st)) = ModeDay).
Proof.
  revert st. induction n as [|n IH]; intros st; simpl; [auto|].
  destruct (_ =? 0); [destruct (_ =? -1); simpl; auto|].
  destruct (_ >? 0); [|simpl; auto].
  apply (IH (mkExpState (deleteSnap st) (backupMode st) (backupCount st - 1))).
Qed.

Lemma dayLoop_log n now snap st :
  (snd (dayLoop n now snap st) = [] /\
   backupMode (fst (dayLoop n now snap st)) = backupMode st) \/
  (snd (dayLoop n now snap st) = [infoSwitch "Week" snap] /\
   backupMode (fst (dayLoop n now snap st)) = ModeWeek).
Proof.
  revert st. induction n as [|n IH]; intros st; simpl; [auto|].
  destruct (_ =? 0); [destruct (_ =? -1); simpl; auto|].
  destruct (_ >? 0); [|simpl; auto].
  apply (IH (mkExpState (deleteSnap st) (backupMode st) (backupCount st - 1))).
Qed.

Lemma weekLoop_log n now snap st :
  (snd (weekLoop n now snap st) = [] /\
   backupMode (fst (weekLoop n now snap st)) = backupMode st) \/
  (snd (weekLoop n now snap st) = [infoSwitch "Month" snap] /\
   backupMode (fst (weekLoop n now snap st)) = ModeMonth).
Proof.
  revert st. induction n as [|n IH]; intros st; simpl; [auto|].
  destruct (_ =? 0); [destruct (_ =? -1); simpl; auto|].
  destruct (_ >? 0); [|simpl; auto].
  apply (IH (mkExpState (deleteSnap st) (backupMode st) (backupCount st - 1))).
Qed.

Lemma Logged_switch_line (mode : string) (snap : Snapshot) (t : Trace) :
  In mode switchNames -> Logged true t -> Logged true (infoSwitch mode snap :: t).
Proof. intros Hm Ht. apply LoggedSwitch; auto. Qed.

Ltac switch_names := unfold switchNames; simpl; tauto.

Lemma caseWeek_log now snap st :
  backupMode st = ModeWeek ->
  switches (snd (caseWeek now snap st))
  = modesFromTo ModeWeek (backupMode (fst (caseWeek now snap st))) /\
  Logged true (snd (caseWeek now snap st)).
Proof.
  intros Hm. unfold caseWeek.
  pose proof (weekLoop_log (Z.to_nat (backupCount st + 1)) now snap st) as H.
  destruct (weekLoop _ now snap st) as [st1 l1]. cbn [fst snd] in H. rewrite Hm in H.
  destruct (backupCount st1 >=? 0).
  - cbn [fst snd]. destruct H as [[-> ->]|[-> ->]]; split; try reflexivity.
    + constructor.
    + apply Logged_switch_line; [switch_names|constructor].
  - destruct (BackupMode_eqb (backupMode st1) ModeMonth) eqn:E.
    + cbn [fst snd]. destruct H as [[-> Hm1]|[-> ->]].
      * rewrite Hm1 in E. discriminate.
      * split; [reflexivity|]. apply Logged_switch_line; [switch_names|constructor].
    + cbn [caseMonth fst snd backupMode]. destruct H as [[-> Hm1]|[-> Hm1]].
      * split; [reflexivity|]. apply Logged_switch_line; [switch_names|constructor].
      * rewrite Hm1 in E. discriminate.
Qed.

Lemma caseDay_log now snap st :
  backupMode st = ModeDay ->
  switches (snd (caseDay now snap st))
  = modesFromTo ModeDay (backupMode (fst (caseDay now snap st))) /\
  Logged true (snd (caseDay now snap st)).
Proof.
  intros Hm. unfold caseDay.
  pose proof (dayLoop_log (Z.to_nat (backupCount st + 1)) now snap st) as H.
  destruct (dayLoop _ now snap st) as [st1 l1]. cbn [fst snd] in H. rewrite Hm in H.
  destruct (backupCount st1 >=? 0).
  - cbn [fst snd]. destruct H as [[-> ->]|[-> ->]]; split; try reflexivity.
    + constructor.
    + apply Logged_switch_line; [switch_names|constructor].
  - destruct (BackupMode_eqb (backupMode st1) ModeWeek) eqn:E.
    + cbn [fst snd]. destruct H as [[-> Hm1]|[-> ->]].
      * rewrite Hm1 in E. discriminate.
      * split; [reflexivity|]. apply Logged_switch_line; [switch_names|constructor].
    + destruct H as [[-> Hm1]|[-> Hm1]]; [|rewrite Hm1 in E; discriminate].
      pose proof (caseWeek_log now snap
                    (mkExpState (deleteSnap st1) ModeWeek (weekModeLimit - 1)) eq_refl)
        as [Hs Hl].
      pose proof (caseWeek_rank now snap
                    (mkExpState (deleteSnap st1) ModeWeek (weekModeLimit - 1)) eq_refl) as Hr.
      destruct (caseWeek now snap _) as [st2 l2]. cbn [fst snd app] in *.
      split; [|apply Logged_switch_line; [switch_names|exact Hl]].
      change (switches (infoSwitch "Week" snap :: l2)) with (ModeWeek :: switches l2).
      rewrite Hs. destruct (backupMode st2); simpl in Hr; try lia; reflexivity.
Qed.

Lemma caseHour_log now snap st :
  backupMode st = ModeHour ->
  switches (snd (caseHour now snap st))
  = modesFromTo ModeHour (backupMode (fst (caseHour now snap st))) /\
  Logged true (snd (caseHour now snap st)).
Proof.
  intros Hm. unfold caseHour.
  pose proof (hourLoop_log (Z.to_nat (backupCount st + 1)) now snap st) as H.
  destruct (hourLoop _ now snap st) as [st1 l1]. cbn [fst snd] in H. rewrite Hm in H.
  destruct (backupCount st1 >=? 0).
  - cbn [fst snd]. destruct H as [[-> ->]|[-> ->]]; split; try reflexivity.
    + constructor.
    + apply Logged_switch_line; [switch_names|constructor].
  - destruct (BackupMode_eqb (backupMode st1) ModeDay) eqn:E.
    + cbn [fst snd]. destruct H as [[-> Hm1]|[-> ->]].
      * rewrite Hm1 in E. discriminate.
      * split; [reflexivity|]. apply Logged_switch_line; [switch_names|constructor].
    + destruct H as [[-> Hm1]|[-> Hm1]]; [|rewrite Hm1 in E; discriminate].
      pose proof (caseDay_log now snap
                    (mkExpState (deleteSnap st1) ModeDay (dayModeLimit - 1)) eq_refl)
        as [Hs Hl].
      pose proof (caseDay_rank now snap
                    (mkExpState (deleteSnap st1) ModeDay (dayModeLimit - 1)) eq_refl) as Hr.
      destruct (caseDay now snap _) as [st2 l2]. cbn [fst snd app] in *.
      split; [|apply Logged_switch_line; [switch_names|exact Hl]].
      change (switches (infoSwitch "Day" snap :: l2)) with (ModeDay :: switches l2).
      rewrite Hs. destruct (backupMode st2); simpl in Hr; try lia; reflexivity.
Qed.

Lemma switchBackupMode_log now snap st :
  switches (snd (switchBackupMode now snap st))
  = modesFromTo (backupMode st) (backupMode (fst (switchBackupMode now snap st))) /\
  Logged true (snd (switchBackupMode now snap st)).
Proof.
  unfold switchBackupMode. destruct (backupMode st) eqn:Hm.
  - unfold caseNone.
    destruct (time.Equal _ _).
    + cbn [fst snd backupMode]. rewrite Hm. split; [reflexivity|constructor].
    + pose proof (caseHour_log now snap
                    (mkExpState false ModeHour (hourModeLimit - 1)) eq_refl) as [Hs Hl].
      pose proof (caseHour_rank now snap
                    (mkExpState false ModeHour (hourModeLimit - 1)) eq_refl) as Hr.
      destruct (caseHour now snap _) as [st2 l2]. cbn [fst snd] in *.
      split; [|apply Logged_switch_line; [switch_names|exact Hl]].
      change (switches (infoSwitch "Hour" snap :: l2)) with (ModeHour :: switches l2).
      rewrite Hs. destruct (backupMode st2); simpl in Hr; try lia; reflexivity.
  - apply caseHour_log. exact Hm.
  - apply caseDay_log. exact Hm.
  - apply caseWeek_log. exact Hm.
  - cbn [caseMonth fst snd backupMode]. rewrite Hm. split; [reflexivity|constructor].
Qed.

Lemma modesFromTo_app (a b c : BackupMode) :
  (modeRank a <= modeRank b)%nat -> (modeRank b <= modeRank c)%nat ->
  modesFromTo a b ++ modesFromTo b c = modesFromTo a c.
Proof. destruct a, b, c; simpl; intros; try lia; reflexivity. Qed.

Lemma modesFromTo_same (a : BackupMode) : modesFromTo a a = [].
Proof. destruct a; reflexivity. Qed.

(** ** The lines of a round and of a pass *)

Section RoundTraces.

Context {Store : Type} {store : SnapStore Store}.

Ltac round_panicked :=
  let H := fresh "H" in
  intros H; cbv [bind panic] in H; inversion H; subst;
  exists [], [], []; split; [reflexivity|]; split; [apply LoggedNil|];
  split; [apply LoggedNil|]; left; split; [reflexivity|left; reflexivity].

Lemma sweep_logged (snapStream : SnapList) (s : Store) :
  Logged false (snd (garbageCollectDeltaSnapshots snapStream s)).
Proof. rewrite sweep_sweepList. apply sweepList_logged. Qed.

(** The trace of a round of the exponential loop: the sweep, the lines of
    the mode switch when the sweep went through, and the delete of the
    head when the switch says so. *)
Lemma exponentialRound_trace (now : time.Time) (snapList : SnapList) (indexList : list nat)
    (i : nat) (st : ExpState) (s s' : Store) (r : option ExpState) (tr : Trace) :
  exponentialRound now snapList indexList i st s = (r, s', tr) ->
  exists t1 sw t2,
    tr = t1 ++ sw ++ t2 /\
    Logged false t1 /\ Logged false t2 /\
    ((sw = [] /\ (r = None \/ r = Some st)) \/
     (exists snap,
        sw = snd (switchBackupMode now snap st) /\
        r = Some (fst (switchBackupMode now snap st)))).
Proof.
  unfold exponentialRound, index.
  destruct (nth_error indexList i) as [lo|]; [|round_panicked].
  rewrite bind_ret.
  destruct (nth_error snapList lo) as [snap|]; [|round_panicked].
  rewrite bind_ret.
  destruct (nth_error indexList (i + 1)) as [hi|]; [|round_panicked].
  rewrite bind_ret. unfold slice.
  destruct (_ && _); [|round_panicked].
  rewrite bind_ret. unfold bind at 1.
  pose proof (sweep_logged (firstn (hi - lo) (skipn lo snapList)) s) as HL.
  destruct (garbageCollectDeltaSnapshots _ s) as [[[err|] s1] t1]; cbn [snd] in HL.
  2: { intros H. inversion H; subst. exists tr, [], []. rewrite !app_nil_r.
       split; [reflexivity|]. split; [exact HL|]. split; [constructor|]. auto. }
  destruct err as [e|].
  - cbv [ret]. intros H. inversion H; subst. exists t1, [], [].
    split; [reflexivity|]. split; [exact HL|]. split; [constructor|]. auto.
  - destruct (switchBackupMode now snap st) as [st1 logs] eqn:Esw.
    assert (Er : forall x, x = Some st1 ->
              exists snap0, logs = snd (switchBackupMode now snap0 st) /\
                            x = Some (fst (switchBackupMode now snap0 st))).
    { intros x ->. exists snap. rewrite Esw. auto. }
    destruct (deleteSnap st1) eqn:Hdel.
    + cbv [bind logf tell storeDelete ret]. destruct (Delete s1 snap) as [s2 [e|]].
      * intros H. inversion H; subst.
        exists t1, logs,
          [EvLog Info "GC: Deleting old full snapshot: %s %v"
             [ArgTime (CreatedOn snap); ArgBool true];
           EvDelete snap (Some e); warnDelete snap e].
        split; [rewrite ?app_nil_r; reflexivity|]. split; [exact HL|]. split.
        -- apply (LoggedFailed false _ _ snap e []); [right; right; auto|constructor].
        -- right. apply Er. reflexivity.
      * intros H. inversion H; subst.
        exists t1, logs,
          [EvLog Info "GC: Deleting old full snapshot: %s %v"
             [ArgTime (CreatedOn snap); ArgBool true];
           EvDelete snap None].
        split; [rewrite ?app_nil_r; reflexivity|]. split; [exact HL|]. split.
        -- apply (LoggedDelete false _ _ snap []); [right; right; auto|constructor].
        -- right. apply Er. reflexivity.
    + cbv [bind tell ret]. intros H. inversion H; subst. exists t1, logs, [].
      split; [rewrite ?app_nil_r; reflexivity|]. split; [exact HL|].
      split; [constructor|]. right. apply Er. reflexivity.
Qed.

Lemma limitRound_logged (maxBackups : Z) (snapList : SnapList) (indexList : list nat)
    (i : nat) (s : Store) :
  Logged false (snd (limitRound maxBackups snapList indexList i s)).
Proof.
  unfold limitRound, index.
  destruct (nth_error indexList i) as [lo|]; [|constructor].
  rewrite bind_ret.
  destruct (nth_error indexList (i + 1)) as [hi|]; [|constructor].
  rewrite bind_ret. unfold slice.
  destruct (_ && _); [|constructor].
  rewrite bind_ret. unfold bind at 1.
  pose proof (sweep_logged (firstn (hi - lo) (skipn lo snapList)) s) as HL.
  destruct (garbageCollectDeltaSnapshots _ s) as [[[err|] s1] t1]; cbn [snd] in HL;
    [|exact HL].
  destruct err as [e|]; [cbv [ret]; cbn [snd]; rewrite app_nil_r; exact HL|].
  destruct (_ <? _); [|cbv [ret]; cbn [snd]; rewrite app_nil_r; exact HL].
  destruct (nth_error snapList lo) as [snap|];
    [|cbv [bind panic]; cbn [snd]; rewrite app_nil_r; exact HL].
  rewrite bind_ret. cbv [bind logf tell storeDelete ret].
  destruct (Delete s1 snap) as [s2 [e|]]; cbn [snd]; apply Logged_app; auto.
  - apply (LoggedFailed false _ _ snap e []); [right; left; auto|constructor].
  - apply (LoggedDelete false _ _ snap []); [right; left; auto|constructor].
Qed.

Lemma limitLoop_logged (maxBackups : Z) (snapList : SnapList) (indexList : list nat)
    (n : nat) :
  forall (i : nat) (s : Store),
    Logged false (snd (limitLoop n maxBackups snapList indexList i s)).
Proof.
  induction n as [|n IH]; intros i s; [constructor|].
  cbn [limitLoop]. unfold bind.
  pose proof (limitRound_logged maxBackups snapList indexList i s) as H1.
  destruct (limitRound _ _ _ _ s) as [[[u|] s1] t1]; cbn [snd] in *; [|exact H1].
  specialize (IH (S i) s1).
  destruct (limitLoop _ _ _ _ _ s1) as [[r s2] t2]. cbn [snd] in *.
  apply Logged_app; assumption.
Qed.

(** The exponential loop: its lines are those of deletes and of mode
    switches, and the switches it logs are the modes from the one it
    starts in to the one it ends in. *)
Lemma exponentialLoop_logged (now : time.Time) (snapList : SnapList) (indexList : list nat)
    (n : nat) :
  forall (st : ExpState) (s : Store),
    Logged true (snd (exponentialLoop n now snapList indexList st s)) /\
    forall st', fst (fst (exponentialLoop n now snapList indexList st s)) = Some st' ->
      (modeRank (backupMode st) <= modeRank (backupMode st'))%nat /\
      switches (snd (exponentialLoop n now snapList indexList st s))
      = modesFromTo (backupMode st) (backupMode st').
Proof.
  induction n as [|n IH]; intros st s.
  - cbv [exponentialLoop ret]. cbn [fst snd]. split; [constructor|].
    intros st' E. inversion E; subst. split; [lia|]. rewrite modesFromTo_same. reflexivity.
  - cbn [exponentialLoop]. unfold bind.
    destruct (exponentialRound now snapList indexList n st s) as [[r1 s1] tr1] eqn:ER.
    destruct (exponentialRound_trace _ _ _ _ _ _ _ _ _ ER)
      as (t1 & sw & t2 & Et & H1 & H2 & Hsw).
    destruct r1 as [st1|]; cbn [fst snd] in *.
    + specialize (IH st1 s1). destruct IH as [IHl IHs].
      destruct (exponentialLoop n now snapList indexList st1 s1) as [[r s2] tr2].
      cbn [fst snd] in *. subst tr1.
      assert (Hfacts : Logged true sw /\ (modeRank (backupMode st) <= modeRank (backupMode st1))%nat /\
                       switches sw = modesFromTo (backupMode st) (backupMode st1)).
      { destruct Hsw as [[-> [E|E]]|(snap & -> & E)].
        - discriminate.
        - inversion E; subst. split; [constructor|]. split; [lia|].
          rewrite modesFromTo_same. reflexivity.
        - inversion E; subst. destruct (switchBackupMode_log now snap st) as [Hs Hl].
          split; [exact Hl|]. split; [apply switchBackupMode_rank|exact Hs]. }
      destruct Hfacts as (Hl & Hr & Hs). split.
      * repeat apply Logged_app; auto using Logged_weaken.
      * intros st' E. destruct (IHs st' E) as [Hr2 Hs2]. split; [lia|].
        rewrite !switches_app, (Logged_switches _ H1), (Logged_switches _ H2), Hs, Hs2.
        cbn [app]. rewrite app_nil_r. apply modesFromTo_app; assumption.
    + split; [|discriminate]. subst tr1.
      destruct Hsw as [[-> _]|(snap & _ & E)]; [|discriminate].
      repeat apply Logged_app; auto using Logged_weaken. constructor.
Qed.

Lemma collect_logged (ssr : Snapshotter) (now : time.Time) (snapList : SnapList)
    (s : Store) :
  Logged true (snd (collect ssr now snapList s)).
Proof.
  unfold collect.
  destruct (String.eqb _ GarbageCollectionPolicyExponential).
  - unfold gcExponential, bind.
    destruct (exponentialLoop_logged now snapList (snapStreamIndexList snapList)
                (List.length (snapStreamIndexList snapList) - 1) initExpState s) as [H _].
    destruct (exponentialLoop _ _ _ _ _ s) as [[[st'|] s1] t1]; cbn [snd] in *.
    + cbv [ret]. rewrite app_nil_r. exact H.
    + exact H.
  - destruct (String.eqb _ GarbageCollectionPolicyLimitBased).
    + apply Logged_weaken. apply limitLoop_logged.
    + constructor.
Qed.

(** The trace of a pass: the line that opens it, the call of [store.List],
    and then either the warning on the listing or the deletes. *)
Lemma gcPass_trace (ssr : Snapshotter) (now : time.Time) (s : Store) :
  exists res rest,
    snd (gcPass ssr now s)
    = EvLog Info "GC: Executing garbage collection..." [] :: EvList res :: rest /\
    match res with
    | Some e => rest = [warnList e]
    | None => Logged true rest
    end.
Proof.
  destruct (List s) as [s1 [l|e]] eqn:HL.
  - rewrite (gcPass_listed _ _ _ _ _ HL).
    pose proof (collect_logged ssr now l s1) as H.
    destruct (collect ssr now l s1) as [[r s'] t]. cbn [snd] in *.
    exists None, t. auto.
  - cbv [gcPass bind logf tell storeList ret]. rewrite HL. cbn [snd app].
    exists (Some e). eexists. split; reflexivity.
Qed.

End RoundTraces.

Lemma listCalls_app (a b : Trace) : listCalls (a ++ b) = (listCalls a + listCalls b)%nat.
Proof.
  induction a as [|e a IH]; [reflexivity|].
  destruct e; simpl; rewrite IH; reflexivity.
Qed.

Section TraceClaims.

Context {Store : Type} {store : SnapStore Store}.

(** X9: what a pass logs of its store calls.  The trace of a pass is the
    line that opens it and the call of [store.List]; when the listing fails,
    one warning with its error and nothing more; otherwise deletes and
    lines of mode switches only, every call of [store.Delete] right after
    the line that announces it and, when it fails, right before a warning
    that names the snapshot and the error.  So the warnings of a pass are as
    many as the store calls that failed. *)
Theorem failures_are_warned (ssr : Snapshotter) (now : time.Time) (s : Store) :
  (exists res rest,
     snd (gcPass ssr now s)
     = EvLog Info "GC: Executing garbage collection..." [] :: EvList res :: rest /\
     match res with
     | Some e => rest = [warnList e]
     | None => Logged true rest
     end) /\
  List.length (warnings (snd (gcPass ssr now s))) = failedCalls (snd (gcPass ssr now s)).
Proof.
  destruct (gcPass_trace ssr now s) as (res & rest & E & H).
  split; [exists res, rest; auto|].
  rewrite E. destruct res as [e|].
  - subst rest. reflexivity.
  - simpl. eapply Logged_warnings; eauto.
Qed.

Lemma gcPass_listCalls (ssr : Snapshotter) (now : time.Time) (s : Store) :
  listCalls (snd (gcPass ssr now s)) = 1%nat.
Proof.
  destruct (gcPass_trace ssr now s) as (res & rest & E & H).
  rewrite E. destruct res as [e|].
  - subst rest. reflexivity.
  - simpl. f_equal. eapply Logged_listCalls; eauto.
Qed.

(** X4: the collector on timer signals followed by the stop signal.  Every
    timer signal runs one pass, with one call of [store.List], whatever
    failed in the passes before; the stop signal ends the collector with
    its line, and what signals come after it is never looked at. *)
Theorem collector_runs_until_stop (ssr : Snapshotter) (nows : list time.Time)
    (rest : list Signal) (s : Store) :
  GarbageCollector ssr (map TimeAfter nows ++ StopCh :: rest) s
  = GarbageCollector ssr (map TimeAfter nows ++ [StopCh]) s /\
  listCalls (snd (GarbageCollector ssr (map TimeAfter nows ++ StopCh :: rest) s))
  = List.length nows /\
  exists s' tr,
    GarbageCollector ssr (map TimeAfter nows ++ StopCh :: rest) s
    = (Some tt, s',
       tr ++ [EvLog Info "GC: Stop signal received. Closing garbage collector." []]).
Proof.
  revert s. induction nows as [|now nows IH]; intros s.
  - cbn [map app GarbageCollector]. cbv [logf tell]. cbn [snd listCalls List.length].
    split; [reflexivity|]. split; [reflexivity|]. exists s, []. reflexivity.
  - cbn [map app GarbageCollector List.length]. unfold bind.
    pose proof (gcPass_listCalls ssr now s) as H1.
    destruct (gcPass_returns ssr now s) as (s1 & t1 & E1). rewrite E1 in *.
    cbn [snd] in H1.
    destruct (IH s1) as (Ha & Hb & s2 & t2 & Hc).
    rewrite Ha. split; [reflexivity|]. rewrite <- Ha.
    rewrite Hc in *. cbn [snd] in *. split.
    + rewrite listCalls_app, H1, Hb. reflexivity.
    + exists s2, (t1 ++ t2). rewrite app_assoc. reflexivity.
Qed.

(** X10: the lines of the mode switches of the exponential policy.  The
    loop logs a switch to a mode when it enters it, and at no other time:
    the switches of its trace are, in order, the modes hour, day, week and
    month up to the mode it ends in, each once.  A pass of the exponential
    policy over a listing logs these switches of its loop, which returns,
    and no other; a pass of any other policy logs no switch, and neither
    does a pass whose listing fails. *)
Theorem mode_switches_logged_in_order (now : time.Time) :
  (forall (snapList : SnapList) (indexList : list nat) (s s' : Store)
          (st' : ExpState) (tr : Trace),
      gcExponential now snapList indexList s = (Some st', s', tr) ->
      switches tr
      = firstn (modeRank (backupMode st')) [ModeHour; ModeDay; ModeWeek; ModeMonth]) /\
  (forall (ssr : Snapshotter) (s s1 : Store) (snapList : SnapList),
      garbageCollectionPolicy ssr = GarbageCollectionPolicyExponential ->
      List s = (s1, inl snapList) ->
      exists st' s' tr,
        gcExponential now snapList (snapStreamIndexList snapList) s1 = (Some st', s', tr) /\
        switches (snd (gcPass ssr now s))
        = firstn (modeRank (backupMode st')) [ModeHour; ModeDay; ModeWeek; ModeMonth]) /\
  (forall (ssr : Snapshotter) (s : Store),
      garbageCollectionPolicy ssr <> GarbageCollectionPolicyExponential ->
      switches (snd (gcPass ssr now s)) = []) /\
  (forall (ssr : Snapshotter) (s s1 : Store) (e : Error),
      List s = (s1, inr e) ->
      switches (snd (gcPass ssr now s)) = []).
Proof.
  assert (Hloop : forall snapList indexList s,
            Logged true (snd (gcExponential now snapList indexList s)) /\
            (fst (fst (gcExponential now snapList indexList s)) = None \/
             exists st', fst (fst (gcExponential now snapList indexList s)) = Some st' /\
               switches (snd (gcExponential now snapList indexList s))
               = firstn (modeRank (backupMode st'))
                   [ModeHour; ModeDay; ModeWeek; ModeMonth])).
  { intros snapList indexList s. unfold gcExponential.
    destruct (exponentialLoop_logged now snapList indexList
                (List.length indexList - 1) initExpState s) as [Hl Hs].
    split; [exact Hl|].
    destruct (exponentialLoop _ _ _ _ _ s) as [[[st'|] s1] t1]; cbn [fst snd] in *;
      [|left; reflexivity].
    right. exists st'. split; [reflexivity|].
    destruct (Hs st' eq_refl) as [_ ->]. cbn [initExpState backupMode].
    destruct (backupMode st'); reflexivity. }
  assert (Hfail : forall ssr s s1 e, List s = (s1, inr e) ->
            switches (snd (gcPass ssr now s)) = []).
  { intros ssr s s1 e HL. cbv [gcPass bind logf tell storeList ret]. rewrite HL.
    reflexivity. }
  split; [|split; [|split]].
  - intros snapList indexList s s' st' tr E.
    destruct (Hloop snapList indexList s) as [_ [H|(st1 & H1 & H2)]];
      rewrite E in *; cbn [fst snd] in *; [discriminate|].
    inversion H1; subst. exact H2.
  - intros ssr s s1 l Hp HL.
    destruct (gcPass_returns ssr now s) as (s' & tr & Erun).
    rewrite (gcPass_listed _ _ _ _ _ HL) in Erun |- *. unfold collect in Erun |- *.
    rewrite Hp in Erun |- *. rewrite String.eqb_refl in Erun |- *.
    unfold bind in Erun |- *.
    destruct (Hloop l (snapStreamIndexList l) s1) as [_ H].
    destruct (gcExponential now l (snapStreamIndexList l) s1) as [[[st'|] s2] t2];
      cbn [fst snd] in *; [|discriminate].
    destruct H as [H|(st1 & H1 & H2)]; [discriminate|].
    inversion H1; subst st1.
    exists st', s2, t2. split; [reflexivity|].
    cbv [ret]. rewrite app_nil_r.
    change (switches (EvLog Info "GC: Executing garbage collection..." []
                      :: EvList None :: t2)) with (switches t2).
    exact H2.
  - intros ssr s Hp. destruct (List s) as [s1 [l|e]] eqn:HL; [|exact (Hfail ssr s s1 e HL)].
    rewrite (gcPass_listed _ _ _ _ _ HL). unfold collect.
    destruct (String.eqb_spec (garbageCollectionPolicy ssr)
                GarbageCollectionPolicyExponential) as [E|_]; [contradiction|].
    destruct (String.eqb _ GarbageCollectionPolicyLimitBased); [|reflexivity].
    pose proof (limitLoop_logged (maxBackups ssr) l (snapStreamIndexList l)
                  (List.length (snapStreamIndexList l) - 1) 0 s1) as H.
    unfold gcLimitBased.
    destruct (limitLoop _ _ _ _ _ s1) as [[r s2] t2]. cbn [snd] in *.
    change (switches (EvLog Info "GC: Executing garbage collection..." []
                      :: EvList None :: t2)) with (switches t2).
    apply Logged_switches. exact H.
  - exact Hfail.
Qed.

End TraceClaims.

(** ** Heads outside the buckets *)

Section WindowFacts.

Variable now : time.Time.
Variable snap : Snapshot.

Abbreviation D := (time.civilDay now).
Abbreviation x := (hourOf (CreatedOn snap)).
Abbreviation y := (time.civilDay (CreatedOn snap)).

(** The week loop on a snapshot a week or more older than its last anchor:
    it runs out. *)
Lemma weekLoop_older n c ds mode :
  n = Z.to_nat (c + 1) -> -1 <= c -> 168 <= 24 * (D - 35) - x ->
  fst (weekLoop n now snap (mkExpState ds mode c)) = mkExpState ds mode (-1).
Proof.
  revert c. induction n as [|n IH]; intros c Hn Hc Hm.
  - assert (c = -1) by lia. subst c. reflexivity.
  - assert (0 <= c) by lia. cbn [weekLoop backupCount backupMode deleteSnap].
    destruct (week_test now snap c) as (H0 & Hp & Hneg).
    destruct (Z.eqb_spec (Z.quot (time.HoursDiv24
                (time.Sub (weekAnchor now c) (time.Truncate (CreatedOn snap) time.Hour))) 7) 0)
      as [E|E]; [apply H0 in E; lia|].
    rewrite Z.gtb_ltb.
    destruct (Z.ltb_spec 0 (Z.quot (time.HoursDiv24
                (time.Sub (weekAnchor now c) (time.Truncate (CreatedOn snap) time.Hour))) 7))
      as [E2|E2].
    + apply IH; lia.
    + exfalso. assert (24 * (D - 35 + 7 * c) - x <= -168) by (apply Hneg; lia). lia.
Qed.

Lemma caseWeek_older c ds :
  -1 <= c -> 168 <= 24 * (D - 35) - x ->
  fst (caseWeek now snap (mkExpState ds ModeWeek c)) = mkExpState true ModeMonth (-1).
Proof.
  intros Hc Hm. unfold caseWeek. cbn [backupCount].
  pose proof (weekLoop_older (Z.to_nat (c + 1)) c ds ModeWeek eq_refl Hc Hm) as H.
  destruct (weekLoop _ now snap _) as [st1 l1]. cbn [fst] in H. subst st1.
  reflexivity.
Qed.

(** A snapshot of the first hour of the 42nd day before [now]'s date, or
    older, is deleted in whatever state the loop is, and one of a date
    after [now]'s as well. *)
Lemma switchBackupMode_outside st :
  wfState st ->
  x <= 24 * (D - 42) \/ 24 * D + 23 < x ->
  deleteSnap (fst (switchBackupMode now snap st)) = true.
Proof.
  destruct st as [ds mode c]. unfold switchBackupMode, wfState.
  cbn [backupMode backupCount]. pose proof (x_bounds snap) as Hb.
  pose proof (hourOf_bounds now) as Hn.
  intros Hwf Hx.
  assert (Hweek : forall c' ds', 0 <= c' <= 3 ->
            deleteSnap (fst (caseWeek now snap (mkExpState ds' ModeWeek c'))) = true).
  { intros c' ds' Hc'. destruct Hx as [Hx|Hx].
    - rewrite caseWeek_older by lia. reflexivity.
    - rewrite caseWeek_newer by lia. reflexivity. }
  assert (Hday : forall c' ds', 0 <= c' <= 6 ->
            deleteSnap (fst (caseDay now snap (mkExpState ds' ModeDay c'))) = true).
  { intros c' ds' Hc'. rewrite caseDay_spec by lia.
    destruct (Z.ltb_spec (D - 7 + c') y); [reflexivity|].
    destruct (Z.leb_spec (D - 7) y); [lia|]. apply Hweek. lia. }
  assert (Hhour : forall c' ds', 0 <= c' <= 23 ->
            deleteSnap (fst (caseHour now snap (mkExpState ds' ModeHour c'))) = true).
  { intros c' ds' Hc'. rewrite caseHour_spec by lia.
    destruct (Z.ltb_spec (24 * D + c') x); [reflexivity|].
    destruct (Z.leb_spec (24 * D) x); [lia|]. apply Hday. lia. }
  destruct mode.
  - rewrite caseNone_spec. destruct (Z.eqb_spec (hourOf now) x); [lia|]. apply Hhour. lia.
  - apply Hhour. exact Hwf.
  - apply Hday. exact Hwf.
  - apply Hweek. lia.
  - reflexivity.
Qed.

Ltac week_cases :=
  unfold weekStepOk, weekSlots;
  cbn [backupMode backupCount deleteSnap];
  pose proof (x_bounds snap);
  repeat match goal with
         | |- context [?a <=? ?b] => destruct (Z.leb_spec a b)
         | |- context [?a <? ?b] => destruct (Z.ltb_spec a b)
         | |- context [?a =? ?b] => destruct (Z.eqb_spec a b)
         end;
  cbn [backupMode backupCount deleteSnap];
  repeat split; intros; first [discriminate | lia].

Lemma caseWeek_weekStep c ds :
  0 <= c <= 3 ->
  weekStepOk now snap (mkExpState ds ModeWeek c)
    (fst (caseWeek now snap (mkExpState ds ModeWeek c))).
Proof.
  intros Hc.
  destruct (Z_le_gt_dec (24 * (D - 35 + 7 * c) - x) (-168)) as [Hm|Hm].
  - rewrite caseWeek_newer by lia. week_cases.
  - destruct (caseWeek_descend now snap c ds) as [(c' & Hc' & ->)|[-> | ->]];
      try lia; week_cases.
Qed.

Lemma caseDay_weekStep c ds :
  0 <= c <= 6 ->
  weekStepOk now snap (mkExpState ds ModeDay c)
    (fst (caseDay now snap (mkExpState ds ModeDay c))).
Proof.
  intros Hc. rewrite caseDay_spec by lia.
  destruct (Z.ltb_spec (D - 7 + c) y); [week_cases|].
  destruct (Z.leb_spec (D - 7) y); [destruct (Z.eqb_spec y (D - 7)); week_cases|].
  exact (caseWeek_weekStep 3 ds ltac:(lia)).
Qed.

Lemma caseHour_weekStep c ds :
  0 <= c <= 23 ->
  weekStepOk now snap (mkExpState ds ModeHour c)
    (fst (caseHour now snap (mkExpState ds ModeHour c))).
Proof.
  intros Hc. rewrite caseHour_spec by lia.
  destruct (Z.ltb_spec (24 * D + c) x); [week_cases|].
  destruct (Z.leb_spec (24 * D) x); [destruct (Z.eqb_spec x (24 * D)); week_cases|].
  exact (caseDay_weekStep 6 ds ltac:(lia)).
Qed.

Lemma switchBackupMode_weekStep st :
  wfState st -> weekStepOk now snap st (fst (switchBackupMode now snap st)).
Proof.
  destruct st as [ds mode c]. unfold switchBackupMode, wfState.
  cbn [backupMode backupCount]. destruct mode; intros Hwf.
  - rewrite caseNone_spec. cbn [backupMode backupCount].
    pose proof (hourOf_bounds now).
    destruct (Z.eqb_spec (hourOf now) x); [week_cases|].
    exact (caseHour_weekStep 23 false ltac:(lia)).
  - apply caseHour_weekStep. exact Hwf.
  - apply caseDay_weekStep. exact Hwf.
  - apply caseWeek_weekStep. exact Hwf.
  - cbn [caseMonth fst]. week_cases.
Qed.

End WindowFacts.

Lemma hourOf_le (t : time.Time) (k : Z) : hourOf t <= k <-> t < time.Hour * (k + 1).
Proof.
  unfold hourOf. pose proof Hour_pos as HP.
  pose proof (Z.div_mod t time.Hour ltac:(lia)) as Hd.
  pose proof (Z.mod_pos_bound t time.Hour HP) as Hm.
  split; intros Hk; nia.
Qed.

Lemma hourOf_lt (t : time.Time) (k : Z) : hourOf t < k <-> t < time.Hour * k.
Proof.
  unfold hourOf. pose proof Hour_pos as HP.
  pose proof (Z.div_mod t time.Hour ltac:(lia)) as Hd.
  pose proof (Z.mod_pos_bound t time.Hour HP) as Hm.
  split; intros Hk; nia.
Qed.

Lemma Date_hours (day hour : Z) : time.Date day hour = time.Hour * (24 * day + hour).
Proof. unfold time.Date. lia. Qed.

Lemma walkKept_week_count now heads :
  forall st, wfState st ->
    Z.of_nat (List.length (filter (beforeDayBuckets now) (walkKept now st heads)))
    <= weekSlots st.
Proof.
  induction heads as [|a heads IH]; intros st Hwf.
  - simpl. destruct st as [ds [] c]; unfold wfState, weekSlots in *; simpl in *; lia.
  - cbn [walkKept].
    destruct (switchBackupMode_step now a st Hwf) as (W & _).
    destruct (switchBackupMode_weekStep now a st Hwf) as (S1 & B1).
    specialize (IH _ W).
    destruct (deleteSnap (fst (switchBackupMode now a st))) eqn:Hd; [lia|].
    cbn [filter]. unfold beforeDayBuckets at 1.
    destruct (Z.ltb_spec (CreatedOn a) (time.Date (time.civilDay now - 7) 0)) as [E|E].
    + assert (Hx : hourOf (CreatedOn a) < 24 * (time.civilDay now - 7)).
      { apply hourOf_lt. rewrite Date_hours in E. lia. }
      specialize (B1 eq_refl Hx). cbn [List.length]. lia.
    + lia.
Qed.

(** When every delete succeeds, a head the switch says to delete is handed
    to [store.Delete]. *)
Lemma exponential_rounds_deleted now (P : Snapshot -> Prop) st streams calls st' :
  Rounds ExpState expOnFail (expOnOk now) st streams calls st' ->
  wfState st ->
  (forall h st0, wfState st0 -> P h ->
     deleteSnap (fst (switchBackupMode now h st0)) = true) ->
  Forall (fun c => snd c = None) (List.concat calls) ->
  forall h deltas, In (h :: deltas) streams -> P h ->
    In h (map fst (List.concat calls)).
Proof.
  intros HR. induction HR as [v|v x0 c v1 streams calls v' HR HRs IH];
    intros Hwf HP Hok h deltas Hin Hh; [destruct Hin|].
  simpl in Hok. apply Forall_app in Hok. destruct Hok as [Hc Hcs].
  simpl. rewrite map_app. apply in_or_app.
  inversion HR as [v0 h0 ds0 ok d0 rest e E|v0 h0 ds0 Hdec|v0 h0 ds0 r Hdec]; subst.
  - exfalso. apply Forall_app in Hc. destruct Hc as [_ Hc]. inversion Hc; subst. discriminate.
  - unfold expOnOk in *. cbn [fst snd] in *.
    assert (W : wfState (fst (switchBackupMode now h0 v)))
      by (apply (switchBackupMode_step now h0 v Hwf)).
    destruct Hin as [E|Hin].
    + inversion E; subst. rewrite (HP h v Hwf Hh) in Hdec. discriminate.
    + right. eapply IH; eauto.
  - unfold expOnOk in *. cbn [fst snd] in *.
    assert (W : wfState (fst (switchBackupMode now h0 v)))
      by (apply (switchBackupMode_step now h0 v Hwf)).
    destruct Hin as [E|Hin].
    + inversion E; subst. left. rewrite map_app. apply in_or_app. right. left. reflexivity.
    + right. eapply IH; eauto.
Qed.

Lemma front_head_stream (snapList : SnapList) (h : Snapshot) :
  In h (removelast (streamHeads snapList)) ->
  exists deltas, In (h :: deltas) (removelast (snapStreams snapList)).
Proof.
  rewrite front_heads. intros Hin. apply in_flat_map in Hin.
  destruct Hin as (x0 & Hx & Hh). destruct x0 as [|a deltas]; [destruct Hh|].
  destruct Hh as [<-|[]]. exists deltas. exact Hx.
Qed.

Section WindowClaims.

Context {Store : Type} {store : SnapStore Store}.

(** X11: the exponential policy keeps no head outside the span of its
    buckets.  In a pass in which every delete succeeds, whatever the order
    of the listing, the head of a stream other than the latest is handed
    to [store.Delete] when it was created before 01:00 of the 42nd day
    before [now]'s date, and also when it was created on a date after
    [now]'s. *)
Theorem exponential_deletes_outside_buckets (ssr : Snapshotter) (now : time.Time)
    (s s1 s' : Store) (snapList : SnapList) (r : option unit) (tr : Trace) (h : Snapshot) :
  garbageCollectionPolicy ssr = GarbageCollectionPolicyExponential ->
  List s = (s1, inl snapList) ->
  gcPass ssr now s = (r, s', tr) ->
  allDeletesSucceed tr ->
  In h (removelast (streamHeads snapList)) ->
  CreatedOn h < time.Date (time.civilDay now - 42) 1 \/
  time.Date (time.civilDay now + 1) 0 <= CreatedOn h ->
  In h (deleteCalls tr).
Proof.
  intros Hp HL Hrun Hok Hh Hout.
  destruct (exponential_pass_rounds ssr now s s1 snapList Hp HL)
    as (s2 & tr2 & calls & st' & Hrun2 & Hd & HR).
  rewrite Hrun2 in Hrun. inversion Hrun; subst r s' tr. clear Hrun.
  apply allDeletesSucceed_results in Hok. rewrite Hd in Hok.
  destruct (front_head_stream _ _ Hh) as (deltas & Hin).
  rewrite deleteCalls_results, Hd.
  apply (exponential_rounds_deleted now
           (fun h => hourOf (CreatedOn h) <= 24 * (time.civilDay now - 42) \/
                     24 * time.civilDay now + 23 < hourOf (CreatedOn h))
           _ _ _ _ HR wfState_init) with (deltas := deltas).
  - intros h0 st0 Hwf HP. apply switchBackupMode_outside; assumption.
  - exact Hok.
  - apply -> in_rev. exact Hin.
  - rewrite !Date_hours in Hout. destruct Hout as [Ho|Ho].
    + left. apply hourOf_le. replace (24 * (time.civilDay now - 42) + 1)
        with (24 * (time.civilDay now - 42) + 1) by lia. exact Ho.
    + right. destruct (Z_lt_le_dec (24 * time.civilDay now + 23) (hourOf (CreatedOn h)))
        as [Hlt|Hle]; [exact Hlt|].
      exfalso. apply hourOf_le in Hle.
      replace (24 * time.civilDay now + 23 + 1) with (24 * (time.civilDay now + 1) + 0) in Hle
        by lia.
      lia.
Qed.

(** X13: the week mode keeps four heads at most.  After a pass of the
    exponential policy in which every delete succeeds, over a listing that
    holds no snapshot twice and in whatever order, at most four of the heads
    left, the latest apart, were created before the seven day buckets of
    [now], that is before midnight of the seventh day before [now]'s
    date. *)
Theorem exponential_keeps_four_weekly (ssr : Snapshotter) (now : time.Time)
    (s s1 s' : Store) (snapList : SnapList) (r : option unit) (tr : Trace) :
  garbageCollectionPolicy ssr = GarbageCollectionPolicyExponential ->
  NoDup snapList ->
  List s = (s1, inl snapList) ->
  gcPass ssr now s = (r, s', tr) ->
  allDeletesSucceed tr ->
  let survivors :=
    filter (fun h => negb (mem h (deleteCalls tr))) (removelast (streamHeads snapList)) in
  (List.length (filter (beforeDayBuckets now) survivors) <= 4)%nat.
Proof.
  intros Hp HN HL Hrun Hok survivors.
  pose proof (exponential_pass_kept ssr now s s1 s' snapList r tr Hp HN HL Hrun Hok) as Hkept.
  pose proof (front_heads_NoDup _ HN) as HNf.
  set (front := removelast (streamHeads snapList)) in *.
  set (kept := walkKept now initExpState (rev front)) in *.
  assert (Hsame : forall h, In h survivors <-> In h kept).
  { intros h. unfold survivors. rewrite filter_In. split.
    - intros [Hin Hm]. apply negb_true_iff, mem_not_In in Hm.
      destruct (in_dec Snapshot_eq_dec h kept) as [Hk|Hk]; [exact Hk|].
      exfalso. apply Hm. apply (Hkept h Hin). exact Hk.
    - intros Hk. assert (Hin : In h front).
      { apply in_rev. eapply walkKept_incl. exact Hk. }
      split; [exact Hin|]. apply negb_true_iff, mem_not_In.
      intros Hdel. apply (Hkept h Hin) in Hdel. auto. }
  assert (Hperm : Permutation (filter (beforeDayBuckets now) survivors)
                              (filter (beforeDayBuckets now) kept)).
  { apply NoDup_Permutation.
    - apply NoDup_filter. apply NoDup_filter. exact HNf.
    - apply NoDup_filter. apply walkKept_NoDup. apply NoDup_rev. exact HNf.
    - intros h. rewrite !filter_In, Hsame. tauto. }
  rewrite (Permutation_length Hperm).
  pose proof (walkKept_week_count now (rev front) initExpState wfState_init) as Hc.
  fold kept in Hc. unfold weekSlots, initExpState in Hc. simpl in Hc. lia.
Qed.

End WindowClaims.

(** ** The hour of [now] *)

(** While the heads are of the hour of [now], the loop stays in its first
    mode and hands no head to [store.Delete]. *)
Lemma exponential_rounds_current_hour now st streams calls st' :
  Rounds ExpState expOnFail (expOnOk now) st streams calls st' ->
  NoDup (List.concat streams) ->
  newestFirst (flat_map (firstn 1) streams) ->
  (forall a, In a (flat_map (firstn 1) streams) ->
     hourOf (CreatedOn a) <= hourOf now) ->
  backupMode st = ModeNone ->
  forall h, In h (flat_map (firstn 1) streams) ->
    hourOf (CreatedOn h) = hourOf now ->
    ~ In h (map fst (List.concat calls)).
Proof.
  intros HR. induction HR as [v|v x0 c v1 streams calls v' HR HRs IH];
    intros HN Hs Hle Hm h Hh Eh; [destruct Hh|].
  destruct (NoDup_concat_cons _ _ HN) as (Hx & Hss & Hdis).
  assert (Hrest : forall a, In a (map fst (List.concat calls)) -> In a (List.concat streams))
    by (eapply rounds_calls_incl; eauto).
  assert (Hhead : exists h0 ds0, x0 = h0 :: ds0)
    by (inversion HR; subst; eauto).
  destruct Hhead as (h0 & ds0 & ->).
  change (flat_map (firstn 1) ((h0 :: ds0) :: streams))
    with (h0 :: flat_map (firstn 1) streams) in *.
  inversion Hs as [|? ? Hs' Hall]; subst.
  assert (E0 : hourOf (CreatedOn h0) = hourOf now).
  { assert (H1 : hourOf (CreatedOn h0) <= hourOf now) by (apply Hle; left; reflexivity).
    assert (H2 : hourOf (CreatedOn h) <= hourOf (CreatedOn h0)).
    { destruct Hh as [->|Hh]; [lia|]. apply hourOf_mono.
      rewrite Forall_forall in Hall. apply Hall. exact Hh. }
    lia. }
  assert (Hsw : fst (switchBackupMode now h0 v)
                = mkExpState false (backupMode v) (backupCount v)).
  { unfold switchBackupMode. rewrite Hm. rewrite caseNone_spec.
    rewrite E0, Z.eqb_refl, Hm. reflexivity. }
  inversion Hx as [|? ? Hh0 Hds0]; subst.
  assert (Hround : forall a, In a (map fst c) -> In a ds0 /\ backupMode v1 = ModeNone).
  { inversion HR as [v0 h1 ds1 ok d0 rest e E|v0 h1 ds1 Hdec|v0 h1 ds1 r Hdec]; subst;
      intros a Ha.
    - split; [|exact Hm]. rewrite map_app, succeeded_fst in Ha. apply in_rev. rewrite E.
      apply in_app_or in Ha. destruct Ha as [Ha|[<-|[]]]; [apply in_or_app; auto|apply in_elt].
    - split; [|unfold expOnOk; cbn [fst]; rewrite Hsw; exact Hm].
      rewrite succeeded_fst in Ha. apply in_rev. exact Ha.
    - exfalso. unfold expOnOk in Hdec. cbn [snd] in Hdec. rewrite Hsw in Hdec. discriminate. }
  assert (Hm1 : backupMode v1 = ModeNone).
  { inversion HR as [v0 h1 ds1 ok d0 rest e E|v0 h1 ds1 Hdec|v0 h1 ds1 r Hdec]; subst.
    - exact Hm.
    - unfold expOnOk. cbn [fst]. rewrite Hsw. exact Hm.
    - exfalso. unfold expOnOk in Hdec. cbn [snd] in Hdec. rewrite Hsw in Hdec. discriminate. }
  cbn [List.concat]. rewrite map_app, in_app_iff. intros [Hin|Hin].
  - apply Hround in Hin. destruct Hin as [Hin _].
    destruct Hh as [<-|Hh]; [auto|].
    apply (Hdis h); [right; exact Hin|apply heads_incl; exact Hh].
  - destruct Hh as [<-|Hh].
    + apply (Hdis h0); [left; reflexivity|auto].
    + revert Hin. apply IH; auto.
      intros a Ha. apply Hle. right. exact Ha.
Qed.

Section CurrentHourClaims.

Context {Store : Type} {store : SnapStore Store}.

(** X12: the exponential policy keeps every head of the hour of [now].  In
    a pass over a listing sorted by time that holds no snapshot twice and
    none dated after [now], a head created in the hour of [now] is not
    handed to [store.Delete], whichever deletes fail. *)
Theorem exponential_keeps_current_hour (ssr : Snapshotter) (now : time.Time)
    (s s1 s' : Store) (snapList : SnapList) (r : option unit) (tr : Trace) (h : Snapshot) :
  garbageCollectionPolicy ssr = GarbageCollectionPolicyExponential ->
  NoDup snapList ->
  sortedByTime snapList ->
  (forall snap, In snap snapList -> CreatedOn snap <= now) ->
  List s = (s1, inl snapList) ->
  gcPass ssr now s = (r, s', tr) ->
  In h (streamHeads snapList) ->
  inCurrentHour now h = true ->
  ~ In h (deleteCalls tr).
Proof.
  intros Hp HN Hsorted Hpast HL Hrun Hh Hcur.
  destruct (exponential_pass_rounds ssr now s s1 snapList Hp HL)
    as (s2 & tr2 & calls & st' & Hrun2 & Hd & HR).
  rewrite Hrun2 in Hrun. inversion Hrun; subst r s' tr. clear Hrun.
  rewrite deleteCalls_results, Hd.
  rewrite inCurrentHour_spec in Hcur. apply Z.eqb_eq in Hcur.
  assert (HNr : NoDup (List.concat (rev (removelast (snapStreams snapList))))).
  { eapply Permutation_NoDup; [apply Permutation_sym, concat_rev_perm|].
    apply NoDup_front. exact HN. }
  destruct (in_dec Snapshot_eq_dec h (removelast (streamHeads snapList))) as [Hf|Hf].
  - apply (exponential_rounds_current_hour now _ _ _ _ HR HNr).
    + rewrite heads_rev. apply StronglySorted_rev.
      apply sorted_heads.
      unfold sortedByTime in Hsorted.
      rewrite <- (snapStreams_concat snapList) in Hsorted.
      rewrite snapStreams_split_last, concat_app in Hsorted.
      apply StronglySorted_app_inv in Hsorted. tauto.
    + intros a Ha. apply hourOf_mono. apply Hpast.
      apply heads_incl in Ha.
      apply (Permutation_in _ (concat_rev_perm _)) in Ha.
      rewrite <- (snapStreams_concat snapList), snapStreams_split_last, concat_app.
      apply in_or_app. left. exact Ha.
    + reflexivity.
    + rewrite heads_rev, <- front_heads. apply -> in_rev. exact Hf.
    + symmetry. exact Hcur.
  - (* the head of the latest stream *)
    intros Hdel. apply (rounds_calls_incl _ _ _ _ _ _ _ HR) in Hdel.
    apply (Permutation_in _ (concat_rev_perm _)) in Hdel.
    assert (Hlast : In h (last (snapStreams snapList) [])).
    { rewrite streamHeads_streams in Hh, Hf.
      rewrite (snapStreams_split_last snapList), flat_map_app in Hh.
      apply in_app_or in Hh. destruct Hh as [Hh|Hh].
      - exfalso. apply Hf. rewrite <- streamHeads_streams, front_heads. exact Hh.
      - simpl in Hh. rewrite app_nil_r in Hh.
        destruct (last (snapStreams snapList) []) as [|z zs]; [destruct Hh|].
        destruct Hh as [<-|[]]. left. reflexivity. }
    rewrite <- (snapStreams_concat snapList), snapStreams_split_last, concat_app in HN.
    apply (NoDup_app_disjoint _ _ h HN Hdel). simpl. rewrite app_nil_r. exact Hlast.
Qed.

End CurrentHourClaims.

(** ** A second walk over the heads a walk kept *)

Section SecondWalk.

Variable now : time.Time.
Variable snap : Snapshot.

Abbreviation D := (time.civilDay now).
Abbreviation x := (hourOf (CreatedOn snap)).
Abbreviation y := (time.civilDay (CreatedOn snap)).

(** The week loop does not look at [deleteSnap]. *)
Lemma weekLoop_ds n c ds ds' mode :
  fst (weekLoop n now snap (mkExpState ds mode c))
  = fst (weekLoop n now snap (mkExpState ds' mode c)) \/
  (fst (weekLoop n now snap (mkExpState ds mode c)) = mkExpState ds mode (c - Z.of_nat n) /\
   fst (weekLoop n now snap (mkExpState ds' mode c)) = mkExpState ds' mode (c - Z.of_nat n)).
Proof.
  revert c. induction n as [|n IH]; intros c.
  - right. cbn [weekLoop fst]. rewrite Z.sub_0_r. auto.
  - cbn [weekLoop backupCount backupMode deleteSnap].
    destruct (_ =? 0); [left; destruct (_ =? -1); reflexivity|].
    destruct (_ >? 0); [|left; reflexivity].
    destruct (IH (c - 1)) as [E|[E1 E2]]; [left; exact E|].
    right. rewrite E1, E2. split; f_equal; lia.
Qed.

Lemma caseWeek_ds c ds ds' :
  0 <= c ->
  fst (caseWeek now snap (mkExpState ds ModeWeek c))
  = fst (caseWeek now snap (mkExpState ds' ModeWeek c)).
Proof.
  intros Hc. unfold caseWeek. cbn [backupCount].
  pose proof (weekLoop_ds (Z.to_nat (c + 1)) c ds ds' ModeWeek) as H.
  destruct (weekLoop _ now snap (mkExpState ds ModeWeek c)) as [st1 l1].
  destruct (weekLoop _ now snap (mkExpState ds' ModeWeek c)) as [st1' l1'].
  cbn [fst] in H. destruct H as [->|[-> ->]].
  - destruct (backupCount st1' >=? 0); [reflexivity|].
    destruct (BackupMode_eqb (backupMode st1') ModeMonth); reflexivity.
  - cbn [backupCount backupMode deleteSnap].
    destruct (Z.geb_spec (c - Z.of_nat (Z.to_nat (c + 1))) 0); [lia|].
    reflexivity.
Qed.

Lemma caseDay_ds c ds ds' :
  0 <= c ->
  fst (caseDay now snap (mkExpState ds ModeDay c))
  = fst (caseDay now snap (mkExpState ds' ModeDay c)).
Proof.
  intros Hc. rewrite !caseDay_spec by lia.
  rewrite (caseWeek_ds 3 ds ds') by lia. reflexivity.
Qed.

Lemma caseHour_ds c ds ds' :
  0 <= c ->
  fst (caseHour now snap (mkExpState ds ModeHour c))
  = fst (caseHour now snap (mkExpState ds' ModeHour c)).
Proof.
  intros Hc. rewrite !caseHour_spec by lia.
  rewrite (caseDay_ds 6 ds ds') by lia. reflexivity.
Qed.

(** The mode switch gives the same from two states at the same place. *)
Lemma switchBackupMode_samePlace st2 st1 :
  wfState st1 -> samePlace st2 st1 ->
  fst (switchBackupMode now snap st2) = fst (switchBackupMode now snap st1).
Proof.
  destruct st1 as [ds1 m1 c1], st2 as [ds2 m2 c2]. unfold samePlace, wfState.
  cbn [backupMode backupCount]. intros Hwf [-> ->].
  unfold switchBackupMode. cbn [backupMode]. destruct m1.
  - rewrite !caseNone_spec. reflexivity.
  - apply caseHour_ds. lia.
  - apply caseDay_ds. lia.
  - apply caseWeek_ds. lia.
  - reflexivity.
Qed.

(** A snapshot older than the day buckets that the week case, just entered,
    deletes: the loop is in month mode after it. *)
Lemma caseWeek_entered_deleted ds :
  y < D - 7 ->
  deleteSnap (fst (caseWeek now snap (mkExpState ds ModeWeek 3))) = true ->
  backupMode (fst (caseWeek now snap (mkExpState ds ModeWeek 3))) = ModeMonth.
Proof.
  intros Hy. pose proof (x_bounds snap) as Hb.
  destruct (caseWeek_descend now snap 3 ds) as [(c' & Hc' & ->)|[-> | ->]];
    try lia; cbn [deleteSnap backupMode]; intros; first [discriminate|reflexivity].
Qed.

Lemma caseDay_entered_deleted ds :
  y < D ->
  deleteSnap (fst (caseDay now snap (mkExpState ds ModeDay 6))) = true ->
  backupMode (fst (caseDay now snap (mkExpState ds ModeDay 6))) = ModeMonth.
Proof.
  intros Hy. rewrite caseDay_spec by lia.
  destruct (Z.ltb_spec (D - 7 + 6) y); [lia|].
  destruct (Z.leb_spec (D - 7) y).
  - destruct (Z.eqb_spec y (D - 7)); cbn [deleteSnap]; discriminate.
  - apply caseWeek_entered_deleted. lia.
Qed.

(** What a mode switch that deletes does to the state: it leaves the loop
    where it is, or in month mode; or, from the first mode, on a snapshot
    of a date after [now]'s, at the start of the hour mode. *)
Lemma switchBackupMode_deleted st :
  wfState st ->
  deleteSnap (fst (switchBackupMode now snap st)) = true ->
  samePlace (fst (switchBackupMode now snap st)) st \/
  backupMode (fst (switchBackupMode now snap st)) = ModeMonth \/
  (backupMode st = ModeNone /\
   backupMode (fst (switchBackupMode now snap st)) = ModeHour /\
   backupCount (fst (switchBackupMode now snap st)) = 23).
Proof.
  destruct st as [ds mode c]. unfold switchBackupMode, wfState, samePlace.
  cbn [backupMode backupCount]. pose proof (x_bounds snap) as Hb.
  assert (Hhour : forall c' ds', 0 <= c' <= 23 ->
    deleteSnap (fst (caseHour now snap (mkExpState ds' ModeHour c'))) = true ->
    (backupMode (fst (caseHour now snap (mkExpState ds' ModeHour c'))) = ModeHour /\
     backupCount (fst (caseHour now snap (mkExpState ds' ModeHour c'))) = c') \/
    backupMode (fst (caseHour now snap (mkExpState ds' ModeHour c'))) = ModeMonth).
  { intros c' ds' Hc'. rewrite caseHour_spec by lia.
    destruct (Z.ltb_spec (24 * D + c') x); [left; split; reflexivity|].
    destruct (Z.leb_spec (24 * D) x).
    - destruct (Z.eqb_spec x (24 * D)); cbn [deleteSnap]; discriminate.
    - intros Hd. right. apply caseDay_entered_deleted; [lia|exact Hd]. }
  destruct mode; intros Hwf.
  - rewrite caseNone_spec. cbn [backupMode backupCount].
    destruct (Z.eqb_spec (hourOf now) x); [cbn [deleteSnap]; discriminate|].
    intros Hd. destruct (Hhour 23 false ltac:(lia) Hd) as [[H1 H2]|H]; auto.
  - intros Hd. destruct (Hhour c ds Hwf Hd) as [[H1 H2]|H]; auto.
  - rewrite caseDay_spec by lia.
    destruct (Z.ltb_spec (D - 7 + c) y); [left; split; reflexivity|].
    destruct (Z.leb_spec (D - 7) y).
    + destruct (Z.eqb_spec y (D - 7)); cbn [deleteSnap]; discriminate.
    + intros Hd. right; left. apply caseWeek_entered_deleted; [lia|exact Hd].
  - destruct (Z_le_gt_dec (24 * (D - 35 + 7 * c) - x) (-168)) as [Hm|Hm].
    + rewrite caseWeek_newer by lia. left. split; reflexivity.
    + destruct (caseWeek_descend now snap c ds) as [(c' & Hc' & ->)|[-> | ->]];
        try lia; cbn [deleteSnap backupMode]; intros; first [discriminate|auto].
  - cbn [caseMonth fst backupMode]. auto.
Qed.

(** What a mode switch that keeps does, from a state past the hour of
    [now]: on a snapshot of the hour of [now] it leaves such a state again;
    on another it gives what the first mode gives. *)
Lemma switchBackupMode_kept_past st st0 :
  wfState st -> pastCurrentHour now st -> backupMode st0 = ModeNone ->
  deleteSnap (fst (switchBackupMode now snap st)) = false ->
  (x = hourOf now -> pastCurrentHour now (fst (switchBackupMode now snap st))) /\
  (x <> hourOf now ->
   fst (switchBackupMode now snap st0) = fst (switchBackupMode now snap st)).
Proof.
  destruct st as [ds mode c], st0 as [ds0 m0 c0].
  unfold switchBackupMode, wfState, pastCurrentHour.
  cbn [backupMode backupCount]. pose proof (x_bounds snap) as Hb.
  pose proof (hourOf_bounds now) as Hn.
  intros Hwf Hpast -> Hkept. rewrite caseNone_spec.
  destruct Hpast as [[-> Hc]|(-> & -> & Hn0)].
  - revert Hkept. rewrite !caseHour_spec by lia.
    destruct (Z.ltb_spec (24 * D + c) x); [cbn [deleteSnap]; discriminate|].
    destruct (Z.ltb_spec (24 * D + 23) x); [lia|].
    intros Hkept. split.
    + intros Ex. destruct (Z.leb_spec (24 * D) x); [|lia].
      destruct (Z.eqb_spec x (24 * D)); cbn [backupMode backupCount].
      * right. repeat split; lia.
      * left. split; [reflexivity|lia].
    + intros Ex. destruct (Z.eqb_spec (hourOf now) x); [lia|].
      destruct (Z.leb_spec (24 * D) x); [reflexivity|].
      apply caseDay_ds. lia.
  - revert Hkept. rewrite caseDay_spec by lia.
    destruct (Z.ltb_spec (D - 7 + 6) y); [cbn [deleteSnap]; discriminate|].
    intros Hkept. split; [lia|].
    intros Ex. destruct (Z.eqb_spec (hourOf now) x); [lia|].
    rewrite caseHour_spec by lia.
    destruct (Z.ltb_spec (24 * D + 23) x); [lia|].
    destruct (Z.leb_spec (24 * D) x); [lia|].
    rewrite (caseDay_ds 6 false ds) by lia. rewrite caseDay_spec by lia.
    destruct (Z.ltb_spec (D - 7 + 6) y); [lia|]. reflexivity.
Qed.

End SecondWalk.

Lemma walkKept_length now heads :
  forall st, (List.length (walkKept now st heads) <= List.length heads)%nat.
Proof.
  induction heads as [|a heads IH]; intros st; [reflexivity|].
  cbn [walkKept]. specialize (IH (fst (switchBackupMode now a st))).
  destruct (deleteSnap _); simpl; lia.
Qed.

Lemma switchBackupMode_current_hour now snap st :
  backupMode st = ModeNone -> hourOf (CreatedOn snap) = hourOf now ->
  fst (switchBackupMode now snap st) = mkExpState false ModeNone (backupCount st).
Proof.
  intros Hm Ex. unfold switchBackupMode. rewrite Hm, caseNone_spec, Ex, Z.eqb_refl, Hm.
  reflexivity.
Qed.

(** The walk over the heads a walk kept keeps them all, whatever the order
    of the heads. *)
Lemma walkKept_second now heads :
  forall st1 st2, wfState st1 -> besideWalk now st2 st1 ->
    walkKept now st2 (walkKept now st1 heads) = walkKept now st1 heads.
Proof.
  induction heads as [|a heads IH]; intros st1 st2 Hwf HR; [reflexivity|].
  cbn [walkKept].
  assert (W : wfState (fst (switchBackupMode now a st1)))
    by (apply (switchBackupMode_step now a st1 Hwf)).
  pose proof (hourOf_bounds now) as Hn.
  destruct (deleteSnap (fst (switchBackupMode now a st1))) eqn:Hd.
  - destruct (switchBackupMode_deleted now a st1 Hwf Hd) as [[Hs1 Hs2]|[Hm|(Hn1 & Hh & Hc)]].
    + apply IH; [exact W|].
      destruct HR as [[Ha Hb]|[Ha Hb]].
      * left. split; congruence.
      * right. split; [exact Ha|].
        unfold pastCurrentHour in *. rewrite Hs1, Hs2. exact Hb.
    + rewrite (walkKept_month now heads _ Hm). reflexivity.
    + apply IH; [exact W|]. right. split.
      * destruct HR as [[Ha _]|[Ha _]]; congruence.
      * left. split; [exact Hh|]. lia.
  - cbn [walkKept].
    assert (Hsame : fst (switchBackupMode now a st2) = fst (switchBackupMode now a st1) ->
              (if deleteSnap (fst (switchBackupMode now a st2))
               then walkKept now (fst (switchBackupMode now a st2))
                      (walkKept now (fst (switchBackupMode now a st1)) heads)
               else a :: walkKept now (fst (switchBackupMode now a st2))
                           (walkKept now (fst (switchBackupMode now a st1)) heads))
              = a :: walkKept now (fst (switchBackupMode now a st1)) heads).
    { intros E. rewrite E, Hd. f_equal. apply IH; [exact W|]. left. split; reflexivity. }
    destruct HR as [Hs|[Hm2 Hpast]].
    + apply Hsame. apply switchBackupMode_samePlace; assumption.
    + destruct (switchBackupMode_kept_past now a st1 st2 Hwf Hpast Hm2 Hd) as [H1 H2].
      destruct (Z.eq_dec (hourOf (CreatedOn a)) (hourOf now)) as [Ex|Ex].
      * rewrite (switchBackupMode_current_hour now a st2 Hm2 Ex). cbn [deleteSnap].
        f_equal. apply IH; [exact W|]. right. split; [reflexivity|]. apply H1. exact Ex.
      * apply Hsame. apply H2. exact Ex.
Qed.

Lemma walkKept_twice now heads :
  walkKept now initExpState (walkKept now initExpState heads)
  = walkKept now initExpState heads.
Proof.
  apply walkKept_second; [apply wfState_init|]. left. split; reflexivity.
Qed.

(** ** The store calls of a pass, run on the store *)

Section RanFacts.

Context {Store : Type} {store : SnapStore Store}.

Lemma Ran_app (s s1 s2 : Store) (a b : Trace) :
  Ran s a s1 -> Ran s1 b s2 -> Ran s (a ++ b) s2.
Proof.
  induction 1 as [s|s lvl f args t s' _ IH|s s0 res t s' HL _ IH|s s0 snap r t s' HD _ IH];
    intros Hb; simpl.
  - exact Hb.
  - apply RanLog. auto.
  - eapply RanList; eauto.
  - eapply RanDelete; eauto.
Qed.

Lemma ran_bind {A B} (m : M A) (k : A -> M B) :
  ran m -> (forall a, ran (k a)) -> ran (bind m k).
Proof.
  intros Hm Hk s. unfold bind. specialize (Hm s).
  destruct (m s) as [[[a|] s1] t1]; cbn [fst snd] in *; [|exact Hm].
  specialize (Hk a s1). destruct (k a s1) as [[r s2] t2]. cbn [fst snd] in *.
  eapply Ran_app; eauto.
Qed.

Lemma ran_ret {A} (a : A) : ran (ret a).
Proof. intros s. constructor. Qed.

Lemma ran_panic {A} : ran (@panic Store A).
Proof. intros s. constructor. Qed.

Lemma ran_tell (t : Trace) :
  Forall (fun e => match e with EvLog _ _ _ => True | _ => False end) t -> ran (tell t).
Proof.
  intros Ht s. cbn [tell fst snd]. induction Ht as [|e t He _ IH]; [constructor|].
  destruct e; try contradiction. apply RanLog. exact IH.
Qed.

Lemma ran_logf (lvl : Level) (format : string) (args : list Arg) : ran (logf lvl format args).
Proof. intros s. apply RanLog. constructor. Qed.

Lemma ran_storeDelete (snap : Snapshot) : ran (storeDelete snap).
Proof.
  intros s. unfold storeDelete. destruct (Delete s snap) as [s1 r] eqn:E. cbn [fst snd].
  eapply RanDelete; [exact E|constructor].
Qed.

Lemma ran_storeList : ran storeList.
Proof.
  intros s. unfold storeList. destruct (List s) as [s1 [l|e]] eqn:E; cbn [fst snd].
  - apply (RanList s s1 (inl l) [] s1 E). constructor.
  - apply (RanList s s1 (inr e) [] s1 E). constructor.
Qed.

Lemma ran_index {A} (l : list A) (i : nat) : ran (index l i).
Proof. unfold index. destruct (nth_error l i); [apply ran_ret|apply ran_panic]. Qed.

Lemma ran_slice {A} (l : list A) (a b : nat) : ran (slice l a b).
Proof. unfold slice. destruct (_ && _); [apply ran_ret|apply ran_panic]. Qed.

Lemma Logged_lines (sw : bool) (t : Trace) :
  Logged sw t -> deleteResults t = [] ->
  Forall (fun e => match e with EvLog _ _ _ => True | _ => False end) t.
Proof.
  induction 1 as [|mode h t Hsw Hm _ IH|f args h t Ha Ht IH|f args h e t Ha Ht IH];
    intros Hd.
  - constructor.
  - constructor; [exact I|apply IH; exact Hd].
  - discriminate.
  - discriminate.
Qed.

Lemma switchBackupMode_lines now snap st :
  Forall (fun e => match e with EvLog _ _ _ => True | _ => False end)
    (snd (switchBackupMode now snap st)).
Proof.
  destruct (switchBackupMode_log now snap st) as [_ H].
  eapply Logged_lines; [exact H|apply switchBackupMode_logs].
Qed.

Ltac ran_leaf :=
  first [ apply ran_ret | apply ran_logf | apply ran_storeDelete | apply ran_storeList
        | apply ran_index | apply ran_slice | apply ran_panic
        | apply ran_tell; assumption | assumption ].

Ltac ran_go :=
  repeat first
    [ ran_leaf
    | apply ran_bind; [|intro]
    | match goal with
      | |- ran (match switchBackupMode ?n ?h ?s with _ => _ end) =>
          let Hl := fresh "Hl" in
          pose proof (switchBackupMode_lines n h s) as Hl;
          destruct (switchBackupMode n h s); cbn [snd] in Hl
      | |- ran (match ?e with _ => _ end) => destruct e
      end ].

Lemma ran_deltaLoop (i : nat) (snapStream : SnapList) : ran (deltaLoop i snapStream).
Proof.
  induction i as [|i IH]; cbn [deltaLoop]; ran_go.
Qed.

Lemma ran_sweep (snapStream : SnapList) : ran (garbageCollectDeltaSnapshots snapStream).
Proof. apply ran_deltaLoop. Qed.

Lemma ran_exponentialRound now snapList indexList i st :
  ran (exponentialRound now snapList indexList i st).
Proof.
  pose proof ran_sweep as Hs. unfold exponentialRound. ran_go; apply Hs.
Qed.

Lemma ran_exponentialLoop now snapList indexList n :
  forall st, ran (exponentialLoop n now snapList indexList st).
Proof.
  induction n as [|n IH]; intros st; cbn [exponentialLoop]; [apply ran_ret|].
  apply ran_bind; [apply ran_exponentialRound|apply IH].
Qed.

Lemma ran_limitRound maxBackups snapList indexList i :
  ran (limitRound maxBackups snapList indexList i).
Proof.
  pose proof ran_sweep as Hs. unfold limitRound. ran_go; apply Hs.
Qed.

Lemma ran_limitLoop maxBackups snapList indexList n :
  forall i, ran (limitLoop n maxBackups snapList indexList i).
Proof.
  induction n as [|n IH]; intros i; cbn [limitLoop]; [apply ran_ret|].
  apply ran_bind; [apply ran_limitRound|intros _; apply IH].
Qed.

Lemma ran_gcPass ssr now : ran (gcPass ssr now).
Proof.
  unfold gcPass. apply ran_bind; [apply ran_logf|intros _].
  apply ran_bind; [apply ran_storeList|intros [snapList|e]]; [|apply ran_logf].
  unfold collect.
  destruct (String.eqb _ GarbageCollectionPolicyExponential).
  - apply ran_bind; [apply ran_exponentialLoop|intros _; apply ran_ret].
  - destruct (String.eqb _ GarbageCollectionPolicyLimitBased);
      [apply ran_limitLoop|apply ran_ret].
Qed.

End RanFacts.

(** ** A store that lists what it holds and deletes what it is asked to *)

Lemma filter_remove (a : Snapshot) (rest l : list Snapshot) :
  filter (fun b => negb (mem b rest)) (remove Snapshot_eq_dec a l)
  = filter (fun b => negb (mem b (a :: rest))) l.
Proof.
  induction l as [|b l IH]; [reflexivity|].
  cbn [remove filter]. destruct (Snapshot_eq_dec a b) as [->|Hne].
  - assert (E : mem b (b :: rest) = true) by (apply mem_In; left; reflexivity).
    rewrite E. cbn [negb]. exact IH.
  - assert (E : mem b (a :: rest) = mem b rest).
    { destruct (mem b rest) eqn:E1.
      - apply mem_In. right. apply mem_In. exact E1.
      - apply mem_not_In. intros [E2|E2]; [congruence|].
        apply mem_not_In in E1. auto. }
    rewrite E. cbn [filter]. rewrite IH. reflexivity.
Qed.

Section FaithfulStore.

Context {Store : Type} {store : SnapStore Store}.

Variable good : Store -> Prop.
Variable held : Store -> SnapList.

Hypothesis good_List : forall s, good s -> List s = (s, inl (held s)).

Hypothesis good_Delete : forall s snap,
  good s -> In snap (held s) ->
  exists s', Delete s snap = (s', None) /\ good s' /\
             held s' = remove Snapshot_eq_dec snap (held s).

(** Deletes of snapshots the store holds, no snapshot twice: they all
    succeed and leave what the store held less the snapshots deleted. *)
Lemma Ran_held (s s' : Store) (tr : Trace) :
  Ran s tr s' -> good s ->
  NoDup (deleteCalls tr) -> incl (deleteCalls tr) (held s) ->
  good s' /\ allDeletesSucceed tr /\
  held s' = filter (fun a => negb (mem a (deleteCalls tr))) (held s).
Proof.
  induction 1 as [s|s lvl f args t s' _ IH|s s0 res t s' HL _ IH|s s0 snap r t s' HD _ IH];
    intros Hg HN Hincl.
  - split; [exact Hg|]. split; [constructor|].
    cbn [deleteCalls]. symmetry. apply filter_all. intros a _. reflexivity.
  - destruct (IH Hg HN Hincl) as (G & A & E).
    split; [exact G|]. split; [constructor; [exact I|exact A]|exact E].
  - rewrite (good_List s Hg) in HL. inversion HL; subst s0 res.
    destruct (IH Hg HN Hincl) as (G & A & E).
    split; [exact G|]. split; [constructor; [exact I|exact A]|exact E].
  - cbn [deleteCalls] in HN, Hincl. inversion HN as [|? ? Hnot HN']; subst.
    destruct (good_Delete s snap Hg (Hincl snap (or_introl eq_refl)))
      as (s1 & HD1 & G1 & E1).
    rewrite HD1 in HD. inversion HD; subst s0 r.
    destruct (IH G1 HN') as (G & A & E).
    { intros a Ha. rewrite E1. apply in_in_remove.
      - intros ->. auto.
      - apply Hincl. right. exact Ha. }
    split; [exact G|]. split; [constructor; [exact I|exact A]|].
    rewrite E, E1. cbn [deleteCalls]. apply filter_remove.
Qed.

End FaithfulStore.

(** ** The streams of what a pass leaves *)

Lemma cutStreams_deltas (ds rest : SnapList) :
  Forall isDelta ds ->
  cutStreams (ds ++ rest) = (ds ++ fst (cutStreams rest), snd (cutStreams rest)).
Proof.
  induction 1 as [|d ds Hd _ IH]; [cbn [app]; destruct (cutStreams rest); reflexivity|].
  cbn [app cutStreams]. rewrite IH. unfold isDelta in Hd. rewrite Hd. reflexivity.
Qed.

Lemma cutStreams_streams (streams : list SnapList) :
  Forall headThenDeltas streams -> cutStreams (List.concat streams) = ([], streams).
Proof.
  induction 1 as [|x0 streams (h & ds & -> & Hf & Hds) _ IH]; [reflexivity|].
  cbn [List.concat app cutStreams].
  rewrite (cutStreams_deltas ds (List.concat streams) Hds), IH, Hf.
  cbn [fst snd]. rewrite app_nil_r. reflexivity.
Qed.

Lemma snapStreams_inv (streams : list SnapList) :
  streamsShape streams -> snapStreams (List.concat streams) = streams.
Proof.
  destruct streams as [|first rest]; [intros []|].
  intros [(h & ds & -> & Hds) Hrest].
  cbn [List.concat app snapStreams].
  rewrite (cutStreams_deltas ds (List.concat rest) Hds), (cutStreams_streams rest Hrest).
  cbn [fst snd]. rewrite app_nil_r. reflexivity.
Qed.

Lemma snapStreams_streamsShape (snapList : SnapList) :
  snapList <> [] -> streamsShape (snapStreams snapList).
Proof.
  destruct snapList as [|s rest]; [congruence|]. intros _.
  destruct (snapStreams_shape s rest) as (cur & later & -> & Hcur & Hlater).
  split; [exists s, cur; auto|exact Hlater].
Qed.

Lemma thin_app (keep : Snapshot -> bool) (a b : list SnapList) :
  thin keep (a ++ b) = thin keep a ++ thin keep b.
Proof. unfold thin. apply flat_map_app. Qed.

Lemma thin_headThenDeltas (keep : Snapshot -> bool) (front : list SnapList) (z : SnapList) :
  Forall headThenDeltas (front ++ [z]) -> Forall headThenDeltas (thin keep front ++ [z]).
Proof.
  induction front as [|x0 front IH]; intros H; [exact H|].
  cbn [app] in H. inversion H as [|? ? (h & ds & -> & Hf & Hds) Hrest]; subst.
  change (thin keep ((h :: ds) :: front))
    with ((if keep h then [[h]] else []) ++ thin keep front).
  destruct (keep h); cbn [app]; [|auto].
  constructor; [|auto]. exists h, []. repeat split; auto.
Qed.

Lemma thin_streamsShape (keep : Snapshot -> bool) (front : list SnapList) (z : SnapList) :
  streamsShape (front ++ [z]) -> streamsShape (thin keep front ++ [z]).
Proof.
  destruct front as [|x0 front]; [auto|].
  cbn [app streamsShape]. intros [(h & ds & -> & Hds) Hrest].
  pose proof (thin_headThenDeltas keep front z Hrest) as Ht.
  change (thin keep ((h :: ds) :: front))
    with ((if keep h then [[h]] else []) ++ thin keep front).
  destruct (keep h); cbn [app].
  - split; [exists h, []; split; [reflexivity|constructor]|exact Ht].
  - destruct (thin keep front ++ [z]) as [|first rest] eqn:E;
      [destruct (thin keep front); discriminate|].
    inversion Ht as [|? ? (h1 & ds1 & -> & _ & Hds1) Hrest1]; subst.
    split; [exists h1, ds1; auto|exact Hrest1].
Qed.

Lemma thin_heads (keep : Snapshot -> bool) (front : list SnapList) :
  thin keep front = map (fun h => [h]) (filter keep (flat_map (firstn 1) front)).
Proof.
  induction front as [|x0 front IH]; [reflexivity|].
  destruct x0 as [|h ds]; [exact IH|].
  change (thin keep ((h :: ds) :: front))
    with ((if keep h then [[h]] else []) ++ thin keep front).
  change (flat_map (firstn 1) ((h :: ds) :: front))
    with (h :: flat_map (firstn 1) front).
  cbn [filter]. rewrite IH. destruct (keep h); reflexivity.
Qed.

Lemma filter_streams (keep : Snapshot -> bool) (front : list SnapList) (z : SnapList) :
  (forall h ds, In (h :: ds) front -> forall d, In d ds -> keep d = false) ->
  (forall a, In a z -> keep a = true) ->
  filter keep (List.concat (front ++ [z])) = List.concat (thin keep front ++ [z]).
Proof.
  intros Hds Hz. induction front as [|x0 front IH].
  - cbn [app List.concat thin flat_map]. rewrite !app_nil_r. apply filter_all. exact Hz.
  - assert (IH' : filter keep (List.concat (front ++ [z]))
                  = List.concat (thin keep front ++ [z])).
    { apply IH. intros h ds Hin. apply (Hds h ds). right. exact Hin. }
    cbn [app List.concat]. rewrite filter_app, IH'.
    destruct x0 as [|h ds]; [reflexivity|].
    change (thin keep ((h :: ds) :: front))
      with ((if keep h then [[h]] else []) ++ thin keep front).
    cbn [filter].
    rewrite (filter_none keep ds) by (apply (Hds h ds); left; reflexivity).
    destruct (keep h); reflexivity.
Qed.

(** The streams, but the latest, of what is left of a listing when every
    delta snapshot of a stream other than the latest is gone, some heads of
    these streams with them, and nothing of the latest stream: the heads
    left, each a stream of its own. *)
Lemma survivors_streams (keep : Snapshot -> bool) (snapList : SnapList) :
  (forall h ds, In (h :: ds) (removelast (snapStreams snapList)) ->
     forall d, In d ds -> keep d = false) ->
  (forall a, In a (last (snapStreams snapList) []) -> keep a = true) ->
  removelast (snapStreams (filter keep snapList))
  = thin keep (removelast (snapStreams snapList)).
Proof.
  intros Hds Hz.
  destruct (list_eq_dec Snapshot_eq_dec snapList []) as [->|Hne]; [reflexivity|].
  pose proof (snapStreams_streamsShape _ Hne) as Hshape.
  pose proof (filter_streams keep _ _ Hds Hz) as E.
  rewrite <- snapStreams_split_last, snapStreams_concat in E.
  rewrite snapStreams_split_last in Hshape.
  apply (thin_streamsShape keep) in Hshape.
  rewrite E, (snapStreams_inv _ Hshape). apply removelast_last.
Qed.

Lemma walkKept_as_filter now heads :
  forall st, NoDup heads ->
    walkKept now st heads = filter (fun h => mem h (walkKept now st heads)) heads.
Proof.
  induction heads as [|a heads IH]; intros st HN; [reflexivity|].
  inversion HN as [|? ? Ha HN']; subst.
  cbn [walkKept]. set (st' := fst (switchBackupMode now a st)).
  specialize (IH st' HN').
  destruct (deleteSnap st').
  - cbn [filter].
    assert (E : mem a (walkKept now st' heads) = false).
    { apply mem_not_In. intros Hin. apply Ha. eapply walkKept_incl; eauto. }
    rewrite E. exact IH.
  - cbn [filter].
    assert (E : mem a (a :: walkKept now st' heads) = true)
      by (apply mem_In; left; reflexivity).
    rewrite E. f_equal. rewrite IH at 1. apply filter_ext_in.
    intros b Hb. destruct (mem b (walkKept now st' heads)) eqn:E1.
    + symmetry. apply mem_In. right. apply mem_In. exact E1.
    + symmetry. apply mem_not_In. intros [E2|E2].
      * subst b. auto.
      * apply mem_not_In in E1. auto.
Qed.

(** The rounds of the exponential loop over streams of one snapshot each,
    all of which the walk keeps: no call of [store.Delete]. *)
Lemma exponential_rounds_singletons now heads :
  forall st calls st',
    Rounds ExpState expOnFail (expOnOk now) st (map (fun h => [h]) heads) calls st' ->
    walkKept now st heads = heads ->
    List.concat calls = [].
Proof.
  induction heads as [|a heads IH]; intros st calls st' HR Hw.
  - inversion HR; subst. reflexivity.
  - cbn [map] in HR. inversion HR as [|v x0 c v1 streams calls0 v' Hround Hrest]; subst.
    cbn [walkKept] in Hw.
    assert (Hd : deleteSnap (fst (switchBackupMode now a st)) = false).
    { destruct (deleteSnap (fst (switchBackupMode now a st))) eqn:E; [|reflexivity].
      exfalso. pose proof (walkKept_length now heads (fst (switchBackupMode now a st))) as Hl.
      rewrite Hw in Hl. simpl in Hl. lia. }
    rewrite Hd in Hw. inversion Hw as [Hw'].
    inversion Hround as [v0 h ds ok d rest e E|v0 h ds Hdec|v0 h ds r Hdec]; subst.
    + destruct ok; discriminate.
    + change (fst (expOnOk now st a)) with (fst (switchBackupMode now a st)) in Hrest.
      cbn [List.concat rev succeeded map app]. apply (IH _ _ _ Hrest Hw').
    + exfalso. unfold expOnOk in Hdec. cbn [snd] in Hdec. congruence.
Qed.

(** ** A second pass *)

Section SecondPass.

Context {Store : Type} {store : SnapStore Store}.

Variable good : Store -> Prop.
Variable held : Store -> SnapList.

Hypothesis good_List : forall s, good s -> List s = (s, inl (held s)).

Hypothesis good_Delete : forall s snap,
  good s -> In snap (held s) ->
  exists s', Delete s snap = (s', None) /\ good s' /\
             held s' = remove Snapshot_eq_dec snap (held s).

(** X14: the exponential policy is done after one pass.  On a store that
    lists what it holds and deletes what it is asked to, holding no
    snapshot twice, in whatever order: every delete of a pass succeeds and
    the store is left with what it held less the snapshots handed to
    [store.Delete]; a second pass at the same [now] on what is left calls
    [store.Delete] on nothing and leaves the store as it is. *)
Theorem exponential_second_pass_deletes_nothing (ssr : Snapshotter) (now : time.Time)
    (s s1 s2 : Store) (r1 r2 : option unit) (tr1 tr2 : Trace) :
  garbageCollectionPolicy ssr = GarbageCollectionPolicyExponential ->
  good s -> NoDup (held s) ->
  gcPass ssr now s = (r1, s1, tr1) ->
  gcPass ssr now s1 = (r2, s2, tr2) ->
  allDeletesSucceed tr1 /\
  held s1 = filter (fun a => negb (mem a (deleteCalls tr1))) (held s) /\
  deleteCalls tr2 = [] /\
  held s2 = held s1.
Proof.
  intros Hp Hg HN Hrun1 Hrun2.
  pose proof (good_List s Hg) as HL.
  destruct (exponential_pass_rounds ssr now s s (held s) Hp HL)
    as (sa & tra & calls & st' & Hrun & Hd & HR).
  rewrite Hrun1 in Hrun. inversion Hrun; subst r1 sa tra. clear Hrun.
  set (front := removelast (snapStreams (held s))) in *.
  pose proof (NoDup_front _ HN) as HNf. fold front in HNf.
  assert (HNr : NoDup (List.concat (rev front))).
  { eapply Permutation_NoDup; [apply Permutation_sym, concat_rev_perm|exact HNf]. }
  assert (Hnd : NoDup (deleteCalls tr1)).
  { rewrite deleteCalls_results, Hd. eapply rounds_calls_NoDup; eauto. }
  assert (Hfront : forall a, In a (deleteCalls tr1) -> In a (List.concat front)).
  { intros a Ha. rewrite deleteCalls_results, Hd in Ha.
    apply (rounds_calls_incl _ _ _ _ _ _ _ HR) in Ha.
    apply (Permutation_in _ (concat_rev_perm _)) in Ha. exact Ha. }
  assert (Esplit : held s = List.concat front ++ last (snapStreams (held s)) []).
  { pose proof (snapStreams_concat (held s)) as E.
    rewrite snapStreams_split_last, concat_app in E. cbn [List.concat] in E.
    rewrite app_nil_r in E. symmetry. exact E. }
  assert (Hincl : incl (deleteCalls tr1) (held s)).
  { intros a Ha. rewrite Esplit. apply in_or_app. left. auto. }
  pose proof (ran_gcPass ssr now s) as HRan. rewrite Hrun1 in HRan. cbn [fst snd] in HRan.
  destruct (Ran_held good held good_List good_Delete s s1 tr1 HRan Hg Hnd Hincl)
    as (Hg1 & Hok & Eheld).
  split; [exact Hok|]. split; [exact Eheld|].
  (* the second pass *)
  set (keep := fun a => negb (mem a (deleteCalls tr1))) in *.
  pose proof (good_List s1 Hg1) as HL1.
  destruct (exponential_pass_rounds ssr now s1 s1 (held s1) Hp HL1)
    as (sb & trb & calls2 & st2 & Hrunb & Hd2 & HR2).
  rewrite Hrun2 in Hrunb. inversion Hrunb; subst r2 sb trb. clear Hrunb.
  assert (Hres : deleteResults tr1 = List.concat calls) by exact Hd.
  assert (Hall : Forall (fun c => snd c = None) (List.concat calls)).
  { rewrite <- Hd. apply allDeletesSucceed_results. exact Hok. }
  assert (Estreams : removelast (snapStreams (held s1)) = thin keep front).
  { rewrite Eheld. apply survivors_streams.
    - intros h ds Hin d Hdin. unfold keep. apply negb_false_iff, mem_In.
      rewrite deleteCalls_results, Hd.
      apply (rounds_sweeps_all _ _ _ _ _ _ _ HR Hall h ds); [|exact Hdin].
      apply -> in_rev. exact Hin.
    - intros a Ha. unfold keep. apply negb_true_iff, mem_not_In. intros Hdel.
      apply Hfront in Hdel. rewrite Esplit in HN.
      apply (NoDup_app_disjoint _ _ a HN Hdel Ha). }
  set (heads := flat_map (firstn 1) front) in *.
  assert (HNh : NoDup (rev heads)).
  { apply NoDup_rev. unfold heads, front. rewrite <- front_heads.
    apply front_heads_NoDup. exact HN. }
  assert (Ekept : filter keep (rev heads) = walkKept now initExpState (rev heads)).
  { rewrite (walkKept_as_filter now (rev heads) initExpState HNh) at 1.
    apply filter_ext_in. intros h Hh.
    assert (Hin : In h (removelast (streamHeads (held s)))).
    { rewrite front_heads. apply in_rev. exact Hh. }
    pose proof (exponential_pass_kept ssr now s s s1 (held s) (Some tt) tr1
                  Hp HN HL Hrun1 Hok h Hin) as Hiff.
    rewrite front_heads in Hiff. fold front heads in Hiff.
    unfold keep. destruct (mem h (deleteCalls tr1)) eqn:E1; cbn [negb].
    - symmetry. apply mem_not_In. apply Hiff. apply mem_In. exact E1.
    - symmetry. apply mem_In.
      destruct (in_dec Snapshot_eq_dec h (walkKept now initExpState (rev heads)))
        as [Hk|Hk]; [exact Hk|].
      exfalso. apply mem_not_In in E1. apply E1. apply Hiff. exact Hk. }
  rewrite Estreams, thin_heads, <- map_rev, <- filter_rev in HR2.
  fold heads in HR2. rewrite Ekept in HR2.
  pose proof (exponential_rounds_singletons now _ _ _ _ HR2 (walkKept_twice now (rev heads)))
    as Hnone.
  assert (Hcalls2 : deleteCalls tr2 = []).
  { rewrite deleteCalls_results, Hd2, Hnone. reflexivity. }
  split; [exact Hcalls2|].
  pose proof (ran_gcPass ssr now s1) as HRan2. rewrite Hrun2 in HRan2.
  cbn [fst snd] in HRan2.
  destruct (Ran_held good held good_List good_Delete s1 s2 tr2 HRan2 Hg1)
    as (_ & _ & E2).
  - rewrite Hcalls2. constructor.
  - rewrite Hcalls2. intros a [].
  - rewrite E2, Hcalls2. apply filter_all. intros a _. reflexivity.
Qed.

End SecondPass.

(** The rounds of the limit-based loop over streams of one snapshot each,
    from an index at or above the limit: no call of [store.Delete]. *)
Lemma limit_rounds_singletons (total : nat) (maxBackups : Z) (heads : list Snapshot) :
  forall j calls v',
    Rounds nat limitOnFail (limitOnOk total maxBackups) j
      (map (fun h => [h]) heads) calls v' ->
    wrapInt (Z.of_nat total - maxBackups) <= Z.of_nat j ->
    List.concat calls = [].
Proof.
  induction heads as [|a heads IH]; intros j calls v' HR Hj.
  - inversion HR; subst. reflexivity.
  - cbn [map] in HR. inversion HR as [|v x0 c v1 streams calls0 v2 Hround Hrest]; subst.
    pose proof (limit_round_next _ _ _ _ _ _ Hround) as ->.
    assert (Hnone : List.concat calls0 = []) by (apply (IH _ _ _ Hrest); lia).
    inversion Hround as [v0 h ds ok d rest e E|v0 h ds Hdec|v0 h ds r Hdec]; subst.
    + destruct ok; discriminate.
    + cbn [List.concat rev succeeded map app]. exact Hnone.
    + exfalso. unfold limitOnOk in Hdec. cbn [snd] in Hdec. apply Z.ltb_lt in Hdec. lia.
Qed.

Lemma snapStreamIndexList_count (snapList : SnapList) :
  List.length (snapStreamIndexList snapList)
  = S (List.length (removelast (snapStreams snapList))).
Proof.
  rewrite snapStreamIndexList_offsets, offsets_length.
  rewrite (snapStreams_split_last snapList) at 1. rewrite length_app. simpl. lia.
Qed.

Section SecondLimitPass.

Context {Store : Type} {store : SnapStore Store}.

Variable good : Store -> Prop.
Variable held : Store -> SnapList.

Hypothesis good_List : forall s, good s -> List s = (s, inl (held s)).

Hypothesis good_Delete : forall s snap,
  good s -> In snap (held s) ->
  exists s', Delete s snap = (s', None) /\ good s' /\
             held s' = remove Snapshot_eq_dec snap (held s).

(** X15: the limit-based policy is done after one pass.  On a store that
    lists what it holds and deletes what it is asked to, holding no
    snapshot twice, with [0 < maxBackups]: every delete of a pass succeeds
    and the store is left with what it held less the snapshots handed to
    [store.Delete]; a second pass on what is left calls [store.Delete] on
    nothing and leaves the store as it is. *)
Theorem limit_second_pass_deletes_nothing (ssr : Snapshotter) (now now' : time.Time)
    (s s1 s2 : Store) (r1 r2 : option unit) (tr1 tr2 : Trace) :
  garbageCollectionPolicy ssr = GarbageCollectionPolicyLimitBased ->
  0 < maxBackups ssr < 2 ^ 63 ->
  Z.of_nat (List.length (held s)) < 2 ^ 63 - 1 ->
  good s -> NoDup (held s) ->
  gcPass ssr now s = (r1, s1, tr1) ->
  gcPass ssr now' s1 = (r2, s2, tr2) ->
  allDeletesSucceed tr1 /\
  held s1 = filter (fun a => negb (mem a (deleteCalls tr1))) (held s) /\
  deleteCalls tr2 = [] /\
  held s2 = held s1.
Proof.
  intros Hp Hk Hlen Hg HN Hrun1 Hrun2.
  pose proof (good_List s Hg) as HL.
  destruct (limit_pass_rounds ssr now s s (held s) Hp HL)
    as (sa & tra & calls & v' & Hrun & Hd & HR).
  rewrite Hrun1 in Hrun. inversion Hrun; subst r1 sa tra. clear Hrun.
  set (front := removelast (snapStreams (held s))) in *.
  pose proof (NoDup_front _ HN) as HNf. fold front in HNf.
  assert (Hnd : NoDup (deleteCalls tr1)).
  { rewrite deleteCalls_results, Hd. eapply rounds_calls_NoDup; eauto. }
  assert (Hfront : forall a, In a (deleteCalls tr1) -> In a (List.concat front)).
  { intros a Ha. rewrite deleteCalls_results, Hd in Ha.
    apply (rounds_calls_incl _ _ _ _ _ _ _ HR) in Ha. exact Ha. }
  assert (Esplit : held s = List.concat front ++ last (snapStreams (held s)) []).
  { pose proof (snapStreams_concat (held s)) as E.
    rewrite snapStreams_split_last, concat_app in E. cbn [List.concat] in E.
    rewrite app_nil_r in E. symmetry. exact E. }
  assert (Hincl : incl (deleteCalls tr1) (held s)).
  { intros a Ha. rewrite Esplit. apply in_or_app. left. auto. }
  pose proof (ran_gcPass ssr now s) as HRan. rewrite Hrun1 in HRan. cbn [fst snd] in HRan.
  destruct (Ran_held good held good_List good_Delete s s1 tr1 HRan Hg Hnd Hincl)
    as (Hg1 & Hok & Eheld).
  split; [exact Hok|]. split; [exact Eheld|].
  (* the second pass *)
  set (keep := fun a => negb (mem a (deleteCalls tr1))) in *.
  pose proof (good_List s1 Hg1) as HL1.
  destruct (limit_pass_rounds ssr now' s1 s1 (held s1) Hp HL1)
    as (sb & trb & calls2 & v2 & Hrunb & Hd2 & HR2).
  rewrite Hrun2 in Hrunb. inversion Hrunb; subst r2 sb trb. clear Hrunb.
  assert (Hall : Forall (fun c => snd c = None) (List.concat calls)).
  { rewrite <- Hd. apply allDeletesSucceed_results. exact Hok. }
  assert (Estreams : removelast (snapStreams (held s1)) = thin keep front).
  { rewrite Eheld. apply survivors_streams.
    - intros h ds Hin d Hdin. unfold keep. apply negb_false_iff, mem_In.
      rewrite deleteCalls_results, Hd.
      apply (rounds_sweeps_all _ _ _ _ _ _ _ HR Hall h ds); [exact Hin|exact Hdin].
    - intros a Ha. unfold keep. apply negb_true_iff, mem_not_In. intros Hdel.
      apply Hfront in Hdel. rewrite Esplit in HN.
      apply (NoDup_app_disjoint _ _ a HN Hdel Ha). }
  set (heads := flat_map (firstn 1) front) in *.
  assert (HNh : NoDup heads).
  { unfold heads, front. rewrite <- front_heads. apply front_heads_NoDup. exact HN. }
  assert (Hheads : List.length heads = List.length front).
  { unfold heads. apply heads_length. apply removelast_nonempty. }
  (* the limit as the first pass sees it *)
  pose proof (snapStreamIndexList_count (held s)) as Htotal. fold front in Htotal.
  pose proof (snapStreamIndexList_length (held s)) as Hbound.
  assert (HT : wrapInt (Z.of_nat (List.length (snapStreamIndexList (held s)))
                        - maxBackups ssr)
               = Z.of_nat (List.length heads) + 1 - maxBackups ssr).
  { rewrite wrapInt_small by lia. lia. }
  set (n := Z.to_nat (Z.of_nat (List.length heads) + 1 - maxBackups ssr)).
  assert (Edel : filter (fun snap => mem snap heads) (deleteCalls tr1) = firstn n heads).
  { rewrite deleteCalls_results, Hd.
    rewrite (limit_rounds_deleted _ _ (fun snap => mem snap heads) _ _ _ _ HR Hall).
    - rewrite HT. unfold n. f_equal. f_equal. lia.
    - intros h ds Hin. split.
      + apply mem_In. unfold heads. apply in_flat_map.
        exists (h :: ds). split; [exact Hin|left; reflexivity].
      + intros d Hdin. apply mem_not_In. unfold heads.
        eapply heads_not_deltas; eauto. }
  assert (Ekept : filter keep heads = skipn n heads).
  { rewrite <- (filter_not_firstn heads n HNh). apply filter_ext_in.
    intros h Hh. unfold keep. f_equal. rewrite <- Edel.
    destruct (mem h (deleteCalls tr1)) eqn:E1.
    - symmetry. apply mem_In. apply filter_In. split; [apply mem_In; exact E1|].
      apply mem_In. exact Hh.
    - symmetry. apply mem_not_In. intros Hf. apply filter_In in Hf.
      destruct Hf as [Hf _]. apply mem_not_In in E1. auto. }
  pose proof (snapStreamIndexList_count (held s1)) as Htotal2.
  rewrite Estreams, thin_heads in Htotal2, HR2. fold heads in Htotal2, HR2.
  rewrite Ekept in Htotal2, HR2. rewrite length_map, length_skipn in Htotal2.
  assert (Hnone : List.concat calls2 = []).
  { apply (limit_rounds_singletons _ _ _ _ _ _ HR2).
    rewrite Htotal2, wrapInt_small by lia. unfold n. lia. }
  assert (Hcalls2 : deleteCalls tr2 = []).
  { rewrite deleteCalls_results, Hd2, Hnone. reflexivity. }
  split; [exact Hcalls2|].
  pose proof (ran_gcPass ssr now' s1) as HRan2. rewrite Hrun2 in HRan2.
  cbn [fst snd] in HRan2.
  destruct (Ran_held good held good_List good_Delete s1 s2 tr2 HRan2 Hg1)
    as (_ & _ & E2).
  - rewrite Hcalls2. constructor.
  - rewrite Hcalls2. intros a [].
  - rewrite E2, Hcalls2. apply filter_all. intros a _. reflexivity.
Qed.

End SecondLimitPass.

(** ** The order of the deletes *)

Lemma Subseq_refl (l : list Snapshot) : Subseq l l.
Proof. induction l as [|a l IH]; [constructor|apply SubseqTake; exact IH]. Qed.

Lemma Subseq_app (a b c d : list Snapshot) :
  Subseq a b -> Subseq c d -> Subseq (a ++ c) (b ++ d).
Proof.
  induction 1 as [l|a b0 l _ IH|b0 a l _ IH]; intros Hcd; simpl.
  - induction l as [|z l IHl]; [exact Hcd|]. simpl. apply SubseqSkip. exact IHl.
  - apply SubseqSkip. auto.
  - apply SubseqTake. auto.
Qed.

Lemma round_calls_order (V : Type) (onFail : V -> V) (onOk : V -> Snapshot -> V * bool)
    v x0 c v' :
  Round V onFail onOk v x0 c v' -> Subseq (map fst c) (sweepOrder [x0]).
Proof.
  intros [v0 h ds ok d rest e E|v0 h ds Hd|v0 h ds r Hd];
    unfold sweepOrder; cbn [flat_map]; rewrite app_nil_r;
    rewrite ?map_app, ?succeeded_fst; cbn [map fst].
  - rewrite E. replace (ok ++ d :: rest) with ((ok ++ [d]) ++ rest)
      by (rewrite <- app_assoc; reflexivity).
    rewrite <- app_assoc.
    rewrite <- (app_nil_r (ok ++ [d])) at 1.
    apply Subseq_app; [apply Subseq_refl|constructor].
  - rewrite <- (app_nil_r (rev ds)) at 1.
    apply Subseq_app; [apply Subseq_refl|constructor].
  - apply Subseq_refl.
Qed.

Lemma sweepOrder_cons (x0 : SnapList) (streams : list SnapList) :
  sweepOrder (x0 :: streams) = sweepOrder [x0] ++ sweepOrder streams.
Proof. unfold sweepOrder. cbn [flat_map]. rewrite app_nil_r. reflexivity. Qed.

Lemma rounds_calls_order (V : Type) (onFail : V -> V) (onOk : V -> Snapshot -> V * bool)
    v streams calls v' :
  Rounds V onFail onOk v streams calls v' ->
  Subseq (map fst (List.concat calls)) (sweepOrder streams).
Proof.
  induction 1 as [v|v x0 c v1 streams calls v' HR _ IH]; [constructor|].
  cbn [List.concat]. rewrite map_app, sweepOrder_cons.
  apply Subseq_app; [eapply round_calls_order; eauto|exact IH].
Qed.

Section OrderFacts.

Context {Store : Type} {store : SnapStore Store}.

(** X16: the order of the deletes of a pass.  The limit-based policy goes
    through the streams but the latest from the oldest to the newest, the
    exponential policy from the newest to the oldest; in each stream the
    delta snapshots come from the newest to the oldest and the head after
    them.  The snapshots handed to [store.Delete] are in that order, some
    left out: what a policy keeps and what a failed delete cuts off. *)
Theorem pass_deletes_in_order (ssr : Snapshotter) (now : time.Time)
    (s s1 s' : Store) (snapList : SnapList) (r : option unit) (tr : Trace) :
  List s = (s1, inl snapList) ->
  gcPass ssr now s = (r, s', tr) ->
  (garbageCollectionPolicy ssr = GarbageCollectionPolicyLimitBased ->
   Subseq (deleteCalls tr) (sweepOrder (removelast (snapStreams snapList)))) /\
  (garbageCollectionPolicy ssr = GarbageCollectionPolicyExponential ->
   Subseq (deleteCalls tr) (sweepOrder (rev (removelast (snapStreams snapList))))).
Proof.
  intros HL Hrun. split; intros Hp.
  - destruct (limit_pass_rounds ssr now s s1 snapList Hp HL)
      as (s2 & tr2 & calls & v' & Hrun2 & Hd & HR).
    rewrite Hrun2 in Hrun. inversion Hrun; subst r s' tr.
    rewrite deleteCalls_results, Hd. eapply rounds_calls_order; eauto.
  - destruct (exponential_pass_rounds ssr now s s1 snapList Hp HL)
      as (s2 & tr2 & calls & st' & Hrun2 & Hd & HR).
    rewrite Hrun2 in Hrun. inversion Hrun; subst r s' tr.
    rewrite deleteCalls_results, Hd. eapply rounds_calls_order; eauto.
Qed.

End OrderFacts.

(** ** These on a store in memory *)

Lemma successful_pass_sweeps_every_old_stream_witness :
  In (delta (at_ 100 8 10) "a1") (deleteCalls (snd (demoPass exponential []))).
Proof.
  apply (successful_pass_sweeps_every_old_stream exponential (at_ 100 10 30)
           (memstore.mk demoList None []) (memstore.mk demoList None [])
           (snd (fst (demoPass exponential []))) demoList
           (fst (fst (demoPass exponential []))) (snd (demoPass exponential []))
           0%nat 0%nat 3%nat 1%nat).
  - left. reflexivity.
  - reflexivity.
  - vm_compute. reflexivity.
  - apply deleteOkb_sound. vm_compute. reflexivity.
  - reflexivity.
  - reflexivity.
  - lia.
  - reflexivity.
Defined.

Lemma exponential_spares_latest_stream_witness :
  let tr := snd (demoPass exponential []) in
  (forall snap, In snap (deleteCalls tr) -> In snap (firstn 5 demoList)) /\
  (forall snap, In snap (skipn 5 demoList) -> ~ In snap (deleteCalls tr)).
Proof.
  destruct (exponential_spares_latest_stream exponential (at_ 100 10 30)
              (memstore.mk demoList None []) (memstore.mk demoList None [])
              (snd (fst (demoPass exponential []))) demoList
              (fst (fst (demoPass exponential [])))
              (snd (demoPass exponential [])))
    as [H1 H2].
  - reflexivity.
  - reflexivity.
  - vm_compute. reflexivity.
  - split; [exact H1|]. apply H2. apply nodupb_sound. vm_compute. reflexivity.
Defined.

Lemma pass_deletes_at_most_once_witness :
  let tr := snd (demoPass (limitBased 1) [delta (at_ 100 8 10) "a1"]) in
  NoDup (deleteCalls tr) /\ incl (deleteCalls tr) demoList.
Proof.
  apply (pass_deletes_at_most_once (limitBased 1) (at_ 100 10 30)
           (memstore.mk demoList None [delta (at_ 100 8 10) "a1"])
           (memstore.mk demoList None [delta (at_ 100 8 10) "a1"])
           (snd (fst (demoPass (limitBased 1) [delta (at_ 100 8 10) "a1"]))) demoList
           (fst (fst (demoPass (limitBased 1) [delta (at_ 100 8 10) "a1"])))
           (snd (demoPass (limitBased 1) [delta (at_ 100 8 10) "a1"]))).
  - right. reflexivity.
  - apply nodupb_sound. vm_compute. reflexivity.
  - reflexivity.
  - vm_compute. reflexivity.
Defined.

Lemma mode_switches_logged_in_order_witness :
  switches (snd (gcExponential (at_ 100 10 30) eveningList
                   (snapStreamIndexList eveningList) (holding eveningList)))
  = [ModeHour; ModeDay] /\
  switches (snd (gcPass exponential (at_ 100 10 30) (holding eveningList)))
  = [ModeHour; ModeDay] /\
  switches (snd (gcPass (limitBased 1) (at_ 100 10 30) (holding eveningList))) = [] /\
  switches (snd (gcPass exponential (at_ 100 10 30)
                   (memstore.mk eveningList (Some "no listing"%string) []))) = [].
Proof.
  destruct (mode_switches_logged_in_order (at_ 100 10 30)) as (H1 & H2 & H3 & H4).
  split; [|split; [|split]].
  - apply (H1 eveningList (snapStreamIndexList eveningList) (holding eveningList)
             (snd (fst (gcExponential (at_ 100 10 30) eveningList
                          (snapStreamIndexList eveningList) (holding eveningList))))
             (mkExpState true ModeDay 5)).
    vm_compute. reflexivity.
  - destruct (H2 exponential (holding eveningList) (holding eveningList) eveningList
                eq_refl eq_refl) as (st' & s' & tr & E & Hsw).
    rewrite Hsw.
    assert (Est : Some st' = Some (mkExpState true ModeDay 5)).
    { change (Some st') with (fst (fst (Some st', s', tr))). rewrite <- E.
      vm_compute. reflexivity. }
    injection Est as ->. reflexivity.
  - apply (H3 (limitBased 1) (holding eveningList)). discriminate.
  - apply (H4 exponential (memstore.mk eveningList (Some "no listing"%string) [])
             (memstore.mk eveningList (Some "no listing"%string) []) "no listing"%string).
    reflexivity.
Defined.

Lemma exponential_deletes_outside_buckets_witness :
  In (full (at_ 58 0 59) "a") (deleteCalls (snd (morningPass oldList))).
Proof.
  apply (exponential_deletes_outside_buckets exponential (at_ 100 10 30)
           (holding oldList) (holding oldList) (snd (fst (morningPass oldList)))
           oldList (fst (fst (morningPass oldList))) (snd (morningPass oldList))).
  - reflexivity.
  - reflexivity.
  - vm_compute. reflexivity.
  - apply deleteOkb_sound. vm_compute. reflexivity.
  - left. reflexivity.
  - left. vm_compute. reflexivity.
Defined.

Lemma exponential_keeps_current_hour_witness :
  ~ In (full (at_ 100 10 5) "b") (deleteCalls (snd (morningPass currentList))).
Proof.
  apply (exponential_keeps_current_hour exponential (at_ 100 10 30)
           (holding currentList) (holding currentList)
           (snd (fst (morningPass currentList)))
           currentList (fst (fst (morningPass currentList)))
           (snd (morningPass currentList))).
  - reflexivity.
  - apply nodupb_sound. vm_compute. reflexivity.
  - apply sortedb_sound. vm_compute. reflexivity.
  - intros snap [<-|[<-|[<-|[]]]]; vm_compute; discriminate.
  - reflexivity.
  - vm_compute. reflexivity.
  - right. left. reflexivity.
  - vm_compute. reflexivity.
Defined.

Lemma exponential_keeps_four_weekly_witness :
  let tr := snd (morningPass weekList) in
  let survivors :=
    filter (fun h => negb (mem h (deleteCalls tr))) (removelast (streamHeads weekList)) in
  (List.length (filter (beforeDayBuckets (at_ 100 10 30)) survivors) <= 4)%nat.
Proof.
  apply (exponential_keeps_four_weekly exponential (at_ 100 10 30)
           (holding weekList) (holding weekList) (snd (fst (morningPass weekList)))
           weekList (fst (fst (morningPass weekList))) (snd (morningPass weekList))).
  - reflexivity.
  - apply nodupb_sound. vm_compute. reflexivity.
  - reflexivity.
  - vm_compute. reflexivity.
  - apply deleteOkb_sound. vm_compute. reflexivity.
Defined.

Lemma lawful_List (s : memstore.T) : lawful s -> List s = (s, inl (contents s)).
Proof. intros [H _]. cbn [List memstore.store]. unfold doList. rewrite H. reflexivity. Qed.

Lemma lawful_Delete (s : memstore.T) (snap : Snapshot) :
  lawful s -> In snap (contents s) ->
  exists s', Delete s snap = (s', None) /\ lawful s' /\
             contents s' = remove Snapshot_eq_dec snap (contents s).
Proof.
  intros [H1 H2] Hin. cbn [Delete memstore.store]. unfold doDelete.
  rewrite H2. assert (E1 : mem snap [] = false) by (apply mem_not_In; intros []).
  assert (E2 : mem snap (contents s) = true) by (apply mem_In; exact Hin).
  rewrite E1, E2. eexists. split; [reflexivity|]. split; [split; [exact H1|reflexivity]|reflexivity].
Qed.

Lemma exponential_second_pass_deletes_nothing_witness :
  let first := gcPass exponential (at_ 100 10 30) (holding hourList) in
  let second := gcPass exponential (at_ 100 10 30) (snd (fst first)) in
  allDeletesSucceed (snd first) /\
  contents (snd (fst first))
  = filter (fun a => negb (mem a (deleteCalls (snd first)))) hourList /\
  deleteCalls (snd second) = [] /\
  contents (snd (fst second)) = contents (snd (fst first)).
Proof.
  apply (exponential_second_pass_deletes_nothing lawful contents lawful_List lawful_Delete
           exponential (at_ 100 10 30) (holding hourList)
           (snd (fst (gcPass exponential (at_ 100 10 30) (holding hourList))))
           (snd (fst (gcPass exponential (at_ 100 10 30)
                        (snd (fst (gcPass exponential (at_ 100 10 30) (holding hourList)))))))
           (fst (fst (gcPass exponential (at_ 100 10 30) (holding hourList))))
           (fst (fst (gcPass exponential (at_ 100 10 30)
                        (snd (fst (gcPass exponential (at_ 100 10 30) (holding hourList)))))))).
  - reflexivity.
  - split; reflexivity.
  - apply nodupb_sound. vm_compute. reflexivity.
  - vm_compute. reflexivity.
  - vm_compute. reflexivity.
Defined.

Lemma limit_second_pass_deletes_nothing_witness :
  let first := gcPass (limitBased 2) (at_ 100 10 30) (holding demoList) in
  let second := gcPass (limitBased 2) (at_ 100 11 30) (snd (fst first)) in
  allDeletesSucceed (snd first) /\
  contents (snd (fst first))
  = filter (fun a => negb (mem a (deleteCalls (snd first)))) demoList /\
  deleteCalls (snd second) = [] /\
  contents (snd (fst second)) = contents (snd (fst first)).
Proof.
  apply (limit_second_pass_deletes_nothing lawful contents lawful_List lawful_Delete
           (limitBased 2) (at_ 100 10 30) (at_ 100 11 30) (holding demoList)
           (snd (fst (gcPass (limitBased 2) (at_ 100 10 30) (holding demoList))))
           (snd (fst (gcPass (limitBased 2) (at_ 100 11 30)
                        (snd (fst (gcPass (limitBased 2) (at_ 100 10 30)
                                     (holding demoList)))))))
           (fst (fst (gcPass (limitBased 2) (at_ 100 10 30) (holding demoList))))
           (fst (fst (gcPass (limitBased 2) (at_ 100 11 30)
                        (snd (fst (gcPass (limitBased 2) (at_ 100 10 30)
                                     (holding demoList)))))))).
  - reflexivity.
  - simpl. lia.
  - simpl. lia.
  - split; reflexivity.
  - apply nodupb_sound. vm_compute. reflexivity.
  - vm_compute. reflexivity.
  - vm_compute. reflexivity.
Defined.

Lemma pass_deletes_in_order_witness :
  Subseq (deleteCalls (snd (demoPass (limitBased 2) [delta (at_ 100 8 10) "a1"])))
    (sweepOrder (removelast (snapStreams demoList))) /\
  Subseq (deleteCalls (snd (demoPass exponential [])))
    (sweepOrder (rev (removelast (snapStreams demoList)))).
Proof.
  split.
  - destruct (pass_deletes_in_order (limitBased 2) (at_ 100 10 30)
                (memstore.mk demoList None [delta (at_ 100 8 10) "a1"])
                (memstore.mk demoList None [delta (at_ 100 8 10) "a1"])
                (snd (fst (demoPass (limitBased 2) [delta (at_ 100 8 10) "a1"]))) demoList
                (fst (fst (demoPass (limitBased 2) [delta (at_ 100 8 10) "a1"])))
                (snd (demoPass (limitBased 2) [delta (at_ 100 8 10) "a1"])))
      as [H _].
    + reflexivity.
    + vm_compute. reflexivity.
    + apply H. reflexivity.
  - destruct (pass_deletes_in_order exponential (at_ 100 10 30)
                (memstore.mk demoList None []) (memstore.mk demoList None [])
                (snd (fst (demoPass exponential []))) demoList
                (fst (fst (demoPass exponential [])))
                (snd (demoPass exponential [])))
      as [_ H].
    + reflexivity.
    + vm_compute. reflexivity.
    + apply H. reflexivity.
Defined.
